(** * Meteor Madness: trajectory propagation and playback synchronisation

    A shallow embedding of the engine that lives in
    [Meteor_Madness_Frontend/src]: the unit normaliser and the analytic
    Earth propagator of [utils/orbitalMechanics.ts], the timeline builder,
    the timeline sampler and the playback clock of [components/Scene.tsx],
    and the orbit diagnostics of [utils/orbitDiagnostics.ts].

    Number model.  A JavaScript number is an IEEE double.  The discrete
    parts of the engine (normaliser, timelines, clock, diagnostics) are
    embedded over the rationals [Q]: every finite double is a rational, the
    arithmetic is taken exact (no rounding), and equality of numbers is
    [Qeq].  Where the source divides by a value that may be zero without a
    guard (the diagnostics), the quotient is a [jsnum], which also has the
    non-finite outcomes of IEEE division.  The Kepler propagator needs
    [sin], [cos] and [sqrt] and is embedded over the real numbers [R].
    Comparisons, [Math.abs], [Math.min] and [Math.max] are exact on
    doubles; sums, differences, products and quotients round.  Statements
    that would depend on the rounding give the expression the code
    evaluates instead of its exact value, and the module [Doubles] repeats
    the interpolation and the unit normaliser over binary64 to evaluate
    them with the rounding. *)

From Stdlib Require Import QArith Qabs Qminmax Lqa.
From Stdlib Require Import List Bool Arith ZArith Lia.
From Stdlib Require Reals Lra.
From Stdlib Require Import Qround Sorted Permutation Orders Mergesort.
From Stdlib Require String DecimalString RNsatz.
From Stdlib Require PrimFloat.
Import ListNotations.

Local Open Scope Q_scope.

(** ** Vectors *)

(** [THREE.Vector3] and the plain [{x, y, z}] objects of the backend; the
    fields are [x], [y], [z] in the source. *)
Record Vector3 : Type := mkVector3 { vx : Q; vy : Q; vz : Q }.

(** Equality of vectors: componentwise equality of numbers. *)
Definition veq (a b : Vector3) : Prop :=
  vx a == vx b /\ vy a == vy b /\ vz a == vz b.

Infix "=v=" := veq (at level 70, no associativity).

(** [Vector3.multiplyScalar]. *)
Definition multiplyScalar (v : Vector3) (s : Q) : Vector3 :=
  mkVector3 (vx v * s) (vy v * s) (vz v * s).

(** [Vector3.lerpVectors(v1, v2, alpha)]:
    [x = v1.x + (v2.x - v1.x) * alpha], and the same for [y] and [z]. *)
Definition lerpVectors (v1 v2 : Vector3) (alpha : Q) : Vector3 :=
  mkVector3 (vx v1 + (vx v2 - vx v1) * alpha)
            (vy v1 + (vy v2 - vy v1) * alpha)
            (vz v1 + (vz v2 - vz v1) * alpha).

(** ** Unit normaliser ([utils/orbitalMechanics.ts]) *)

(** [export const SCALE_FACTOR = 1 / 149600]. *)
Definition SCALE_FACTOR : Q := 1 / 149600.

(** The threshold [5e8] of the meters heuristic. *)
Definition METERS_THRESHOLD : Q := 500000000.

(** [Math.max(Math.abs(x), Math.abs(y), Math.abs(z))]. *)
Definition maxAbs (v : Vector3) : Q :=
  Qmax (Qmax (Qabs (vx v)) (Qabs (vy v))) (Qabs (vz v)).

(** [x > y] on numbers, as a boolean. *)
Definition Qgtb (x y : Q) : bool := negb (Qle_bool x y).

(** [const assumeMeters = maxAbs > 5e8]. *)
Definition assumeMeters (v : Vector3) : bool :=
  Qgtb (maxAbs v) METERS_THRESHOLD.

(** [const factor = assumeMeters ? 1 / 1000 : 1]. *)
Definition unitFactor (v : Vector3) : Q :=
  if assumeMeters v then 1 / 1000 else 1.

(** [toScaledVector({x, y, z})]:
    [new Vector3(x * factor, y * factor, z * factor)
       .multiplyScalar(SCALE_FACTOR)]. *)
Definition toScaledVector (v : Vector3) : Vector3 :=
  let factor := unitFactor v in
  multiplyScalar
    (mkVector3 (vx v * factor) (vy v * factor) (vz v * factor))
    SCALE_FACTOR.

(** The two outcomes the normaliser is specified to have. *)
Definition metersPath (v : Vector3) : Vector3 :=
  mkVector3 (vx v / 1000 * SCALE_FACTOR)
            (vy v / 1000 * SCALE_FACTOR)
            (vz v / 1000 * SCALE_FACTOR).

Definition kilometersPath (v : Vector3) : Vector3 :=
  mkVector3 (vx v * SCALE_FACTOR) (vy v * SCALE_FACTOR) (vz v * SCALE_FACTOR).

(** ** Timelines ([components/Scene.tsx]) *)

(** [TrajectoryPoint] of [types.ts]: [timestamp] and [velocity] are
    optional. *)
Record TrajectoryPoint : Type := mkTrajectoryPoint {
  position : Vector3;
  timestamp : option Q;
  velocity : option Vector3
}.

(** [interface TimelinePoint { t; position; timestamp }]. *)
Record TimelinePoint : Type := mkTimelinePoint {
  tl_t : Q;
  tl_position : Vector3;
  tl_timestamp : Q
}.

(** [interface TimelineSample { position; timestamp }]. *)
Record TimelineSample : Type := mkTimelineSample {
  sample_position : Vector3;
  sample_timestamp : Q
}.

(** [interface TimelineAnimation { timeline; durationMs }]. *)
Record TimelineAnimation : Type := mkTimelineAnimation {
  timeline : list TimelinePoint;
  durationMs : Q
}.

(** [Array.prototype.map] with the index passed to the callback. *)
Fixpoint mapi_from {A B : Type} (f : nat -> A -> B) (k : nat) (l : list A)
  : list B :=
  match l with
  | [] => []
  | a :: l' => f k a :: mapi_from f (S k) l'
  end.

Definition mapi {A B : Type} (f : nat -> A -> B) (l : list A) : list B :=
  mapi_from f 0 l.

(** A natural number (an index or a length) as a JavaScript number. *)
Definition ofNat (n : nat) : Q := inject_Z (Z.of_nat n).

(** [points.map((point, index) => point.timestamp ?? index)]. *)
Definition effectiveTimestamps (points : list TrajectoryPoint) : list Q :=
  mapi (fun index point =>
          match timestamp point with
          | Some ts => ts
          | None => ofNat index
          end) points.

(** [last !== first ? last - first
                    : points.length > 1 ? points.length - 1 : 1]. *)
Definition timelineSpan (first last : Q) (count : nat) : Q :=
  if negb (Qeq_bool last first) then last - first
  else if (1 <? count)%nat then ofNat count - 1
  else 1.

(** [Math.min(Math.max(x, 0), 1)]. *)
Definition clamp01 (x : Q) : Q := Qmin (Qmax x 0) 1.

(** [span !== 0 ? (timestamps[index] - first) / span : 0]. *)
Definition normalizedTime (timestamps : list Q) (first span : Q)
  (index : nat) : Q :=
  if negb (Qeq_bool span 0)
  then (nth index timestamps 0 - first) / span
  else 0.

(** [buildTimeline(points)]. *)
Definition buildTimeline (points : list TrajectoryPoint)
  : list TimelinePoint :=
  match points with
  | [] => []
  | _ :: _ =>
    let timestamps := effectiveTimestamps points in
    let first := nth 0 timestamps 0 in
    let last := nth (length timestamps - 1) timestamps 0 in
    let span := timelineSpan first last (length points) in
    mapi (fun index point =>
            let normalized := normalizedTime timestamps first span index in
            mkTimelinePoint
              (if (index =? length points - 1)%nat
               then 1
               else clamp01 normalized)
              (toScaledVector (position point))
              (nth index timestamps 0))
         points
  end.

(** How a call ends: with a value, with a [TypeError] (a property read on
    [undefined]), or still looping when the fuel of the model is spent. *)
Inductive run (A : Type) : Type :=
| Done (a : A)
| Throws
| OutOfFuel.

Arguments Done {A} a.
Arguments Throws {A}.
Arguments OutOfFuel {A}.

(** [x < y] on numbers, as a boolean. *)
Definition Qltb (x y : Q) : bool := negb (Qle_bool y x).

(** The binary search of [sampleTimeline]:
    [while (lo < hi) { const mid = Math.floor((lo + hi) / 2);
       if (timeline[mid].t < clamped) lo = mid + 1; else hi = mid; }]
    and the value of [lo] after the loop. *)
Fixpoint searchLoop (fuel : nat) (tl : list TimelinePoint) (clamped : Q)
  (lo hi : nat) : run nat :=
  if (lo <? hi)%nat then
    match fuel with
    | O => OutOfFuel
    | S fuel' =>
      let mid := ((lo + hi) / 2)%nat in
      match nth_error tl mid with
      | None => Throws
      | Some p =>
        if Qltb (tl_t p) clamped
        then searchLoop fuel' tl clamped (mid + 1)%nat hi
        else searchLoop fuel' tl clamped lo mid
      end
    end
  else Done lo.

(** [const span = b.t - a.t || 1]. *)
Definition segmentSpan (a b : TimelinePoint) : Q :=
  if Qeq_bool (tl_t b - tl_t a) 0 then 1 else tl_t b - tl_t a.

(** [const localT = span > 0 ? (clamped - a.t) / span : 0]. *)
Definition localT (a b : TimelinePoint) (clamped : Q) : Q :=
  let span := segmentSpan a b in
  if Qgtb span 0 then (clamped - tl_t a) / span else 0.

(** The interpolation between the two bracketing entries. *)
Definition interpolate (a b : TimelinePoint) (clamped : Q) : TimelineSample :=
  let lt := localT a b clamped in
  mkTimelineSample
    (lerpVectors (tl_position a) (tl_position b) lt)
    (tl_timestamp a + (tl_timestamp b - tl_timestamp a) * lt).

(** [sampleTimeline(timeline, progress, target)]; [Done None] is the
    [null] result.  The [target] vector only receives the position. *)
Definition sampleTimeline (tl : list TimelinePoint) (progress : Q)
  : run (option TimelineSample) :=
  match tl with
  | [] => Done None
  | _ :: _ =>
    let clamped := clamp01 progress in
    match searchLoop (length tl) tl clamped 0 (length tl - 1) with
    | OutOfFuel => OutOfFuel
    | Throws => Throws
    | Done upperIndex =>
      let lowerIndex := Nat.max 0 (upperIndex - 1) in
      match nth_error tl lowerIndex, nth_error tl upperIndex with
      | Some a, Some b => Done (Some (interpolate a b clamped))
      | _, _ => Done None
      end
    end
  end.

(** ** Playback clock ([components/Scene.tsx]) *)

Inductive SimulationMode : Type := preview | full.

(** The two trajectories of [SimulationData] that the clock reads. *)
Record SimulationData : Type := mkSimulationData {
  asteroid_trajectory : list TrajectoryPoint;
  earth_trajectory : list TrajectoryPoint
}.

(** The refs of the [Scene] component that make up the clock, and the two
    playback fields of the store ([store.ts]) that the setters
    [setPlaybackProgress] and [setIsPlaybackPlaying] write. *)
Record SceneRefs : Type := mkSceneRefs {
  asteroidAnimationRef : option TimelineAnimation;
  earthAnimationRef : option TimelineAnimation;
  playbackDurationRef : Q;
  playbackProgressRef : Q;
  isPlaybackPlayingRef : bool;
  globalStartTsRef : option Q;
  globalEndTsRef : option Q;
  globalSpanRef : Q;
  idleSimulationTimeRef : Q;
  playbackProgress : Q;
  isPlaybackPlaying : bool
}.

Definition ASTEROID_ANIMATION_DURATION_MS : Q := 15000.
Definition EARTH_ANIMATION_DURATION_MS : Q := 15000.

(** [playbackProgressRef.current = p; setPlaybackProgress(p)]. *)
Definition writeProgress (p : Q) (s : SceneRefs) : SceneRefs :=
  mkSceneRefs (asteroidAnimationRef s) (earthAnimationRef s)
    (playbackDurationRef s) p (isPlaybackPlayingRef s)
    (globalStartTsRef s) (globalEndTsRef s) (globalSpanRef s)
    (idleSimulationTimeRef s) p (isPlaybackPlaying s).

(** [isPlaybackPlayingRef.current = b; setIsPlaybackPlaying(b)]. *)
Definition writePlaying (b : bool) (s : SceneRefs) : SceneRefs :=
  mkSceneRefs (asteroidAnimationRef s) (earthAnimationRef s)
    (playbackDurationRef s) (playbackProgressRef s) b
    (globalStartTsRef s) (globalEndTsRef s) (globalSpanRef s)
    (idleSimulationTimeRef s) (playbackProgress s) b.

(** Assignment of the two animation refs. *)
Definition writeAnimations (a e : option TimelineAnimation) (s : SceneRefs)
  : SceneRefs :=
  mkSceneRefs a e
    (playbackDurationRef s) (playbackProgressRef s) (isPlaybackPlayingRef s)
    (globalStartTsRef s) (globalEndTsRef s) (globalSpanRef s)
    (idleSimulationTimeRef s) (playbackProgress s) (isPlaybackPlaying s).

(** [playbackDurationRef.current = d]. *)
Definition writeDuration (d : Q) (s : SceneRefs) : SceneRefs :=
  mkSceneRefs (asteroidAnimationRef s) (earthAnimationRef s)
    d (playbackProgressRef s) (isPlaybackPlayingRef s)
    (globalStartTsRef s) (globalEndTsRef s) (globalSpanRef s)
    (idleSimulationTimeRef s) (playbackProgress s) (isPlaybackPlaying s).

(** [idleSimulationTimeRef.current = i]. *)
Definition writeIdleTime (i : Q) (s : SceneRefs) : SceneRefs :=
  mkSceneRefs (asteroidAnimationRef s) (earthAnimationRef s)
    (playbackDurationRef s) (playbackProgressRef s) (isPlaybackPlayingRef s)
    (globalStartTsRef s) (globalEndTsRef s) (globalSpanRef s)
    i (playbackProgress s) (isPlaybackPlaying s).

(** Assignment of the three global-span refs. *)
Definition writeGlobalSpan (gStart gEnd gSpan : Q) (s : SceneRefs)
  : SceneRefs :=
  mkSceneRefs (asteroidAnimationRef s) (earthAnimationRef s)
    (playbackDurationRef s) (playbackProgressRef s) (isPlaybackPlayingRef s)
    (Some gStart) (Some gEnd) gSpan
    (idleSimulationTimeRef s) (playbackProgress s) (isPlaybackPlaying s).

(** [playbackDurationRef.current || ASTEROID_ANIMATION_DURATION_MS]. *)
Definition effectiveDuration (s : SceneRefs) : Q :=
  if Qeq_bool (playbackDurationRef s) 0
  then ASTEROID_ANIMATION_DURATION_MS
  else playbackDurationRef s.

(** The playback block of the frame callback [animate], run with the
    wall-clock time [deltaMs] elapsed since the previous frame. *)
Definition animate (deltaMs : Q) (s : SceneRefs) : SceneRefs :=
  if isPlaybackPlayingRef s then
    let duration := effectiveDuration s in
    if Qgtb duration 0 then
      let increment := deltaMs / duration in
      if Qgtb increment 0 then
        let nextProgress := Qmin (playbackProgressRef s + increment) 1 in
        let s1 :=
          if negb (Qeq_bool nextProgress (playbackProgressRef s))
          then writeProgress nextProgress s
          else s in
        if Qle_bool 1 nextProgress
        then writeProgress 0 s1
        else s1
      else s
    else s
  else s.

(** A run of frames. *)
Definition animateAll (deltas : list Q) (s : SceneRefs) : SceneRefs :=
  fold_left (fun st d => animate d st) deltas s.

(** [resetPlayback()]. *)
Definition resetPlayback (s : SceneRefs) : SceneRefs :=
  let s1 :=
    if negb (Qeq_bool (playbackProgressRef s) 0)
    then writeProgress 0 s
    else s in
  if isPlaybackPlayingRef s1 then writePlaying false s1 else s1.

(** [Math.min(...(a :: rest))] and [Math.max(...(a :: rest))]. *)
Definition minOf (a : Q) (rest : list Q) : Q := fold_left Qmin rest a.
Definition maxOf (a : Q) (rest : list Q) : Q := fold_left Qmax rest a.

(** The first and last timestamp a present, non-empty timeline pushes on
    [starts] and [ends]. *)
Definition timelineStart (anim : option TimelineAnimation) : list Q :=
  match anim with
  | Some a =>
    match timeline a with
    | [] => []
    | p :: _ => [tl_timestamp p]
    end
  | None => []
  end.

Definition timelineEnd (anim : option TimelineAnimation) : list Q :=
  match anim with
  | Some a =>
    match nth_error (timeline a) (length (timeline a) - 1) with
    | Some p => [tl_timestamp p]
    | None => []
    end
  | None => []
  end.

(** The block "Compute global timestamp span (asteroid + earth)". *)
Definition computeGlobalSpan (s : SceneRefs) : SceneRefs :=
  let starts := timelineStart (asteroidAnimationRef s)
                  ++ timelineStart (earthAnimationRef s) in
  let ends := timelineEnd (asteroidAnimationRef s)
                ++ timelineEnd (earthAnimationRef s) in
  match starts, ends with
  | s0 :: ss, e0 :: es =>
    let gStart := minOf s0 ss in
    let gEnd := maxOf e0 es in
    writeGlobalSpan gStart gEnd (Qmax (gEnd - gStart) 1) s
  | _, _ => s
  end.

(** A built timeline becomes an animation when it is not empty. *)
Definition animationOf (tl : list TimelinePoint) (duration : Q)
  : option TimelineAnimation :=
  match tl with
  | [] => None
  | _ :: _ => Some (mkTimelineAnimation tl duration)
  end.

(** The effect of [Scene] that runs when [simulationData] or
    [simulationMode] changes, restricted to the clock.  [sceneReady] is
    [sceneRef.current] being set. *)
Definition onSimulationData (sceneReady : bool)
  (simulationData : option SimulationData)
  (simulationMode : option SimulationMode) (s : SceneRefs) : SceneRefs :=
  if negb sceneReady then s else
  match simulationData with
  | None =>
    let s1 := writeAnimations None None s in
    let s2 := writeDuration ASTEROID_ANIMATION_DURATION_MS s1 in
    let s3 := if Qltb (idleSimulationTimeRef s2) 0
              then writeIdleTime 0 s2 else s2 in
    resetPlayback s3
  | Some data =>
    match simulationMode with
    | Some preview =>
      let s1 := writeAnimations None None s in
      let s2 := writeDuration ASTEROID_ANIMATION_DURATION_MS s1 in
      let s3 := resetPlayback s2 in
      writeIdleTime (-1) s3
    | _ =>
      let asteroidTimeline := buildTimeline (asteroid_trajectory data) in
      let earthTimeline := buildTimeline (earth_trajectory data) in
      let s1 :=
        writeAnimations
          (animationOf asteroidTimeline ASTEROID_ANIMATION_DURATION_MS)
          (animationOf earthTimeline EARTH_ANIMATION_DURATION_MS) s in
      let s2 := computeGlobalSpan s1 in
      let s3 := writeDuration ASTEROID_ANIMATION_DURATION_MS s2 in
      if Qgtb (playbackProgressRef s3) 1 then writeProgress 1 s3 else s3
    end
  end.

(** The timestamps of a timeline that may be absent. *)
Definition timestampsOf (anim : option TimelineAnimation) : list Q :=
  match anim with
  | Some a => map tl_timestamp (timeline a)
  | None => []
  end.

(** All timestamps of the timelines that are present. *)
Definition presentTimestamps (s : SceneRefs) : list Q :=
  timestampsOf (asteroidAnimationRef s) ++ timestampsOf (earthAnimationRef s).

(** [m] is the least, respectively the greatest, number of [l]. *)
Definition isMinimumOf (m : Q) (l : list Q) : Prop :=
  In m l /\ forall x, In x l -> m <= x.

Definition isMaximumOf (m : Q) (l : list Q) : Prop :=
  In m l /\ forall x, In x l -> x <= m.

(** A list of numbers is non-decreasing. *)
Fixpoint nonDecreasing (l : list Q) : bool :=
  match l with
  | [] => true
  | a :: l' =>
    match l' with
    | [] => true
    | b :: _ => Qle_bool a b && nonDecreasing l'
    end
  end.

(** All entries of a list of numbers are equal. *)
Definition allEqual (l : list Q) : bool :=
  match l with
  | [] => true
  | a :: l' => forallb (Qeq_bool a) l'
  end.

(** ** Orbit diagnostics ([utils/orbitDiagnostics.ts]) *)

(** The value of a JavaScript arithmetic expression: a finite number or
    one of the non-finite outcomes.  The model has a single zero, which
    stands for [+0]. *)
Inductive jsnum : Type :=
| Fin (q : Q)
| PosInf
| NegInf
| NaN.

Definition isFinite (n : jsnum) : bool :=
  match n with
  | Fin _ => true
  | _ => false
  end.

(** The sign of a quotient or product whose other operand is infinite. *)
Definition signedInf (positive : bool) : jsnum :=
  if positive then PosInf else NegInf.

(** [a / b]: division by zero gives [NaN] for [0 / 0] and an infinity
    otherwise. *)
Definition jsDiv (a b : jsnum) : jsnum :=
  match a, b with
  | NaN, _ | _, NaN => NaN
  | Fin x, Fin y =>
    if Qeq_bool y 0 then
      if Qeq_bool x 0 then NaN else signedInf (Qgtb x 0)
    else Fin (x / y)
  | Fin _, _ => Fin 0
  | PosInf, Fin y => signedInf (Qle_bool 0 y)
  | NegInf, Fin y => signedInf (negb (Qle_bool 0 y))
  | _, _ => NaN
  end.

(** [a * b]. *)
Definition jsMul (a b : jsnum) : jsnum :=
  match a, b with
  | NaN, _ | _, NaN => NaN
  | Fin x, Fin y => Fin (x * y)
  | Fin x, PosInf | PosInf, Fin x =>
    if Qeq_bool x 0 then NaN else signedInf (Qgtb x 0)
  | Fin x, NegInf | NegInf, Fin x =>
    if Qeq_bool x 0 then NaN else signedInf (negb (Qgtb x 0))
  | PosInf, PosInf | NegInf, NegInf => PosInf
  | PosInf, NegInf | NegInf, PosInf => NegInf
  end.

(** [a + b] and [a - b]. *)
Definition jsAdd (a b : jsnum) : jsnum :=
  match a, b with
  | NaN, _ | _, NaN => NaN
  | Fin x, Fin y => Fin (x + y)
  | PosInf, NegInf | NegInf, PosInf => NaN
  | PosInf, _ | _, PosInf => PosInf
  | NegInf, _ | _, NegInf => NegInf
  end.

Definition jsNeg (a : jsnum) : jsnum :=
  match a with
  | Fin x => Fin (- x)
  | PosInf => NegInf
  | NegInf => PosInf
  | NaN => NaN
  end.

Definition jsSub (a b : jsnum) : jsnum := jsAdd a (jsNeg b).

(** [Math.min(...rs)] and [Math.max(...rs)] on finite numbers; the empty
    call gives [Infinity], respectively [-Infinity]. *)
Definition mathMin (rs : list Q) : jsnum :=
  match rs with
  | [] => PosInf
  | r :: rest => Fin (minOf r rest)
  end.

Definition mathMax (rs : list Q) : jsnum :=
  match rs with
  | [] => NegInf
  | r :: rest => Fin (maxOf r rest)
  end.

(** [interface OrbitMetaLike]. *)
Record OrbitMetaLike : Type := mkOrbitMetaLike {
  meta_a_au : Q;
  meta_e : Q;
  meta_q_au : Q;
  meta_Q_au : Q
}.

(** [interface DerivedOrbit]. *)
Record DerivedOrbit : Type := mkDerivedOrbit {
  a_au : jsnum;
  e : jsnum;
  q_au : jsnum;
  Q_au : jsnum
}.

(** The [deltas] and [percent] objects of [OrbitDiagnosticsResult]. *)
Record Deltas : Type := mkDeltas {
  da : jsnum; de : jsnum; dq : jsnum; dQ : jsnum
}.

Record Percent : Type := mkPercent {
  a_pct : jsnum; e_pct : jsnum; q_pct : jsnum; Q_pct : jsnum
}.

(** [interface OrbitDiagnosticsResult]. *)
Record OrbitDiagnosticsResult : Type := mkOrbitDiagnosticsResult {
  derived : DerivedOrbit;
  deltas : Deltas;
  percent : Percent;
  sampleCount : nat;
  rMinAU : jsnum;
  rMaxAU : jsnum
}.

(** [const AU_KM = 149_597_870.7]. *)
Definition AU_KM : Q := 149597870.7.

Section Diagnostics.

(** [THREE.Vector3.length()], the rounded Euclidean length of a vector, is
    code of the three.js library; the diagnostics are embedded for any
    function that gives a finite number. *)
Variable vectorLength : Vector3 -> Q.

(** [analyzeOrbit(points, meta)]; [None] is the [null] result. *)
Definition analyzeOrbit (points : list Vector3) (meta : option OrbitMetaLike)
  : option OrbitDiagnosticsResult :=
  if (length points <? 4)%nat then None else
  let rs := map vectorLength points in
  let rMin := mathMin rs in
  let rMax := mathMax rs in
  let kmMin := jsDiv rMin (Fin SCALE_FACTOR) in
  let kmMax := jsDiv rMax (Fin SCALE_FACTOR) in
  let q := jsDiv kmMin (Fin AU_KM) in
  let Q' := jsDiv kmMax (Fin AU_KM) in
  let a := jsDiv (jsAdd q Q') (Fin 2) in
  let ecc := jsDiv (jsSub Q' q) (jsAdd Q' q) in
  let drv := mkDerivedOrbit a ecc q Q' in
  match meta with
  | None =>
    Some (mkOrbitDiagnosticsResult drv
            (mkDeltas (Fin 0) (Fin 0) (Fin 0) (Fin 0))
            (mkPercent (Fin 0) (Fin 0) (Fin 0) (Fin 0))
            (length points) q Q')
  | Some m =>
    let dl :=
      mkDeltas (jsSub (a_au drv) (Fin (meta_a_au m)))
               (jsSub (e drv) (Fin (meta_e m)))
               (jsSub (q_au drv) (Fin (meta_q_au m)))
               (jsSub (Q_au drv) (Fin (meta_Q_au m))) in
    let pc :=
      mkPercent
        (jsMul (jsDiv (da dl) (Fin (meta_a_au m))) (Fin 100))
        (if negb (Qeq_bool (meta_e m) 0)
         then jsMul (jsDiv (de dl) (Fin (meta_e m))) (Fin 100)
         else Fin 0)
        (jsMul (jsDiv (dq dl) (Fin (meta_q_au m))) (Fin 100))
        (jsMul (jsDiv (dQ dl) (Fin (meta_Q_au m))) (Fin 100)) in
    Some (mkOrbitDiagnosticsResult drv dl pc (length points) q Q')
  end.

End Diagnostics.

(** A length function for examples: it is the Euclidean length on vectors
    that lie on a coordinate axis. *)
Definition axisLength (v : Vector3) : Q :=
  Qabs (vx v) + Qabs (vy v) + Qabs (vz v).

(** ** Analytic Earth propagator ([utils/orbitalMechanics.ts]) *)

Module Kepler.

Import Reals.
Local Open Scope R_scope.

(** [THREE.Vector3] over the reals. *)
Record Vector3R : Type := mkVector3R { rx : R; ry : R; rz : R }.

(** [THREE.Matrix3], entries named as in [Matrix3.set(n11, n12, ...)]. *)
Record Matrix3 : Type := mkMatrix3 {
  n11 : R; n12 : R; n13 : R;
  n21 : R; n22 : R; n23 : R;
  n31 : R; n32 : R; n33 : R
}.

(** [Vector3.applyMatrix3(m)]. *)
Definition applyMatrix3 (m : Matrix3) (v : Vector3R) : Vector3R :=
  mkVector3R (n11 m * rx v + n12 m * ry v + n13 m * rz v)
             (n21 m * rx v + n22 m * ry v + n23 m * rz v)
             (n31 m * rx v + n32 m * ry v + n33 m * rz v).

Definition multiplyScalarR (v : Vector3R) (s : R) : Vector3R :=
  mkVector3R (rx v * s) (ry v * s) (rz v * s).

(** [THREE.MathUtils.degToRad]. *)
Definition degToRad (degrees : R) : R := degrees * (PI / 180).

Definition AU : R := 149597870.7.
Definition EARTH_ORBITAL_RADIUS : R := 1 * AU.
Definition EARTH_ORBITAL_PERIOD : R := 365.25636 * 24 * 3600.
Definition SCALE_FACTOR_R : R := 1 / 149600.

Definition EARTH_ECCENTRICITY : R := 0.01671022.
Definition EARTH_INCLINATION : R := degToRad 0.00005.
Definition EARTH_LONG_ASC_NODE : R := degToRad (-11.26064).
Definition EARTH_ARG_PERIHELION : R := degToRad 102.94719.
Definition EARTH_MEAN_ANOMALY_EPOCH : R :=
  degToRad (100.46435 - 102.94719 - (-11.26064)).

(** [getPerifocalToEclipticMatrix()]. *)
Definition getPerifocalToEclipticMatrix : Matrix3 :=
  let cosO := cos EARTH_LONG_ASC_NODE in
  let sinO := sin EARTH_LONG_ASC_NODE in
  let cosi := cos EARTH_INCLINATION in
  let sini := sin EARTH_INCLINATION in
  let cosw := cos EARTH_ARG_PERIHELION in
  let sinw := sin EARTH_ARG_PERIHELION in
  mkMatrix3
    (cosO * cosw - sinO * sinw * cosi)
    (- cosO * sinw - sinO * cosw * cosi)
    (sinO * sini)
    (sinO * cosw + cosO * sinw * cosi)
    (- sinO * sinw + cosO * cosw * cosi)
    (- cosO * sini)
    (sinw * sini)
    (cosw * sini)
    cosi.

Definition PERIFOCAL_TO_ECLIPTIC : Matrix3 := getPerifocalToEclipticMatrix.

(** Truncation toward zero. *)
Definition truncate (r : R) : Z :=
  if Rle_dec 0 r then Int_part r else (- Int_part (- r))%Z.

(** The remainder operator [a % b] on real numbers: the result has the
    sign of the dividend. *)
Definition jsRem (a b : R) : R := a - b * IZR (truncate (a / b)).

(** One pass of the loop body:
    [f = E - e sin E - M; fp = 1 - e cos E; E -= f / fp]. *)
Definition newtonStep (ecc M E : R) : R :=
  let f := E - ecc * sin E - M in
  let fp := 1 - ecc * cos E in
  E - f / fp.

(** [for (let it = 0; it < n; it++) { ... }] on [E]. *)
Fixpoint newton (n : nat) (ecc M E : R) : R :=
  match n with
  | O => E
  | S k => newton k ecc M (newtonStep ecc M E)
  end.

(** The mean anomaly of [getEarthPosition]. *)
Definition meanAnomaly (time : R) : R :=
  let n := (2 * PI) / EARTH_ORBITAL_PERIOD in
  EARTH_MEAN_ANOMALY_EPOCH + n * jsRem time EARTH_ORBITAL_PERIOD.

(** The position computed from the eccentric anomaly. *)
Definition positionAt (E : R) : Vector3R :=
  let a := EARTH_ORBITAL_RADIUS in
  let ecc := EARTH_ECCENTRICITY in
  let x_pf := a * (cos E - ecc) in
  let y_pf := a * sqrt (1 - ecc * ecc) * sin E in
  multiplyScalarR
    (applyMatrix3 PERIFOCAL_TO_ECLIPTIC (mkVector3R x_pf y_pf 0))
    SCALE_FACTOR_R.

(** [getEarthPosition(time)]. *)
Definition getEarthPosition (time : R) : Vector3R :=
  let M := meanAnomaly time in
  positionAt (newton 7 EARTH_ECCENTRICITY M M).

(** [generateEarthOrbit(numPoints)]: the loop over [i] builds the list
    of points in order. *)
Definition generateEarthOrbit (numPoints : nat) : list Vector3R :=
  map (fun i : nat =>
         let n := (2 * PI) / EARTH_ORBITAL_PERIOD in
         let t := (INR i / INR numPoints) * EARTH_ORBITAL_PERIOD in
         let M := EARTH_MEAN_ANOMALY_EPOCH + n * t in
         positionAt (newton 7 EARTH_ECCENTRICITY M M))
      (seq 0 numPoints).

(** The square of [Vector3.length()]. *)
Definition lengthSq (v : Vector3R) : R :=
  rx v * rx v + ry v * ry v + rz v * rz v.

(** [Vector3.dot]. *)
Definition dot (u v : Vector3R) : R :=
  rx u * rx v + ry u * ry v + rz u * rz v.

(** The columns of a matrix. *)
Definition column1 (m : Matrix3) : Vector3R := mkVector3R (n11 m) (n21 m) (n31 m).
Definition column2 (m : Matrix3) : Vector3R := mkVector3R (n12 m) (n22 m) (n32 m).
Definition column3 (m : Matrix3) : Vector3R := mkVector3R (n13 m) (n23 m) (n33 m).

(** The eccentric anomaly that [getEarthPosition] reaches. *)
Definition eccentricAnomaly (time : R) : R :=
  newton 7 EARTH_ECCENTRICITY (meanAnomaly time) (meanAnomaly time).

End Kepler.

(** ** Statements under study and example data *)

(** The [t] the builder gives to the entry at [index]. *)
Definition builtT (points : list TrajectoryPoint) (index : nat) : Q :=
  let timestamps := effectiveTimestamps points in
  let first := nth 0 timestamps 0 in
  let last := nth (length timestamps - 1) timestamps 0 in
  let span := timelineSpan first last (length points) in
  if (index =? length points - 1)%nat
  then 1
  else clamp01 (normalizedTime timestamps first span index).

(** The first and the last [t] of a timeline. *)
Definition firstT (tl : list TimelinePoint) : Q := nth 0 (map tl_t tl) 0.
Definition lastT (tl : list TimelinePoint) : Q :=
  nth (length tl - 1) (map tl_t tl) 0.

(** The invariant of a timeline in the data model: the [t] values are
    non-decreasing, the first is 0 and the last is 1. *)
Definition timelineInvariant (tl : list TimelinePoint) : Prop :=
  nonDecreasing (map tl_t tl) = true /\ firstT tl == 0 /\ lastT tl == 1.

(** A single sample: its only entry is the last one, so its [t] is 1. *)
Definition singleSample : list TrajectoryPoint :=
  [ mkTrajectoryPoint (mkVector3 1 2 3) (Some 42) None ].

(** Two samples without timestamps: their indices 0 and 1 stand in. *)
Definition untimedSamples : list TrajectoryPoint :=
  [ mkTrajectoryPoint (mkVector3 149600 0 0) None None;
    mkTrajectoryPoint (mkVector3 0 149600 0) None None ].

(** Asteroid samples with timestamps 0, 100, 200. *)
Definition asteroidSamples : list TrajectoryPoint :=
  [ mkTrajectoryPoint (mkVector3 149600 0 0) (Some 0) None;
    mkTrajectoryPoint (mkVector3 0 149600 0) (Some 100) None;
    mkTrajectoryPoint (mkVector3 (-149600) 0 0) (Some 200) None ].

(** Sampling at progress 0 gives the position of the first entry and
    sampling at progress 1 gives the position of the last. *)
Definition samplesItsEndpoints (tl : list TimelinePoint) : Prop :=
  forall first last,
    nth_error tl 0 = Some first ->
    nth_error tl (length tl - 1) = Some last ->
    (exists s, sampleTimeline tl 0 = Done (Some s)
               /\ sample_position s =v= tl_position first) /\
    (exists s, sampleTimeline tl 1 = Done (Some s)
               /\ sample_position s =v= tl_position last).

(** Three samples, the last two at the same time: the builder gives them
    the [t] values 0, 1, 1. *)
Definition repeatedEndSamples : list TrajectoryPoint :=
  [ mkTrajectoryPoint (mkVector3 0 0 0) (Some 0) None;
    mkTrajectoryPoint (mkVector3 149600 0 0) (Some 100) None;
    mkTrajectoryPoint (mkVector3 299200 0 0) (Some 100) None ].

(** A clock at progress 0.98 that is playing a loaded asteroid timeline. *)
Definition nearEndPlaying : SceneRefs :=
  mkSceneRefs
    (animationOf (buildTimeline asteroidSamples) ASTEROID_ANIMATION_DURATION_MS)
    None ASTEROID_ANIMATION_DURATION_MS 0.98 true None None 1 0 0.98 true.

(** The playback state after a reset: progress is 0 and the clock is
    paused. *)
Definition playbackIsReset (s : SceneRefs) : Prop :=
  playbackProgressRef s == 0 /\ isPlaybackPlayingRef s = false.

(** Earth samples with timestamps 50, 150, 250. *)
Definition earthSamples : list TrajectoryPoint :=
  [ mkTrajectoryPoint (mkVector3 149600000000 0 0) (Some 50) None;
    mkTrajectoryPoint (mkVector3 0 149600000000 0) (Some 150) None;
    mkTrajectoryPoint (mkVector3 (-149600000000) 0 0) (Some 250) None ].

Definition fullSimulation : SimulationData :=
  mkSimulationData asteroidSamples earthSamples.

(** A clock that is playing at progress 0.5. *)
Definition midwayPlaying : SceneRefs :=
  mkSceneRefs None None ASTEROID_ANIMATION_DURATION_MS 0.5 true
    None None 1 0 0.5 true.

(** The span runs from the least to the greatest timestamp of the
    timelines that are present. *)
Definition spanIsMinMax (s : SceneRefs) : Prop :=
  exists gStart gEnd,
    globalStartTsRef s = Some gStart /\
    globalEndTsRef s = Some gEnd /\
    isMinimumOf gStart (presentTimestamps s) /\
    isMaximumOf gEnd (presentTimestamps s).

(** Asteroid samples whose timestamps 100, 0, 200 are out of order. *)
Definition unorderedSamples : list TrajectoryPoint :=
  [ mkTrajectoryPoint (mkVector3 149600 0 0) (Some 100) None;
    mkTrajectoryPoint (mkVector3 0 149600 0) (Some 0) None;
    mkTrajectoryPoint (mkVector3 (-149600) 0 0) (Some 200) None ].

(** The refs of a freshly mounted [Scene]. *)
Definition initialRefs : SceneRefs :=
  mkSceneRefs None None ASTEROID_ANIMATION_DURATION_MS 0 false
    None None 1 0 0 false.

(** A percentage is reported as zero. *)
Definition isZero (n : jsnum) : Prop :=
  match n with
  | Fin q => q == 0
  | _ => False
  end.

(** Every percentage whose reference value is zero is reported as zero. *)
Definition zeroReferenceGivesZero (m : OrbitMetaLike)
  (r : OrbitDiagnosticsResult) : Prop :=
  (meta_a_au m == 0 -> isZero (a_pct (percent r))) /\
  (meta_e m == 0 -> isZero (e_pct (percent r))) /\
  (meta_q_au m == 0 -> isZero (q_pct (percent r))) /\
  (meta_Q_au m == 0 -> isZero (Q_pct (percent r))).

(** Four points on the coordinate axes, at distances 1, 1, 1 and 2. *)
Definition axisPoints : list Vector3 :=
  [ mkVector3 1 0 0; mkVector3 0 1 0; mkVector3 0 0 1; mkVector3 2 0 0 ].

(** Metadata whose four reference values are zero. *)
Definition zeroMeta : OrbitMetaLike := mkOrbitMetaLike 0 0 0 0.

(** ** Playback controls ([components/PlaybackControls.tsx]) *)

(** [Math.floor(x)] and [Math.round(x)]; [Math.round] rounds a half up. *)
Definition mathFloor (x : Q) : Z := Qfloor x.
Definition mathRound (x : Q) : Z := Qfloor (x + 1 / 2).

(** Truncation toward zero, and the remainder [a % b] of numbers: the
    result has the sign of the dividend. *)
Definition Qtrunc (x : Q) : Z :=
  if Qle_bool 0 x then Qfloor x else Qceiling x.

Definition jsRemQ (a b : Q) : Q := a - b * inject_Z (Qtrunc (a / b)).

(** The fields [formatSeconds] prints: [days], [hours], [minutes] and
    [secs] of [value = Math.abs(seconds)]. *)
Record ClockFields : Type := mkClockFields {
  days : Z;
  hours : Z;
  minutes : Z;
  secs : Z
}.

Definition clockFields (seconds : Q) : ClockFields :=
  let value := Qabs seconds in
  let days := mathFloor (value / 86400) in
  let remDay := jsRemQ value 86400 in
  let hours := mathFloor (remDay / 3600) in
  let minutes := mathFloor (jsRemQ remDay 3600 / 60) in
  let secs := mathFloor (jsRemQ remDay 60) in
  mkClockFields days hours minutes secs.

Module Format.

Import Stdlib.Strings.String.
Local Open Scope string_scope.

(** The decimal digits of a whole number that is not negative, as the
    template literal prints it (the source switches to exponent notation
    from 1e21 on, which the clock fields of a playback span stay below). *)
Definition digits (z : Z) : string :=
  DecimalString.NilZero.string_of_uint (N.to_uint (Z.to_N z)).

(** [s.padStart(2, '0')]. *)
Definition padStart2 (s : string) : string :=
  match String.length s with
  | O => "00"
  | S O => "0" ++ s
  | _ => s
  end.

(** [formatSeconds(seconds)]. *)
Definition formatSeconds (seconds : Q) : string :=
  let sign := if Qltb seconds 0 then "-" else "+" in
  let f := clockFields seconds in
  if (0 <? days f)%Z then
    sign ++ digits (days f) ++ "d " ++ padStart2 (digits (hours f)) ++ ":"
         ++ padStart2 (digits (minutes f)) ++ ":" ++ padStart2 (digits (secs f))
  else if (0 <? hours f)%Z then
    sign ++ digits (hours f) ++ ":" ++ padStart2 (digits (minutes f)) ++ ":"
         ++ padStart2 (digits (secs f))
  else
    sign ++ digits (minutes f) ++ ":" ++ padStart2 (digits (secs f)).

End Format.

(** Numbers ordered by [<=], for [Array.prototype.sort((a, b) => a - b)]. *)
Module NumberOrder <: Orders.TotalLeBool.
Definition t : Type := Q.
Definition leb (x y : Q) : bool := Qle_bool x y.
Lemma leb_total : forall x y, leb x y = true \/ leb y x = true.
Proof.
  intros x y. unfold leb. rewrite !Qle_bool_iff.
  destruct (Qlt_le_dec x y) as [H | H]; [ left; apply Qlt_le_weak | right ];
    exact H.
Qed.
End NumberOrder.

Module NumberSort := Mergesort.Sort NumberOrder.

(** The [timeline] memo of [PlaybackControls]. *)
Record ControlsTimeline : Type := mkControlsTimeline {
  ct_start : Q;
  ct_end : Q;
  ct_duration : Q;
  hasTimestamps : bool
}.

(** [arr.map(p => p.timestamp).filter(v => v !== undefined)]. *)
Definition collect (arr : list TrajectoryPoint) : list Q :=
  flat_map (fun p => match timestamp p with
                     | Some ts => [ts]
                     | None => []
                     end) arr.

(** The sorted timestamps of both trajectories. *)
Definition allTimestamps (data : SimulationData) : list Q :=
  NumberSort.sort
    (collect (asteroid_trajectory data) ++ collect (earth_trajectory data)).

(** [simulationMode === "full" && simulationData
      && simulationData.asteroid_trajectory.length > 0]. *)
Definition hasFullSimulation (mode : option SimulationMode)
  (data : option SimulationData) : bool :=
  match mode, data with
  | Some full, Some d => (0 <? length (asteroid_trajectory d))%nat
  | _, _ => false
  end.

Definition controlsTimeline (mode : option SimulationMode)
  (data : option SimulationData) : ControlsTimeline :=
  match data with
  | Some d =>
    if hasFullSimulation mode data then
      let all := allTimestamps d in
      if (2 <=? length all)%nat then
        let start := nth 0 all 0 in
        let end_ := nth (length all - 1) all 0 in
        mkControlsTimeline start end_ (Qmax (end_ - start) 1) true
      else
        mkControlsTimeline 0
          (ofNat (length (asteroid_trajectory d)) - 1)
          (Qmax (ofNat (length (asteroid_trajectory d)) - 1) 1)
          false
    else mkControlsTimeline 0 1 1 false
  | None => mkControlsTimeline 0 1 1 false
  end.

(** The store setters [setPlaybackProgress] and [setIsPlaybackPlaying]
    ([store.ts]): they write the store fields only. *)
Definition setPlaybackProgress (p : Q) (s : SceneRefs) : SceneRefs :=
  mkSceneRefs (asteroidAnimationRef s) (earthAnimationRef s)
    (playbackDurationRef s) (playbackProgressRef s) (isPlaybackPlayingRef s)
    (globalStartTsRef s) (globalEndTsRef s) (globalSpanRef s)
    (idleSimulationTimeRef s) p (isPlaybackPlaying s).

Definition setIsPlaybackPlaying (b : bool) (s : SceneRefs) : SceneRefs :=
  mkSceneRefs (asteroidAnimationRef s) (earthAnimationRef s)
    (playbackDurationRef s) (playbackProgressRef s) (isPlaybackPlayingRef s)
    (globalStartTsRef s) (globalEndTsRef s) (globalSpanRef s)
    (idleSimulationTimeRef s) (playbackProgress s) b.

(** The two effects of [Scene] that copy the store's playback fields into
    the refs when they change. *)
Definition syncPlaybackRefs (s : SceneRefs) : SceneRefs :=
  mkSceneRefs (asteroidAnimationRef s) (earthAnimationRef s)
    (playbackDurationRef s) (playbackProgress s) (isPlaybackPlaying s)
    (globalStartTsRef s) (globalEndTsRef s) (globalSpanRef s)
    (idleSimulationTimeRef s) (playbackProgress s) (isPlaybackPlaying s).

(** [const sliderValue = Math.round(playbackProgress * 1000)]. *)
Definition sliderValue (s : SceneRefs) : Z :=
  mathRound (playbackProgress s * 1000).

(** [handleChange(value)]. *)
Definition handleChange (value : Q) (s : SceneRefs) : SceneRefs :=
  let clamped := Qmin (Qmax value 0) 1000 in
  setPlaybackProgress (clamped / 1000) s.

(** [handleRestart()]. *)
Definition handleRestart (s : SceneRefs) : SceneRefs :=
  setIsPlaybackPlaying true (setPlaybackProgress 0 s).

(** [handlePlayPause()]; the closure reads the store values of the
    render. *)
Definition handlePlayPause (s : SceneRefs) : SceneRefs :=
  let s1 :=
    if negb (isPlaybackPlaying s) && Qle_bool 0.999 (playbackProgress s)
    then setPlaybackProgress 0 s
    else s in
  setIsPlaybackPlaying (negb (isPlaybackPlaying s)) s1.

(** ** Helpers for the statements on timelines *)

(** The number of leading entries of a list that are below [c]: in a
    non-decreasing list, the index of the first entry that reaches [c]. *)
Fixpoint lowerIndex (l : list Q) (c : Q) : nat :=
  match l with
  | [] => O
  | a :: l' => if Qltb a c then S (lowerIndex l' c) else O
  end.

(** Samples without timestamps. *)
Definition untimed (points : list TrajectoryPoint) : bool :=
  forallb (fun p => match timestamp p with
                    | Some _ => false
                    | None => true
                    end) points.

(** The refs mirror the store. *)
Definition mirrored (s : SceneRefs) : Prop :=
  playbackProgress s = playbackProgressRef s /\
  isPlaybackPlaying s = isPlaybackPlayingRef s.

(** A clock that is playing at progress 0.25 with the store in step. *)
Definition quarterPlaying : SceneRefs :=
  mkSceneRefs None None ASTEROID_ANIMATION_DURATION_MS 0.25 true
    None None 1 0 0.25 true.

(** A paused clock at the end of the timeline. *)
Definition pausedAtEnd : SceneRefs :=
  mkSceneRefs None None ASTEROID_ANIMATION_DURATION_MS 1 false
    None None 1 0 1 false.

(** Samples whose timestamps 300, 100, 200 are out of order. *)
Definition shuffledSamples : list TrajectoryPoint :=
  [ mkTrajectoryPoint (mkVector3 149600 0 0) (Some 300) None;
    mkTrajectoryPoint (mkVector3 0 149600 0) (Some 100) None;
    mkTrajectoryPoint (mkVector3 (-149600) 0 0) (Some 200) None ].

(** A length function that is 1 on every vector. *)
Definition unitLength (v : Vector3) : Q := 1.

(** Samples that all carry a timestamp. *)
Definition timed (points : list TrajectoryPoint) : bool :=
  forallb (fun p => match timestamp p with
                    | Some _ => true
                    | None => false
                    end) points.

(** The same samples with every timestamp moved by [c]. *)
Definition shiftTimestamps (c : Q) (points : list TrajectoryPoint)
  : list TrajectoryPoint :=
  map (fun p => mkTrajectoryPoint (position p)
                  (match timestamp p with
                   | Some ts => Some (ts + c)
                   | None => None
                   end)
                  (velocity p)) points.

(** ** The same arithmetic in binary64

    The functions above compute with exact numbers.  JavaScript numbers
    are IEEE 754 binary64 values, and [+], [-], [*] and [/] round.  The
    module below repeats the interpolation of [sampleTimeline] and the
    unit normaliser over binary64, to evaluate them where the rounding
    matters. *)

Module Doubles.

Import PrimFloat.
Local Open Scope float_scope.
#[local] Set Warnings "-inexact-float".

Definition isNaN (a : float) : bool := negb (a =? a).

(** [Math.max(a, b)] and [Math.min(a, b)]: [NaN] when an argument is
    [NaN]; of two zeros, [Math.max] gives [+0] unless both are [-0] and
    [Math.min] gives [-0] unless both are [+0]. *)
Definition mathMax (a b : float) : float :=
  if isNaN a || isNaN b then nan
  else if a <? b then b
  else if b <? a then a
  else if a =? 0 then a + b
  else a.

Definition mathMin (a b : float) : float :=
  if isNaN a || isNaN b then nan
  else if a <? b then a
  else if b <? a then b
  else if a =? 0 then - (- a + - b)
  else a.

(** [THREE.Vector3]. *)
Record Vector3 : Type := mkVector3 { dx : float; dy : float; dz : float }.

(** [Vector3.multiplyScalar] and [Vector3.lerpVectors]. *)
Definition multiplyScalar (v : Vector3) (s : float) : Vector3 :=
  mkVector3 (dx v * s) (dy v * s) (dz v * s).

Definition lerpVectors (v1 v2 : Vector3) (alpha : float) : Vector3 :=
  mkVector3 (dx v1 + (dx v2 - dx v1) * alpha)
            (dy v1 + (dy v2 - dy v1) * alpha)
            (dz v1 + (dz v2 - dz v1) * alpha).

(** [export const SCALE_FACTOR = 1 / 149600]. *)
Definition SCALE_FACTOR : float := 1 / 149600.

(** [toScaledVector({x, y, z})]. *)
Definition maxAbs (v : Vector3) : float :=
  mathMax (mathMax (abs (dx v)) (abs (dy v))) (abs (dz v)).

Definition assumeMeters (v : Vector3) : bool := 500000000 <? maxAbs v.

Definition unitFactor (v : Vector3) : float :=
  if assumeMeters v then 1 / 1000 else 1.

Definition toScaledVector (v : Vector3) : Vector3 :=
  let factor := unitFactor v in
  multiplyScalar
    (mkVector3 (dx v * factor) (dy v * factor) (dz v * factor))
    SCALE_FACTOR.

(** [interface TimelinePoint] and [interface TimelineSample]. *)
Record TimelinePoint : Type := mkTimelinePoint {
  tl_t : float;
  tl_position : Vector3;
  tl_timestamp : float
}.

Record TimelineSample : Type := mkTimelineSample {
  sample_position : Vector3;
  sample_timestamp : float
}.

(** [Math.min(Math.max(x, 0), 1)]. *)
Definition clamp01 (x : float) : float := mathMin (mathMax x 0) 1.

(** The binary search of [sampleTimeline]. *)
Fixpoint searchLoop (fuel : nat) (tl : list TimelinePoint) (clamped : float)
  (lo hi : nat) : run nat :=
  if (lo <? hi)%nat then
    match fuel with
    | O => OutOfFuel
    | S fuel' =>
      let mid := ((lo + hi) / 2)%nat in
      match nth_error tl mid with
      | None => Throws
      | Some p =>
        if tl_t p <? clamped
        then searchLoop fuel' tl clamped (mid + 1)%nat hi
        else searchLoop fuel' tl clamped lo mid
      end
    end
  else Done lo.

(** [const span = b.t - a.t || 1]: [0], [-0] and [NaN] are falsy. *)
Definition segmentSpan (a b : TimelinePoint) : float :=
  let d := tl_t b - tl_t a in
  if (d =? 0) || isNaN d then 1 else d.

(** [const localT = span > 0 ? (clamped - a.t) / span : 0]. *)
Definition localT (a b : TimelinePoint) (clamped : float) : float :=
  let span := segmentSpan a b in
  if 0 <? span then (clamped - tl_t a) / span else 0.

Definition interpolate (a b : TimelinePoint) (clamped : float)
  : TimelineSample :=
  let lt := localT a b clamped in
  mkTimelineSample
    (lerpVectors (tl_position a) (tl_position b) lt)
    (tl_timestamp a + (tl_timestamp b - tl_timestamp a) * lt).

(** [sampleTimeline(timeline, progress, target)]. *)
Definition sampleTimeline (tl : list TimelinePoint) (progress : float)
  : run (option TimelineSample) :=
  match tl with
  | [] => Done None
  | _ :: _ =>
    let clamped := clamp01 progress in
    match searchLoop (length tl) tl clamped 0 (length tl - 1) with
    | OutOfFuel => OutOfFuel
    | Throws => Throws
    | Done upperIndex =>
      let lowerIndex := Nat.max 0 (upperIndex - 1) in
      match nth_error tl lowerIndex, nth_error tl upperIndex with
      | Some a, Some b => Done (Some (interpolate a b clamped))
      | _, _ => Done None
      end
    end
  end.

(** A timeline of two entries, at [x = -3] and [x = -0.7], with the
    timestamps 0.3 and 0.9. *)
Definition twoEntries : list TimelinePoint :=
  [ mkTimelinePoint 0 (mkVector3 (-3) 0 0) 0.3;
    mkTimelinePoint 1 (mkVector3 (-0.7) 0 0) 0.9 ].

(** One astronomical unit in metres, on the [x] axis. *)
Definition oneAUInMetres : Vector3 := mkVector3 149597870700 0 0.

End Doubles.

(** ** The frame callback after the playback block *)

(** [const IDLE_TIME_ACCELERATION = 24 * 3600]. *)
Definition IDLE_TIME_ACCELERATION : Q := 24 * 3600.

(** The branch of [animate] that follows the playback block, restricted to
    the clock: with a timeline loaded the meshes are placed at the current
    progress; otherwise, when the Earth mesh exists and the idle time is
    not negative, [idleSimulationTimeRef.current += deltaMs / 1000 *
    IDLE_TIME_ACCELERATION].  [earthMesh] is [earthMeshRef.current] being
    set. *)
Definition idleBlock (earthMesh : bool) (deltaMs : Q) (s : SceneRefs)
  : SceneRefs :=
  match earthAnimationRef s, asteroidAnimationRef s with
  | None, None =>
    if earthMesh && Qle_bool 0 (idleSimulationTimeRef s)
    then writeIdleTime
           (idleSimulationTimeRef s
            + deltaMs / 1000 * IDLE_TIME_ACCELERATION) s
    else s
  | _, _ => s
  end.

(** One frame: the playback block, then the idle block. *)
Definition animateFrame (earthMesh : bool) (deltaMs : Q) (s : SceneRefs)
  : SceneRefs :=
  idleBlock earthMesh deltaMs (animate deltaMs s).

(** * Properties *)

(** ** Basic facts on numbers and vectors *)

Lemma Qgtb_lt (x y : Q) : Qgtb x y = true <-> y < x.
Proof.
  unfold Qgtb. rewrite negb_true_iff.
  split; intro H.
  - apply Qnot_le_lt. intro Hle. apply Qle_bool_iff in Hle. congruence.
  - destruct (Qle_bool x y) eqn:E; [ | reflexivity ].
    apply Qle_bool_iff in E. exfalso. apply (Qlt_not_le _ _ H E).
Qed.

Lemma Qgtb_false_le (x y : Q) : Qgtb x y = false <-> x <= y.
Proof.
  unfold Qgtb. rewrite negb_false_iff. apply Qle_bool_iff.
Qed.

Lemma veq_refl (a : Vector3) : a =v= a.
Proof. repeat split; reflexivity. Qed.

Lemma veq_sym (a b : Vector3) : a =v= b -> b =v= a.
Proof. intros (H1 & H2 & H3). repeat split; symmetry; assumption. Qed.

Lemma veq_trans (a b c : Vector3) : a =v= b -> b =v= c -> a =v= c.
Proof.
  intros (H1 & H2 & H3) (K1 & K2 & K3).
  repeat split; etransitivity; eassumption.
Qed.

Lemma assumeMeters_spec (v : Vector3) :
  assumeMeters v = true <-> METERS_THRESHOLD < maxAbs v.
Proof. unfold assumeMeters. apply Qgtb_lt. Qed.

Lemma toScaledVector_meters (v : Vector3) :
  assumeMeters v = true -> toScaledVector v =v= metersPath v.
Proof.
  intro H. unfold toScaledVector, unitFactor, metersPath, multiplyScalar, veq.
  rewrite H. cbn [vx vy vz].
  repeat split; field.
Qed.

Lemma toScaledVector_kilometers (v : Vector3) :
  assumeMeters v = false -> toScaledVector v =v= kilometersPath v.
Proof.
  intro H.
  unfold toScaledVector, unitFactor, kilometersPath, multiplyScalar, veq.
  rewrite H. cbn [vx vy vz].
  repeat split; ring.
Qed.

(** ** Unit normaliser: theorems *)

Lemma maxAbs_exceeds (v : Vector3) (c : Q) :
  c < maxAbs v
  <-> c < Qabs (vx v) \/ c < Qabs (vy v) \/ c < Qabs (vz v).
Proof.
  unfold maxAbs. rewrite !Q.max_lt_iff. tauto.
Qed.

(** C8, amended.  For every raw vector, [toScaledVector] takes the meters
    path exactly when one of [|x|], [|y|], [|z|] is above [5e8], that is
    when [max(|x|,|y|,|z|) > 5e8].  On that path every component is
    multiplied by the factor [1 / 1000] and then by the display scale
    factor; otherwise it is multiplied by the factor 1 and the display
    scale factor.  The vector [(6e8, 0, 0)] takes the meters path, the
    vector [(0, -4e8, 0)] the kilometers path, and so does [(5e8, 0, 0)],
    which is at the threshold and not above it. *)
Theorem toScaledVector_classifies_by_threshold :
  forall v : Vector3,
    let above :=
      500000000 < Qabs (vx v) \/ 500000000 < Qabs (vy v)
      \/ 500000000 < Qabs (vz v) in
    (assumeMeters v = true <-> above) /\
    (above ->
     toScaledVector v
     = mkVector3 (vx v * (1 / 1000) * SCALE_FACTOR)
                 (vy v * (1 / 1000) * SCALE_FACTOR)
                 (vz v * (1 / 1000) * SCALE_FACTOR)) /\
    (~ above ->
     toScaledVector v
     = mkVector3 (vx v * 1 * SCALE_FACTOR)
                 (vy v * 1 * SCALE_FACTOR)
                 (vz v * 1 * SCALE_FACTOR)) /\
    toScaledVector (mkVector3 600000000 0 0)
    =v= mkVector3 (600000 * SCALE_FACTOR) 0 0 /\
    toScaledVector (mkVector3 0 (-400000000) 0)
    =v= mkVector3 0 (-400000000 * SCALE_FACTOR) 0 /\
    toScaledVector (mkVector3 500000000 0 0)
    =v= mkVector3 (500000000 * SCALE_FACTOR) 0 0.
Proof.
  intros v above.
  assert (Hspec : assumeMeters v = true <-> above).
  { unfold above. rewrite assumeMeters_spec. apply maxAbs_exceeds. }
  split; [ exact Hspec | ].
  split.
  { intro H. apply Hspec in H.
    unfold toScaledVector, unitFactor, multiplyScalar. rewrite H.
    reflexivity. }
  split.
  { intro H.
    assert (E : assumeMeters v = false).
    { destruct (assumeMeters v) eqn:E; [ | reflexivity ].
      exfalso. apply H. apply Hspec. reflexivity. }
    unfold toScaledVector, unitFactor, multiplyScalar. rewrite E.
    reflexivity. }
  repeat split; vm_compute; reflexivity.
Qed.


(** ** Lists of numbers *)

Lemma nonDecreasing_cons (a b : Q) (l : list Q) :
  nonDecreasing (a :: b :: l) = true <->
  a <= b /\ nonDecreasing (b :: l) = true.
Proof.
  change (nonDecreasing (a :: b :: l))
    with (Qle_bool a b && nonDecreasing (b :: l)).
  rewrite andb_true_iff, Qle_bool_iff. reflexivity.
Qed.

Lemma nonDecreasing_adjacent (l : list Q) :
  nonDecreasing l = true <->
  forall i, (S i < length l)%nat -> nth i l 0 <= nth (S i) l 0.
Proof.
  induction l as [ | a l IH ].
  - split; [ intros _ i Hi; simpl in Hi; lia | reflexivity ].
  - destruct l as [ | b l ].
    + split; [ intros _ i Hi; simpl in Hi; lia | reflexivity ].
    + rewrite nonDecreasing_cons, IH. split.
      * intros [Hab Hrest] [ | i ] Hi; [ exact Hab | ].
        apply (Hrest i). simpl in Hi |- *. lia.
      * intro H. split.
        -- apply (H 0%nat). simpl. lia.
        -- intros i Hi. apply (H (S i)). simpl in Hi |- *. lia.
Qed.

Lemma nonDecreasing_nth_le (l : list Q) :
  nonDecreasing l = true ->
  forall i j, (i <= j)%nat -> (j < length l)%nat -> nth i l 0 <= nth j l 0.
Proof.
  intros H i j Hij. induction Hij as [ | j Hij IH ]; intro Hj.
  - apply Qle_refl.
  - apply Qle_trans with (nth j l 0).
    + apply IH. lia.
    + apply (proj1 (nonDecreasing_adjacent l) H). exact Hj.
Qed.

Lemma allEqual_false_differ (l : list Q) :
  allEqual l = false ->
  exists i, (i < length l)%nat /\ ~ nth i l 0 == nth 0 l 0.
Proof.
  destruct l as [ | a l ]; [ discriminate | ].
  simpl. induction l as [ | b l IH ]; [ discriminate | ].
  simpl. destruct (Qeq_bool a b) eqn:E; simpl.
  - intro H. destruct (IH H) as (i & Hi & Hne).
    destruct i as [ | i ].
    + exfalso. apply Hne. reflexivity.
    + exists (S (S i)). split; [ simpl in Hi |- *; lia | exact Hne ].
  - intros _. exists 1%nat. split; [ lia | ].
    simpl. intro Hba. apply Qeq_bool_neq in E. apply E. symmetry. exact Hba.
Qed.

Lemma mapi_from_length {A B : Type} (f : nat -> A -> B) (l : list A) :
  forall k, length (mapi_from f k l) = length l.
Proof.
  induction l as [ | a l IH ]; intro k; simpl; [ | rewrite IH ]; reflexivity.
Qed.

(** A projection of [mapi] that only looks at the index is a [map] over the
    indices. *)
Lemma map_mapi_from_index {A B C : Type} (f : nat -> A -> B) (g : B -> C)
  (h : nat -> C) (l : list A) :
  (forall i a, g (f i a) = h i) ->
  forall k, map g (mapi_from f k l) = map h (seq k (length l)).
Proof.
  intro Hgf. induction l as [ | a l IH ]; intro k; simpl.
  - reflexivity.
  - rewrite Hgf, IH. reflexivity.
Qed.

Lemma map_nth_seq_from (l : list Q) :
  forall k prefix,
    length prefix = k ->
    map (fun i => nth i (prefix ++ l) 0) (seq k (length l)) = l.
Proof.
  induction l as [ | a l IH ]; intros k prefix Hk; simpl.
  - reflexivity.
  - f_equal.
    + rewrite app_nth2 by lia. rewrite Hk, Nat.sub_diag. reflexivity.
    + specialize (IH (S k) (prefix ++ [a])).
      rewrite <- app_assoc in IH. simpl in IH. apply IH.
      rewrite length_app. simpl. lia.
Qed.

Lemma map_nth_seq (l : list Q) :
  map (fun i => nth i l 0) (seq 0 (length l)) = l.
Proof. apply (map_nth_seq_from l 0 []). reflexivity. Qed.

Lemma nth_map_seq (h : nat -> Q) (n i : nat) :
  (i < n)%nat -> nth i (map h (seq 0 n)) 0 = h i.
Proof.
  intro Hi.
  rewrite (nth_indep _ 0 (h 0%nat)) by (rewrite length_map, length_seq; exact Hi).
  rewrite (map_nth h (seq 0 n) 0%nat i). rewrite seq_nth by exact Hi.
  reflexivity.
Qed.

(** ** Clamping *)

Lemma clamp01_le_1 (x : Q) : clamp01 x <= 1.
Proof. unfold clamp01. apply Q.le_min_r. Qed.

Lemma clamp01_ge_0 (x : Q) : 0 <= clamp01 x.
Proof.
  unfold clamp01. apply Q.min_glb; [ apply Q.le_max_r | discriminate ].
Qed.

Lemma clamp01_monotone (x y : Q) : x <= y -> clamp01 x <= clamp01 y.
Proof.
  intro H. unfold clamp01.
  apply Q.min_le_compat_r. apply Q.max_le_compat_r. exact H.
Qed.

Create HintDb clamp discriminated.
#[local] Hint Resolve clamp01_le_1 clamp01_ge_0 clamp01_monotone : clamp.

Lemma clamp01_inside (x : Q) : 0 <= x -> x <= 1 -> clamp01 x == x.
Proof.
  intros H0 H1. unfold clamp01.
  rewrite (Q.max_l x 0 H0). apply Q.min_l. exact H1.
Qed.

Lemma clamp01_zero (x : Q) : x == 0 -> clamp01 x == 0.
Proof.
  intro H. rewrite (clamp01_inside x); [ exact H | | ]; rewrite H; discriminate.
Qed.

Lemma clamp01_one (x : Q) : x == 1 -> clamp01 x == 1.
Proof.
  intro H. rewrite (clamp01_inside x); [ exact H | | ]; rewrite H; discriminate.
Qed.

Lemma Qdiv_le_compat_r (x y s : Q) : 0 < s -> x <= y -> x / s <= y / s.
Proof.
  intros Hs Hxy. unfold Qdiv. apply Qmult_le_compat_r; [ exact Hxy | ].
  apply Qlt_le_weak. apply Qinv_lt_0_compat. exact Hs.
Qed.

(** ** Timeline builder: structure of the output *)

Lemma effectiveTimestamps_length (points : list TrajectoryPoint) :
  length (effectiveTimestamps points) = length points.
Proof. apply mapi_from_length. Qed.

Lemma buildTimeline_length (points : list TrajectoryPoint) :
  length (buildTimeline points) = length points.
Proof.
  destruct points as [ | p points ]; [ reflexivity | ].
  unfold buildTimeline, mapi. apply mapi_from_length.
Qed.

Lemma buildTimeline_t (points : list TrajectoryPoint) :
  map tl_t (buildTimeline points)
  = map (builtT points) (seq 0 (length points)).
Proof.
  destruct points as [ | p points ]; [ reflexivity | ].
  unfold buildTimeline, mapi.
  apply map_mapi_from_index. intros i a. reflexivity.
Qed.

Lemma buildTimeline_timestamps (points : list TrajectoryPoint) :
  map tl_timestamp (buildTimeline points) = effectiveTimestamps points.
Proof.
  destruct points as [ | p points ]; [ reflexivity | ].
  unfold buildTimeline, mapi.
  rewrite (map_mapi_from_index _ tl_timestamp
             (fun i => nth i (effectiveTimestamps (p :: points)) 0))
    by (intros i a; reflexivity).
  rewrite <- effectiveTimestamps_length. apply map_nth_seq.
Qed.

Lemma buildTimeline_nth_t (points : list TrajectoryPoint) (i : nat) :
  (i < length points)%nat ->
  nth i (map tl_t (buildTimeline points)) 0 = builtT points i.
Proof.
  intro Hi. rewrite buildTimeline_t. apply nth_map_seq. exact Hi.
Qed.

(** ** Timeline builder: the span is positive on ordered input *)

Lemma ofNat_gt_1 (n : nat) : (1 < n)%nat -> 0 < ofNat n - 1.
Proof.
  intro Hn. unfold ofNat.
  assert (H : inject_Z 2 <= inject_Z (Z.of_nat n))
    by (rewrite <- Zle_Qle; lia).
  change (inject_Z 2) with 2 in H. lra.
Qed.

Lemma timelineSpan_positive (first last : Q) (count : nat) :
  first <= last -> 0 < timelineSpan first last count.
Proof.
  intro Hle. unfold timelineSpan.
  destruct (Qeq_bool last first) eqn:E; simpl.
  - destruct (1 <? count)%nat eqn:C.
    + apply ofNat_gt_1. apply Nat.ltb_lt. exact C.
    + reflexivity.
  - apply Qeq_bool_neq in E.
    destruct (Qlt_le_dec first last) as [Hlt | Hge]; [ lra | ].
    exfalso. apply E. apply Qle_antisym; assumption.
Qed.

Lemma timelineSpan_distinct (first last : Q) (count : nat) :
  ~ last == first -> timelineSpan first last count = last - first.
Proof.
  intro Hne. unfold timelineSpan.
  destruct (Qeq_bool last first) eqn:E; [ | reflexivity ].
  apply Qeq_bool_iff in E. contradiction.
Qed.

Lemma normalizedTime_positive_span (timestamps : list Q) (first span : Q)
  (index : nat) :
  0 < span ->
  normalizedTime timestamps first span index
  = (nth index timestamps 0 - first) / span.
Proof.
  intro Hs. unfold normalizedTime.
  destruct (Qeq_bool span 0) eqn:E; [ | reflexivity ].
  apply Qeq_bool_iff in E. lra.
Qed.

Lemma builtT_last (points : list TrajectoryPoint) :
  builtT points (length points - 1) = 1.
Proof. unfold builtT. rewrite Nat.eqb_refl. reflexivity. Qed.

Lemma normalizedTime_first (timestamps : list Q) (span : Q) :
  normalizedTime timestamps (nth 0 timestamps 0) span 0 == 0.
Proof.
  unfold normalizedTime. destruct (Qeq_bool span 0); simpl.
  - reflexivity.
  - unfold Qdiv.
    setoid_replace (nth 0 timestamps 0 - nth 0 timestamps 0) with 0 by ring.
    ring.
Qed.

Lemma builtT_first (points : list TrajectoryPoint) :
  (2 <= length points)%nat -> builtT points 0 == 0.
Proof.
  intro Hn. unfold builtT.
  destruct (Nat.eqb_spec 0 (length points - 1)) as [E | _]; [ lia | ].
  apply clamp01_zero. apply normalizedTime_first.
Qed.

Lemma builtT_single (points : list TrajectoryPoint) :
  length points = 1%nat -> builtT points 0 = 1.
Proof. intro Hn. unfold builtT. rewrite Hn. reflexivity. Qed.

Lemma builtT_range (points : list TrajectoryPoint) (i : nat) :
  0 <= builtT points i /\ builtT points i <= 1.
Proof.
  unfold builtT. destruct (i =? length points - 1)%nat.
  - split; discriminate.
  - split; auto with clamp.
Qed.

Lemma ordered_span_positive (points : list TrajectoryPoint) :
  nonDecreasing (effectiveTimestamps points) = true ->
  points <> [] ->
  let timestamps := effectiveTimestamps points in
  0 < timelineSpan (nth 0 timestamps 0)
        (nth (length timestamps - 1) timestamps 0) (length points).
Proof.
  intros Hord Hne timestamps. apply timelineSpan_positive.
  assert (Hpos : (0 < length points)%nat)
    by (destruct points; [ contradiction | simpl; lia ]).
  apply nonDecreasing_nth_le; [ exact Hord | lia | ].
  unfold timestamps. rewrite effectiveTimestamps_length. lia.
Qed.

Lemma ordered_builtT_adjacent (points : list TrajectoryPoint) (i : nat) :
  nonDecreasing (effectiveTimestamps points) = true ->
  (S i < length points)%nat -> builtT points i <= builtT points (S i).
Proof.
  intros Hord Hi.
  assert (Hne : points <> [])
    by (intro E; rewrite E in Hi; simpl in Hi; lia).
  assert (Hs := ordered_span_positive points Hord Hne). cbv zeta in Hs.
  unfold builtT.
  destruct (Nat.eqb_spec i (length points - 1)) as [E | _]; [ lia | ].
  destruct (Nat.eqb_spec (S i) (length points - 1)) as [_ | _];
    [ auto with clamp | ].
  - apply clamp01_monotone.
    rewrite !normalizedTime_positive_span by exact Hs.
    apply Qdiv_le_compat_r; [ exact Hs | ].
    assert (H : nth i (effectiveTimestamps points) 0
                <= nth (S i) (effectiveTimestamps points) 0).
    { apply (proj1 (nonDecreasing_adjacent _) Hord).
      rewrite effectiveTimestamps_length. exact Hi. }
    lra.
Qed.

Lemma ordered_buildTimeline_nonDecreasing (points : list TrajectoryPoint) :
  nonDecreasing (effectiveTimestamps points) = true ->
  nonDecreasing (map tl_t (buildTimeline points)) = true.
Proof.
  intro Hord. apply nonDecreasing_adjacent. intros i Hi.
  rewrite length_map, buildTimeline_length in Hi.
  rewrite !buildTimeline_nth_t by lia.
  apply ordered_builtT_adjacent; assumption.
Qed.

(** The facts on the timeline of an ordered, non-empty input. *)
Lemma buildTimeline_ordered_facts (points : list TrajectoryPoint) :
  points <> [] ->
  nonDecreasing (effectiveTimestamps points) = true ->
  length (buildTimeline points) = length points /\
  nonDecreasing (map tl_t (buildTimeline points)) = true /\
  (forall i, (i < length (buildTimeline points))%nat ->
             0 <= nth i (map tl_t (buildTimeline points)) 0
             /\ nth i (map tl_t (buildTimeline points)) 0 <= 1) /\
  nth (length (buildTimeline points) - 1)
      (map tl_t (buildTimeline points)) 0 = 1.
Proof.
  intros Hne Hord.
  assert (Hlen := buildTimeline_length points).
  assert (Hpos : (0 < length points)%nat)
    by (destruct points; [ contradiction | simpl; lia ]).
  split; [ exact Hlen | ].
  split; [ apply ordered_buildTimeline_nonDecreasing; exact Hord | ].
  split.
  - intros i Hi. rewrite buildTimeline_nth_t by lia. apply builtT_range.
  - rewrite Hlen. rewrite buildTimeline_nth_t by lia. apply builtT_last.
Qed.

(** ** Timeline builder: theorems *)

(** C2, counterexample.  A single sample is a non-empty ordered input, and
    the first [t] of its timeline is 1, not 0. *)
Lemma buildTimeline_single_sample_first_not_zero :
  singleSample <> [] /\
  nonDecreasing (effectiveTimestamps singleSample) = true /\
  firstT (buildTimeline singleSample) == 1 /\
  ~ timelineInvariant (buildTimeline singleSample).
Proof.
  split; [ discriminate | ].
  split; [ reflexivity | ].
  split; [ reflexivity | ].
  intros (_ & H0 & _). vm_compute in H0. discriminate.
Qed.

(** C2, amended.  For every non-empty input whose effective timestamps are
    non-decreasing, the [t] values of the timeline are non-decreasing and
    lie in [0, 1], the last [t] is exactly 1, and the first [t] is 0 when
    there are at least two samples; the [t] of a single sample is 1. *)
Theorem buildTimeline_ordered_input :
  forall points : list TrajectoryPoint,
    points <> [] ->
    nonDecreasing (effectiveTimestamps points) = true ->
    let tl := buildTimeline points in
    length tl = length points /\
    nonDecreasing (map tl_t tl) = true /\
    (forall i, (i < length tl)%nat ->
               0 <= nth i (map tl_t tl) 0 /\ nth i (map tl_t tl) 0 <= 1) /\
    lastT tl = 1 /\
    ((2 <= length points)%nat -> firstT tl == 0) /\
    (length points = 1%nat -> firstT tl = 1).
Proof.
  intros points Hne Hord tl.
  destruct (buildTimeline_ordered_facts points Hne Hord)
    as (Hlen & Hmono & Hrange & Hlast).
  assert (Hpos : (0 < length points)%nat)
    by (destruct points; [ contradiction | simpl; lia ]).
  split; [ exact Hlen | ].
  split; [ exact Hmono | ].
  split; [ exact Hrange | ].
  split; [ exact Hlast | ].
  split.
  - intro Hn. unfold firstT, tl. rewrite buildTimeline_nth_t by lia.
    apply builtT_first. exact Hn.
  - intro Hn. unfold firstT, tl. rewrite buildTimeline_nth_t by lia.
    apply builtT_single. exact Hn.
Qed.

Lemma buildTimeline_ordered_input_witness :
  untimedSamples <> [] /\
  nonDecreasing (effectiveTimestamps untimedSamples) = true /\
  firstT (buildTimeline untimedSamples) == 0 /\
  lastT (buildTimeline untimedSamples) = 1.
Proof.
  split; [ discriminate | ].
  split; [ reflexivity | ].
  assert (Hne : untimedSamples <> []) by discriminate.
  assert (Hn : (2 <= length untimedSamples)%nat) by (simpl; lia).
  destruct (buildTimeline_ordered_input untimedSamples Hne eq_refl)
    as (_ & _ & _ & Hlast & Hfirst & _).
  split; [ exact (Hfirst Hn) | exact Hlast ].
Defined.

(** C4.  For every input of at least two samples whose effective timestamps
    are non-decreasing and not all equal, every [t] of the timeline is
    [clamp((ts_i - first) / (last - first), 0, 1)], the [t] values are
    non-decreasing and lie in [0, 1], the first is 0 and the last is
    exactly 1. *)
Theorem buildTimeline_distinct_timestamps :
  forall points : list TrajectoryPoint,
    (2 <= length points)%nat ->
    nonDecreasing (effectiveTimestamps points) = true ->
    allEqual (effectiveTimestamps points) = false ->
    let ts := effectiveTimestamps points in
    let first := nth 0 ts 0 in
    let last := nth (length ts - 1) ts 0 in
    let tl := buildTimeline points in
    length tl = length points /\
    (forall i, (i < length points)%nat ->
               nth i (map tl_t tl) 0 == clamp01 ((nth i ts 0 - first) / (last - first))) /\
    nonDecreasing (map tl_t tl) = true /\
    (forall i, (i < length points)%nat ->
               0 <= nth i (map tl_t tl) 0 /\ nth i (map tl_t tl) 0 <= 1) /\
    firstT tl == 0 /\
    lastT tl = 1.
Proof.
  intros points Hn Hord Hdiff ts first last tl.
  assert (Hne : points <> [])
    by (intro E; rewrite E in Hn; simpl in Hn; lia).
  assert (Hlts : length ts = length points)
    by apply effectiveTimestamps_length.
  destruct (buildTimeline_ordered_facts points Hne Hord)
    as (Hlen & Hmono & Hrange & Hlast).
  fold tl in Hlen, Hmono, Hrange, Hlast.
  assert (Hfirst : firstT tl == 0).
  { unfold firstT, tl. rewrite buildTimeline_nth_t by lia.
    apply builtT_first. exact Hn. }
  assert (Hlt : first < last).
  { destruct (allEqual_false_differ ts Hdiff) as (i & Hi & Hd).
    fold first in Hd.
    assert (H1 : first <= nth i ts 0)
      by (apply nonDecreasing_nth_le; [ exact Hord | lia | exact Hi ]).
    assert (H2 : nth i ts 0 <= last)
      by (apply nonDecreasing_nth_le; [ exact Hord | lia | lia ]).
    destruct (Qlt_le_dec first last) as [Hl | Hg]; [ exact Hl | ].
    exfalso. apply Hd. apply Qle_antisym; [ | exact H1 ].
    apply Qle_trans with last; assumption. }
  assert (Hspan : timelineSpan first last (length points) = last - first).
  { apply timelineSpan_distinct. intro E. rewrite E in Hlt.
    apply (Qlt_irrefl _ Hlt). }
  split; [ exact Hlen | ].
  split.
  { intros i Hi. unfold tl. rewrite buildTimeline_nth_t by exact Hi.
    unfold builtT. fold ts. fold first. fold last. rewrite Hspan.
    rewrite normalizedTime_positive_span by lra.
    destruct (Nat.eqb_spec i (length points - 1)) as [E | _];
      [ | reflexivity ].
    symmetry. apply clamp01_one.
    subst i. rewrite <- Hlts. fold last. field. lra. }
  split; [ exact Hmono | ].
  split; [ intros i Hi; apply Hrange; lia | ].
  split; [ exact Hfirst | exact Hlast ].
Qed.

Lemma buildTimeline_distinct_timestamps_witness :
  (2 <= length asteroidSamples)%nat /\
  nonDecreasing (effectiveTimestamps asteroidSamples) = true /\
  allEqual (effectiveTimestamps asteroidSamples) = false /\
  firstT (buildTimeline asteroidSamples) == 0 /\
  lastT (buildTimeline asteroidSamples) = 1.
Proof.
  split; [ simpl; lia | ].
  split; [ reflexivity | ].
  split; [ reflexivity | ].
  assert (Hn : (2 <= length asteroidSamples)%nat) by (simpl; lia).
  destruct (buildTimeline_distinct_timestamps asteroidSamples Hn eq_refl eq_refl)
    as (_ & _ & _ & _ & Hfirst & Hlast).
  split; [ exact Hfirst | exact Hlast ].
Defined.

(** ** Timeline sampler: the binary search *)

Lemma Qltb_lt (x y : Q) : Qltb x y = true <-> x < y.
Proof. apply (Qgtb_lt y x). Qed.

Lemma Qltb_false_le (x y : Q) : Qltb x y = false <-> y <= x.
Proof. apply (Qgtb_false_le y x). Qed.

Lemma nth_error_t (tl : list TimelinePoint) (i : nat) :
  (i < length tl)%nat ->
  exists p, nth_error tl i = Some p /\ tl_t p = nth i (map tl_t tl) 0.
Proof.
  revert i. induction tl as [ | a tl IH ]; intros i Hi; simpl in Hi.
  - lia.
  - destruct i as [ | i ].
    + exists a. split; reflexivity.
    + destruct (IH i) as (p & Hp & Ht); [ lia | ].
      exists p. split; assumption.
Qed.

Lemma midpoint_bounds (lo hi : nat) :
  (lo < hi)%nat -> (lo <= (lo + hi) / 2)%nat /\ ((lo + hi) / 2 < hi)%nat.
Proof.
  intro H. split.
  - apply Nat.div_le_lower_bound; lia.
  - apply Nat.Div0.div_lt_upper_bound; lia.
Qed.

(** The loop finds the boundary [k] of a timeline whose entries before [k]
    are below the query and whose entries from [k] on are not. *)
Lemma searchLoop_boundary (tl : list TimelinePoint) (clamped : Q) (k : nat) :
  (forall i, (i < k)%nat -> nth i (map tl_t tl) 0 < clamped) ->
  forall fuel lo hi,
    (hi < length tl)%nat ->
    (lo <= k)%nat -> (k <= hi)%nat ->
    (forall i, (k <= i)%nat -> (i < hi)%nat ->
               clamped <= nth i (map tl_t tl) 0) ->
    (hi - lo <= fuel)%nat ->
    searchLoop fuel tl clamped lo hi = Done k.
Proof.
  intros Hbelow fuel.
  induction fuel as [ | fuel IH ]; intros lo hi Hhi Hlo Hk Habove Hfuel.
  - cbn [searchLoop]. destruct (Nat.ltb_spec lo hi) as [Hlt | Hge]; [ lia | ].
    f_equal. lia.
  - cbn [searchLoop]. destruct (Nat.ltb_spec lo hi) as [Hlt | Hge];
      [ | f_equal; lia ].
    destruct (midpoint_bounds lo hi Hlt) as [Hm1 Hm2].
    destruct (nth_error_t tl ((lo + hi) / 2)) as (p & Hp & Ht); [ lia | ].
    rewrite Hp.
    destruct (Qltb (tl_t p) clamped) eqn:C.
    + apply Qltb_lt in C. rewrite Ht in C.
      assert (Hmid : ((lo + hi) / 2 < k)%nat).
      { destruct (Nat.lt_ge_cases ((lo + hi) / 2) k) as [H | H];
          [ exact H | ].
        exfalso. apply (Qlt_not_le _ _ C). apply Habove; assumption. }
      apply IH; try assumption; lia.
    + apply Qltb_false_le in C. rewrite Ht in C.
      assert (Hmid : (k <= (lo + hi) / 2)%nat).
      { destruct (Nat.lt_ge_cases ((lo + hi) / 2) k) as [H | H];
          [ | exact H ].
        exfalso. apply (Qle_not_lt _ _ C). apply Hbelow. exact H. }
      apply IH; try assumption; try lia.
      intros i Hi1 Hi2. apply Habove; lia.
Qed.

(** The loop never reads outside the timeline and ends within its fuel. *)
Lemma searchLoop_total (tl : list TimelinePoint) (clamped : Q) :
  forall fuel lo hi,
    (hi < length tl)%nat -> (lo <= hi)%nat -> (hi - lo <= fuel)%nat ->
    exists r, searchLoop fuel tl clamped lo hi = Done r
              /\ (lo <= r)%nat /\ (r <= hi)%nat.
Proof.
  induction fuel as [ | fuel IH ]; intros lo hi Hhi Hlo Hfuel.
  - cbn [searchLoop]. destruct (Nat.ltb_spec lo hi) as [Hlt | Hge]; [ lia | ].
    exists lo. repeat split; lia.
  - cbn [searchLoop]. destruct (Nat.ltb_spec lo hi) as [Hlt | Hge];
      [ | exists lo; repeat split; lia ].
    destruct (midpoint_bounds lo hi Hlt) as [Hm1 Hm2].
    destruct (nth_error_t tl ((lo + hi) / 2)) as (p & Hp & _); [ lia | ].
    rewrite Hp.
    destruct (Qltb (tl_t p) clamped).
    + destruct (IH ((lo + hi) / 2 + 1)%nat hi) as (r & Hr & H1 & H2);
        try lia.
      exists r. repeat split; [ exact Hr | lia | lia ].
    + destruct (IH lo ((lo + hi) / 2)%nat) as (r & Hr & H1 & H2); try lia.
      exists r. repeat split; [ exact Hr | lia | lia ].
Qed.

(** Sampling a non-empty timeline always returns a sample. *)
Lemma sampleTimeline_returns (tl : list TimelinePoint) (progress : Q) :
  tl <> [] -> exists s, sampleTimeline tl progress = Done (Some s).
Proof.
  intro Hne. destruct tl as [ | p0 tl' ]; [ contradiction | ].
  unfold sampleTimeline.
  destruct (searchLoop_total (p0 :: tl') (clamp01 progress)
              (length (p0 :: tl')) 0 (length (p0 :: tl') - 1))
    as (r & Hr & _ & Hr2); try (simpl; lia).
  rewrite Hr.
  destruct (nth_error_t (p0 :: tl') (Nat.max 0 (r - 1))) as (a & Ha & _);
    [ simpl in *; lia | ].
  destruct (nth_error_t (p0 :: tl') r) as (b & Hb & _);
    [ simpl in *; lia | ].
  rewrite Ha, Hb. eexists. reflexivity.
Qed.

Lemma lerpVectors_same (a : Vector3) (alpha : Q) : lerpVectors a a alpha =v= a.
Proof. unfold lerpVectors, veq. cbn [vx vy vz]. repeat split; ring. Qed.

(** A timeline of a single entry is sampled at that entry, whatever the
    progress. *)
Lemma sampleTimeline_single (p : TimelinePoint) (progress : Q) :
  exists s, sampleTimeline [p] progress = Done (Some s)
            /\ sample_position s =v= tl_position p
            /\ sample_timestamp s == tl_timestamp p.
Proof.
  eexists. split; [ reflexivity | ].
  unfold interpolate. cbn [sample_position sample_timestamp].
  split; [ apply lerpVectors_same | ring ].
Qed.

Lemma sampleTimeline_empty (progress : Q) :
  sampleTimeline [] progress = Done None.
Proof. reflexivity. Qed.

(** ** Timeline sampler: interpolation at the ends of a segment *)

Lemma lerpVectors_one (a b : Vector3) (alpha : Q) :
  alpha == 1 -> lerpVectors a b alpha =v= b.
Proof.
  intro H. unfold lerpVectors, veq. cbn [vx vy vz].
  repeat split; rewrite H; ring.
Qed.

Lemma localT_at_upper (a b : TimelinePoint) (clamped : Q) :
  tl_t a < clamped -> tl_t b == clamped -> localT a b clamped == 1.
Proof.
  intros Ha Hb. unfold localT, segmentSpan.
  destruct (Qeq_bool (tl_t b - tl_t a) 0) eqn:E.
  - apply Qeq_bool_iff in E. lra.
  - assert (Hpos : 0 < tl_t b - tl_t a) by lra.
    apply Qgtb_lt in Hpos. rewrite Hpos. rewrite Hb. field. lra.
Qed.

Lemma clamp01_0 : clamp01 0 = 0.
Proof. reflexivity. Qed.

Lemma clamp01_1 : clamp01 1 = 1.
Proof. reflexivity. Qed.

(** At a query that no entry is below, the sample is the first entry. *)
Lemma sampleTimeline_at_start (tl : list TimelinePoint) (first : TimelinePoint)
  (progress : Q) :
  nth_error tl 0 = Some first ->
  (forall i, (i < length tl)%nat ->
             clamp01 progress <= nth i (map tl_t tl) 0) ->
  exists s, sampleTimeline tl progress = Done (Some s)
            /\ sample_position s =v= tl_position first
            /\ sample_timestamp s == tl_timestamp first.
Proof.
  intros Hfirst Hall.
  destruct tl as [ | p0 tl' ]; [ discriminate | ].
  assert (Hs : searchLoop (length (p0 :: tl')) (p0 :: tl') (clamp01 progress)
                 0 (length (p0 :: tl') - 1) = Done 0%nat).
  { apply searchLoop_boundary.
    - intros i Hi. lia.
    - simpl. lia.
    - lia.
    - lia.
    - intros i _ Hi. apply Hall. lia.
    - lia. }
  unfold sampleTimeline. rewrite Hs.
  simpl Nat.max. rewrite Hfirst.
  eexists. split; [ reflexivity | ].
  unfold interpolate. cbn [sample_position sample_timestamp].
  split; [ apply lerpVectors_same | ring ].
Qed.

(** At a query that only the last entry reaches, and reaches exactly, the
    sample is the last entry. *)
Lemma sampleTimeline_at_end (tl : list TimelinePoint) (last : TimelinePoint)
  (progress : Q) :
  nth_error tl (length tl - 1) = Some last ->
  tl_t last == clamp01 progress ->
  (forall i, (i < length tl - 1)%nat ->
             nth i (map tl_t tl) 0 < clamp01 progress) ->
  exists s, sampleTimeline tl progress = Done (Some s)
            /\ sample_position s =v= tl_position last
            /\ sample_timestamp s == tl_timestamp last.
Proof.
  intros Hlast Hreach Hbelow.
  destruct tl as [ | p0 tl' ]; [ discriminate | ].
  assert (Hs : searchLoop (length (p0 :: tl')) (p0 :: tl') (clamp01 progress)
                 0 (length (p0 :: tl') - 1) = Done (length (p0 :: tl') - 1)%nat).
  { apply searchLoop_boundary.
    - exact Hbelow.
    - simpl. lia.
    - lia.
    - lia.
    - intros i Hi1 Hi2. lia.
    - lia. }
  unfold sampleTimeline. rewrite Hs.
  rewrite Hlast.
  destruct (Nat.eq_dec (length (p0 :: tl') - 1) 0) as [E | E].
  - rewrite E in *. simpl Nat.max. rewrite Hlast.
    eexists. split; [ reflexivity | ].
    unfold interpolate. cbn [sample_position sample_timestamp].
    split; [ apply lerpVectors_same | ring ].
  - replace (Nat.max 0 (length (p0 :: tl') - 1 - 1))
      with (length (p0 :: tl') - 1 - 1)%nat by lia.
    destruct (nth_error_t (p0 :: tl') (length (p0 :: tl') - 1 - 1))
      as (a & Ha & Hta); [ simpl in *; lia | ].
    rewrite Ha.
    eexists. split; [ reflexivity | ].
    unfold interpolate. cbn [sample_position sample_timestamp].
    assert (Hl : localT a last (clamp01 progress) == 1).
    { apply localT_at_upper; [ | exact Hreach ].
      rewrite Hta. apply Hbelow. simpl in *. lia. }
    split; [ apply lerpVectors_one; exact Hl | rewrite Hl; ring ].
Qed.

(** ** Timeline sampler: theorems *)

(** C5, counterexample.  The timeline built from [repeatedEndSamples] is
    non-empty with non-decreasing [t] values 0, 1, 1.  The search stops at
    the first entry that reaches progress 1, so the sample at progress 1 is
    the position of the second entry and not that of the last. *)
Lemma sampleTimeline_end_not_last :
  let tl := buildTimeline repeatedEndSamples in
  tl <> [] /\
  map Qred (map tl_t tl) = [0; 1; 1] /\
  nonDecreasing (map tl_t tl) = true /\
  (exists s, sampleTimeline tl 1 = Done (Some s)
             /\ sample_position s =v= mkVector3 1 0 0) /\
  (exists last, nth_error tl (length tl - 1) = Some last
                /\ tl_position last =v= mkVector3 2 0 0) /\
  ~ samplesItsEndpoints tl.
Proof.
  cbv zeta.
  split; [ discriminate | ].
  split; [ vm_compute; reflexivity | ].
  split; [ reflexivity | ].
  split.
  { eexists. split; [ vm_compute; reflexivity | ].
    vm_compute. repeat split; reflexivity. }
  split.
  { eexists. split; [ reflexivity | ].
    vm_compute. repeat split; reflexivity. }
  intro H.
  edestruct H as (_ & s & Hs & Hpos & _);
    [ vm_compute; reflexivity | vm_compute; reflexivity | ].
  vm_compute in Hs. injection Hs as Hs. subst s.
  vm_compute in Hpos. discriminate.
Qed.

(** Sampling at a query that an entry reaches exactly and that the entry
    before it is below: the search stops at that entry, and the code
    interpolates on the segment that ends there with a fraction equal
    to 1. *)
Lemma sampleTimeline_at_knot (tl : list TimelinePoint) (k : nat)
  (a b : TimelinePoint) (progress : Q) :
  nth_error tl k = Some a ->
  nth_error tl (S k) = Some b ->
  nonDecreasing (map tl_t tl) = true ->
  tl_t a < clamp01 progress ->
  tl_t b == clamp01 progress ->
  sampleTimeline tl progress
  = Done (Some (interpolate a b (clamp01 progress))) /\
  localT a b (clamp01 progress) == 1.
Proof.
  intros Ha Hb Hsorted Hlt Heq.
  assert (Hlen : (S k < length tl)%nat)
    by (apply nth_error_Some; rewrite Hb; discriminate).
  assert (Hta : nth k (map tl_t tl) 0 = tl_t a).
  { destruct (nth_error_t tl k) as (p & Hp & Ht); [ lia | ].
    rewrite Ha in Hp. injection Hp as Hp. subst p. symmetry. exact Ht. }
  assert (Htb : nth (S k) (map tl_t tl) 0 = tl_t b).
  { destruct (nth_error_t tl (S k)) as (p & Hp & Ht); [ lia | ].
    rewrite Hb in Hp. injection Hp as Hp. subst p. symmetry. exact Ht. }
  destruct tl as [ | p0 tl' ]; [ simpl in Hlen; lia | ].
  assert (Hs : searchLoop (length (p0 :: tl')) (p0 :: tl') (clamp01 progress)
                 0 (length (p0 :: tl') - 1) = Done (S k)).
  { apply searchLoop_boundary.
    - intros i Hi.
      apply Qle_lt_trans with (nth k (map tl_t (p0 :: tl')) 0);
        [ | rewrite Hta; exact Hlt ].
      apply nonDecreasing_nth_le;
        [ exact Hsorted | lia | rewrite length_map; lia ].
    - simpl. lia.
    - lia.
    - simpl in *. lia.
    - intros i Hi1 Hi2.
      apply Qle_trans with (nth (S k) (map tl_t (p0 :: tl')) 0);
        [ rewrite Htb, Heq; apply Qle_refl | ].
      apply nonDecreasing_nth_le;
        [ exact Hsorted | exact Hi1 | rewrite length_map; simpl in *; lia ].
    - lia. }
  split.
  - unfold sampleTimeline. rewrite Hs.
    replace (Nat.max 0 (S k - 1)) with k by lia.
    rewrite Ha, Hb. reflexivity.
  - apply localT_at_upper; assumption.
Qed.

(** C5, amended.  For every non-empty timeline whose [t] values are
    non-decreasing and not negative, sampling at progress 0 returns
    exactly the position of the first entry.  Sampling at progress 1
    stops at the first entry [b] whose [t] is 1 and, with [a] the entry
    before it, evaluates [a + (b - a) * lambda] with [lambda = 1] on the
    positions and on the timestamps: this is the position of [b] up to
    the rounding of the subtraction and the addition, and [b] is the last
    entry only when every earlier [t] is below 1. *)
Theorem sampleTimeline_endpoints :
  forall (tl : list TimelinePoint) (first : TimelinePoint),
    nth_error tl 0 = Some first ->
    nonDecreasing (map tl_t tl) = true ->
    0 <= tl_t first ->
    (exists s, sampleTimeline tl 0 = Done (Some s)
               /\ sample_position s =v= tl_position first) /\
    (forall (k : nat) (a b : TimelinePoint),
        nth_error tl k = Some a ->
        nth_error tl (S k) = Some b ->
        tl_t a < 1 ->
        tl_t b == 1 ->
        exists s lambda,
          sampleTimeline tl 1 = Done (Some s) /\
          lambda == 1 /\
          sample_position s
          = lerpVectors (tl_position a) (tl_position b) lambda /\
          sample_timestamp s
          = tl_timestamp a + (tl_timestamp b - tl_timestamp a) * lambda).
Proof.
  intros tl first Hfirst Hsorted Hnonneg. split.
  - destruct (sampleTimeline_at_start tl first 0 Hfirst) as (s & Hs & Hp & _).
    + intros i Hi. rewrite clamp01_0.
      apply Qle_trans with (nth 0 (map tl_t tl) 0).
      * destruct tl as [ | p0 tl' ]; [ discriminate | ].
        injection Hfirst as Hfirst. subst p0. exact Hnonneg.
      * apply nonDecreasing_nth_le;
          [ exact Hsorted | lia | rewrite length_map; exact Hi ].
    + exists s. split; assumption.
  - intros k a b Ha Hb Hlt Hone.
    destruct (sampleTimeline_at_knot tl k a b 1 Ha Hb Hsorted) as [Hs Hl].
    + rewrite clamp01_1. exact Hlt.
    + rewrite clamp01_1. exact Hone.
    + exists (interpolate a b (clamp01 1)), (localT a b (clamp01 1)).
      split; [ exact Hs | ]. split; [ exact Hl | ].
      split; reflexivity.
Qed.

Lemma sampleTimeline_endpoints_witness :
  let tl := buildTimeline asteroidSamples in
  (exists s, sampleTimeline tl 0 = Done (Some s)
             /\ sample_position s =v= mkVector3 1 0 0) /\
  (exists s lambda,
      sampleTimeline tl 1 = Done (Some s) /\
      lambda == 1 /\
      sample_position s
      = lerpVectors (toScaledVector (mkVector3 0 149600 0))
          (toScaledVector (mkVector3 (-149600) 0 0)) lambda /\
      sample_timestamp s = 100 + (200 - 100) * lambda).
Proof.
  cbv zeta.
  edestruct (sampleTimeline_endpoints (buildTimeline asteroidSamples))
    as [(s0 & Hs0 & Hp0) Hend];
    [ vm_compute; reflexivity | reflexivity | vm_compute; discriminate | ].
  split.
  - exists s0. split; [ exact Hs0 | ].
    apply (veq_trans _ _ _ Hp0). vm_compute. repeat split; reflexivity.
  - edestruct (Hend 1%nat) as (s1 & lambda & Hs1 & Hl & Hp1 & Ht1);
      [ reflexivity | reflexivity | vm_compute; reflexivity | reflexivity | ].
    exists s1, lambda. repeat split; assumption.
Defined.

(** ** Playback clock: one frame *)

Lemma animate_keeps_playing (deltaMs : Q) (s : SceneRefs) :
  isPlaybackPlayingRef (animate deltaMs s) = isPlaybackPlayingRef s.
Proof.
  unfold animate.
  destruct (isPlaybackPlayingRef s) eqn:P; [ | exact P ].
  destruct (Qgtb (effectiveDuration s) 0); [ | exact P ].
  destruct (Qgtb (deltaMs / effectiveDuration s) 0); [ | exact P ].
  destruct (negb _); destruct (Qle_bool 1 _); cbn; exact P.
Qed.

Lemma animateAll_keeps_playing (deltas : list Q) :
  forall s, isPlaybackPlayingRef (animateAll deltas s) = isPlaybackPlayingRef s.
Proof.
  unfold animateAll.
  induction deltas as [ | d deltas IH ]; intro s; simpl.
  - reflexivity.
  - rewrite IH. apply animate_keeps_playing.
Qed.

(** No frame changes the duration, which every load sets to the positive
    constant; so the duration is positive in every state the clock
    reaches. *)
Lemma animate_keeps_duration (deltaMs : Q) (s : SceneRefs) :
  playbackDurationRef (animate deltaMs s) = playbackDurationRef s.
Proof.
  unfold animate.
  destruct (isPlaybackPlayingRef s); [ | reflexivity ].
  destruct (Qgtb (effectiveDuration s) 0); [ | reflexivity ].
  destruct (Qgtb (deltaMs / effectiveDuration s) 0); [ | reflexivity ].
  destruct (negb _); destruct (Qle_bool 1 _); reflexivity.
Qed.

Lemma Qdiv_pos (x y : Q) : 0 < x -> 0 < y -> 0 < x / y.
Proof.
  intros Hx Hy. unfold Qdiv.
  apply Qmult_lt_0_compat; [ exact Hx | apply Qinv_lt_0_compat; exact Hy ].
Qed.

(** A frame that does not reach the end moves progress forward by
    [deltaMs / duration]. *)
Lemma animate_advances (deltaMs : Q) (s : SceneRefs) :
  isPlaybackPlayingRef s = true ->
  0 < effectiveDuration s ->
  0 < deltaMs ->
  playbackProgressRef s + deltaMs / effectiveDuration s < 1 ->
  playbackProgressRef (animate deltaMs s)
  == playbackProgressRef s + deltaMs / effectiveDuration s.
Proof.
  intros Hplay Hdur Hdelta Hbelow.
  assert (Hinc := Qdiv_pos _ _ Hdelta Hdur).
  unfold animate. rewrite Hplay.
  rewrite (proj2 (Qgtb_lt _ _) Hdur). rewrite (proj2 (Qgtb_lt _ _) Hinc).
  set (next := Qmin (playbackProgressRef s + deltaMs / effectiveDuration s) 1).
  assert (Hnext : next == playbackProgressRef s + deltaMs / effectiveDuration s)
    by (apply Q.min_l; apply Qlt_le_weak; exact Hbelow).
  assert (Hlt : Qle_bool 1 next = false).
  { destruct (Qle_bool 1 next) eqn:E; [ | reflexivity ].
    apply Qle_bool_iff in E. rewrite Hnext in E. lra. }
  rewrite Hlt.
  destruct (Qeq_bool next (playbackProgressRef s)) eqn:E; cbn.
  - apply Qeq_bool_iff in E. rewrite <- Hnext. symmetry. exact E.
  - exact Hnext.
Qed.

(** ** Playback clock: theorems *)

(** C6.  In every playing state, a frame whose increment takes progress to
    1 or beyond leaves progress at exactly 0 and the clock playing; no run
    of frames ever stops the clock. *)
Theorem animate_wraps_and_keeps_playing :
  forall (s : SceneRefs) (deltaMs : Q),
    isPlaybackPlayingRef s = true ->
    0 < effectiveDuration s ->
    0 < deltaMs ->
    1 <= playbackProgressRef s + deltaMs / effectiveDuration s ->
    playbackProgressRef (animate deltaMs s) = 0 /\
    playbackProgress (animate deltaMs s) = 0 /\
    isPlaybackPlayingRef (animate deltaMs s) = true /\
    forall deltas : list Q,
      isPlaybackPlayingRef (animateAll deltas (animate deltaMs s)) = true.
Proof.
  intros s deltaMs Hplay Hdur Hdelta Hreach.
  assert (Hinc := Qdiv_pos _ _ Hdelta Hdur).
  assert (Hkeep : isPlaybackPlayingRef (animate deltaMs s) = true)
    by (rewrite animate_keeps_playing; exact Hplay).
  assert (Hwrap : playbackProgressRef (animate deltaMs s) = 0
                  /\ playbackProgress (animate deltaMs s) = 0).
  { unfold animate. rewrite Hplay.
    rewrite (proj2 (Qgtb_lt _ _) Hdur). rewrite (proj2 (Qgtb_lt _ _) Hinc).
    assert (Hone : Qle_bool 1
                     (Qmin (playbackProgressRef s
                            + deltaMs / effectiveDuration s) 1) = true).
    { apply Qle_bool_iff. apply Q.min_glb; [ exact Hreach | apply Qle_refl ]. }
    rewrite Hone. split; reflexivity. }
  destruct Hwrap as [Hw1 Hw2].
  repeat split; try assumption.
  intro deltas. rewrite animateAll_keeps_playing. exact Hkeep.
Qed.

Lemma animate_wraps_and_keeps_playing_witness :
  playbackProgressRef (animate 400 nearEndPlaying) = 0 /\
  isPlaybackPlayingRef (animate 400 nearEndPlaying) = true.
Proof.
  assert (Hdur : 0 < effectiveDuration nearEndPlaying) by reflexivity.
  assert (Hdelta : 0 < 400) by reflexivity.
  assert (Hreach : 1 <= playbackProgressRef nearEndPlaying
                        + 400 / effectiveDuration nearEndPlaying)
    by (vm_compute; discriminate).
  destruct (animate_wraps_and_keeps_playing nearEndPlaying 400
              eq_refl Hdur Hdelta Hreach) as (Hp & _ & Hk & _).
  split; [ exact Hp | exact Hk ].
Defined.

(** The looping scenario: from progress 0.98, frames of 16 ms advance the
    clock for 18 frames; the 19th frame wraps it to 0, still playing. *)
Example looping_scenario :
  let s18 := animateAll (repeat 16 18) nearEndPlaying in
  let s19 := animateAll (repeat 16 19) nearEndPlaying in
  0.98 < playbackProgressRef s18 /\ playbackProgressRef s18 < 1 /\
  playbackProgressRef s19 = 0 /\ isPlaybackPlayingRef s19 = true.
Proof.
  cbv zeta. repeat split; vm_compute; reflexivity.
Qed.

(** ** Playback clock: loading simulation data *)

Lemma resetPlayback_resets (s : SceneRefs) :
  playbackProgressRef (resetPlayback s) == 0 /\
  isPlaybackPlayingRef (resetPlayback s) = false.
Proof.
  unfold resetPlayback.
  destruct (Qeq_bool (playbackProgressRef s) 0) eqn:E; cbn.
  - apply Qeq_bool_iff in E.
    destruct (isPlaybackPlayingRef s) eqn:P; cbn; split;
      solve [ exact E | exact P | reflexivity ].
  - destruct (isPlaybackPlayingRef s) eqn:P; cbn; split;
      solve [ exact P | reflexivity ].
Qed.

(** When the refs mirror the store, the store is reset with them. *)
Lemma resetPlayback_resets_store (s : SceneRefs) :
  playbackProgress s = playbackProgressRef s ->
  isPlaybackPlaying s = isPlaybackPlayingRef s ->
  playbackProgress (resetPlayback s) == 0 /\
  isPlaybackPlaying (resetPlayback s) = false.
Proof.
  intros Hp Hb. unfold resetPlayback.
  destruct (Qeq_bool (playbackProgressRef s) 0) eqn:E; cbn.
  - apply Qeq_bool_iff in E.
    destruct (isPlaybackPlayingRef s) eqn:P; cbn; split;
      solve [ rewrite Hp; exact E | rewrite Hb; reflexivity | reflexivity ].
  - destruct (isPlaybackPlayingRef s) eqn:P; cbn; split;
      solve [ rewrite Hb; reflexivity | reflexivity ].
Qed.

Lemma computeGlobalSpan_playback (s : SceneRefs) :
  playbackProgressRef (computeGlobalSpan s) = playbackProgressRef s /\
  isPlaybackPlayingRef (computeGlobalSpan s) = isPlaybackPlayingRef s.
Proof.
  unfold computeGlobalSpan.
  destruct (timelineStart (asteroidAnimationRef s)
              ++ timelineStart (earthAnimationRef s));
    destruct (timelineEnd (asteroidAnimationRef s)
                ++ timelineEnd (earthAnimationRef s));
    split; reflexivity.
Qed.

(** The full-simulation path: the clock keeps playing or stays paused as it
    was, and progress is only capped at 1. *)
Lemma onSimulationData_full_keeps_playback (data : SimulationData)
  (mode : option SimulationMode) (s : SceneRefs) :
  mode <> Some preview ->
  let s' := onSimulationData true (Some data) mode s in
  isPlaybackPlayingRef s' = isPlaybackPlayingRef s /\
  playbackProgressRef s'
  = (if Qgtb (playbackProgressRef s) 1 then 1 else playbackProgressRef s).
Proof.
  intros Hmode s'.
  assert (Hfull :
    s' = let s1 :=
           writeAnimations
             (animationOf (buildTimeline (asteroid_trajectory data))
                ASTEROID_ANIMATION_DURATION_MS)
             (animationOf (buildTimeline (earth_trajectory data))
                EARTH_ANIMATION_DURATION_MS) s in
         let s3 := writeDuration ASTEROID_ANIMATION_DURATION_MS
                     (computeGlobalSpan s1) in
         if Qgtb (playbackProgressRef s3) 1 then writeProgress 1 s3 else s3).
  { unfold s', onSimulationData. cbn [negb].
    destruct mode as [ [ | ] | ]; [ contradiction | | ]; reflexivity. }
  rewrite Hfull. cbv zeta.
  set (s1 := writeAnimations _ _ s).
  destruct (computeGlobalSpan_playback s1) as [Hp Hb].
  cbn [writeDuration playbackProgressRef]. rewrite Hp.
  change (playbackProgressRef s1) with (playbackProgressRef s).
  destruct (Qgtb (playbackProgressRef s) 1); cbn.
  - split; [ rewrite Hb | ]; reflexivity.
  - split; [ rewrite Hb | rewrite Hp ]; reflexivity.
Qed.

Lemma resetPlayback_duration (s : SceneRefs) :
  playbackDurationRef (resetPlayback s) = playbackDurationRef s.
Proof.
  unfold resetPlayback.
  destruct (negb _); cbn; destruct (isPlaybackPlayingRef s); reflexivity.
Qed.

(** Every load leaves the duration at the constant 15000 ms. *)
Lemma onSimulationData_duration (data : option SimulationData)
  (mode : option SimulationMode) (s : SceneRefs) :
  playbackDurationRef (onSimulationData true data mode s)
  = ASTEROID_ANIMATION_DURATION_MS.
Proof.
  unfold onSimulationData. cbn [negb].
  destruct data as [ data | ].
  - destruct mode as [ [ | ] | ].
    + cbn. rewrite resetPlayback_duration. reflexivity.
    + cbv zeta. destruct (Qgtb _ 1); reflexivity.
    + cbv zeta. destruct (Qgtb _ 1); reflexivity.
  - cbv zeta. rewrite resetPlayback_duration.
    destruct (Qltb _ 0); reflexivity.
Qed.

(** Before the scene exists the handler does nothing. *)
Lemma onSimulationData_without_scene (data : option SimulationData)
  (mode : option SimulationMode) (s : SceneRefs) :
  onSimulationData false data mode s = s.
Proof. reflexivity. Qed.

(** C1, counterexample.  Full-simulation data loaded while the clock plays
    at progress 0.5: the handler leaves progress at 0.5 and the clock
    playing. *)
Lemma onSimulationData_full_does_not_reset :
  let s' := onSimulationData true (Some fullSimulation) (Some full)
              midwayPlaying in
  playbackProgressRef s' = 0.5 /\
  isPlaybackPlayingRef s' = true /\
  ~ playbackIsReset s'.
Proof.
  cbv zeta.
  split; [ reflexivity | ].
  split; [ reflexivity | ].
  intros [_ H]. vm_compute in H. discriminate.
Qed.

(** C1, amended.  When the simulation data is cleared, or preview data is
    loaded, the handler resets the clock to progress 0 and paused, for
    every prior playback state.  When full-simulation data is loaded it
    does not reset: the clock keeps its playing flag, and progress is kept,
    capped at 1. *)
Theorem onSimulationData_playback :
  forall (simulationData : option SimulationData)
         (simulationMode : option SimulationMode) (s : SceneRefs),
    let s' := onSimulationData true simulationData simulationMode s in
    match simulationData, simulationMode with
    | None, _ | Some _, Some preview => playbackIsReset s'
    | Some _, _ =>
      isPlaybackPlayingRef s' = isPlaybackPlayingRef s /\
      playbackProgressRef s'
      = (if Qgtb (playbackProgressRef s) 1 then 1 else playbackProgressRef s)
    end.
Proof.
  intros simulationData simulationMode s s'.
  destruct simulationData as [ data | ].
  - destruct simulationMode as [ [ | ] | ].
    + unfold s', onSimulationData. cbn [negb].
      set (s2 := writeDuration _ _).
      destruct (resetPlayback_resets s2) as [Hp Hb].
      split; cbn; assumption.
    + apply onSimulationData_full_keeps_playback. discriminate.
    + apply onSimulationData_full_keeps_playback. discriminate.
  - unfold s', onSimulationData. cbn [negb].
    apply resetPlayback_resets.
Qed.

(** ** Global time span *)

Lemma Qmin_cases (x y : Q) : Qmin x y = x \/ Qmin x y = y.
Proof.
  unfold Qmin, GenericMinMax.gmin. destruct (x ?= y); auto.
Qed.

Lemma Qmax_cases (x y : Q) : Qmax x y = x \/ Qmax x y = y.
Proof.
  unfold Qmax, GenericMinMax.gmax. destruct (x ?= y); auto.
Qed.

Lemma isMinimumOf_app (a b : Q) (l1 l2 : list Q) :
  isMinimumOf a l1 -> isMinimumOf b l2 -> isMinimumOf (Qmin a b) (l1 ++ l2).
Proof.
  intros [Ha1 Ha2] [Hb1 Hb2]. split.
  - apply in_or_app. destruct (Qmin_cases a b) as [E | E]; rewrite E; auto.
  - intros x Hx. apply in_app_or in Hx. destruct Hx as [Hx | Hx].
    + apply Qle_trans with a; [ apply Q.le_min_l | apply Ha2; exact Hx ].
    + apply Qle_trans with b; [ apply Q.le_min_r | apply Hb2; exact Hx ].
Qed.

Lemma isMaximumOf_app (a b : Q) (l1 l2 : list Q) :
  isMaximumOf a l1 -> isMaximumOf b l2 -> isMaximumOf (Qmax a b) (l1 ++ l2).
Proof.
  intros [Ha1 Ha2] [Hb1 Hb2]. split.
  - apply in_or_app. destruct (Qmax_cases a b) as [E | E]; rewrite E; auto.
  - intros x Hx. apply in_app_or in Hx. destruct Hx as [Hx | Hx].
    + apply Qle_trans with a; [ apply Ha2; exact Hx | apply Q.le_max_l ].
    + apply Qle_trans with b; [ apply Hb2; exact Hx | apply Q.le_max_r ].
Qed.

Lemma In_nth_index (l : list Q) (x : Q) :
  In x l -> exists i, (i < length l)%nat /\ nth i l 0 = x.
Proof. intro H. apply (In_nth l x 0 H). Qed.

(** In a non-decreasing list the first entry is the least and the last one
    the greatest. *)
Lemma nonDecreasing_first_is_minimum (l : list Q) :
  l <> [] -> nonDecreasing l = true -> isMinimumOf (nth 0 l 0) l.
Proof.
  intros Hne Hsorted. split.
  - apply nth_In. destruct l; [ contradiction | simpl; lia ].
  - intros x Hx. destruct (In_nth_index l x Hx) as (i & Hi & E).
    rewrite <- E. apply nonDecreasing_nth_le; [ exact Hsorted | lia | exact Hi ].
Qed.

Lemma nonDecreasing_last_is_maximum (l : list Q) :
  l <> [] -> nonDecreasing l = true -> isMaximumOf (nth (length l - 1) l 0) l.
Proof.
  intros Hne Hsorted.
  assert (Hpos : (0 < length l)%nat)
    by (destruct l; [ contradiction | simpl; lia ]).
  split.
  - apply nth_In. lia.
  - intros x Hx. destruct (In_nth_index l x Hx) as (i & Hi & E).
    rewrite <- E. apply nonDecreasing_nth_le; [ exact Hsorted | lia | lia ].
Qed.

Lemma nth_error_map_nth {A : Type} (f : A -> Q) (l : list A) :
  forall i p, nth_error l i = Some p -> nth i (map f l) 0 = f p.
Proof.
  induction l as [ | a l IH ]; intros [ | i ] p H; simpl in H;
    try discriminate.
  - injection H as H. subst p. reflexivity.
  - simpl. apply IH. exact H.
Qed.

Lemma timelineStart_spec (anim : option TimelineAnimation) :
  timelineStart anim
  = match timestampsOf anim with
    | [] => []
    | _ :: _ => [nth 0 (timestampsOf anim) 0]
    end.
Proof.
  destruct anim as [ a | ]; [ | reflexivity ].
  unfold timelineStart, timestampsOf.
  destruct (timeline a); reflexivity.
Qed.

Lemma timelineEnd_spec (anim : option TimelineAnimation) :
  timelineEnd anim
  = match timestampsOf anim with
    | [] => []
    | _ :: _ => [nth (length (timestampsOf anim) - 1) (timestampsOf anim) 0]
    end.
Proof.
  destruct anim as [ a | ]; [ | reflexivity ].
  unfold timelineEnd, timestampsOf. rewrite length_map.
  destruct (timeline a) as [ | p0 tl' ] eqn:E; [ reflexivity | ].
  destruct (nth_error_t (p0 :: tl') (length (p0 :: tl') - 1))
    as (p & Hp & _); [ simpl; lia | ].
  rewrite Hp. rewrite (nth_error_map_nth tl_timestamp _ _ _ Hp).
  reflexivity.
Qed.

(** What the block computes on any timelines: the least first timestamp
    and the greatest last timestamp. *)
Lemma computeGlobalSpan_first_last (s : SceneRefs) :
  presentTimestamps s <> [] ->
  let firsts := timelineStart (asteroidAnimationRef s)
                  ++ timelineStart (earthAnimationRef s) in
  let lasts := timelineEnd (asteroidAnimationRef s)
                 ++ timelineEnd (earthAnimationRef s) in
  exists f fs l ls,
    firsts = f :: fs /\ lasts = l :: ls /\
    globalStartTsRef (computeGlobalSpan s) = Some (minOf f fs) /\
    globalEndTsRef (computeGlobalSpan s) = Some (maxOf l ls) /\
    globalSpanRef (computeGlobalSpan s) = Qmax (maxOf l ls - minOf f fs) 1.
Proof.
  intro Hne. cbv zeta. unfold computeGlobalSpan, presentTimestamps in *.
  rewrite !timelineStart_spec, !timelineEnd_spec.
  destruct (timestampsOf (asteroidAnimationRef s)) as [ | a la ];
    destruct (timestampsOf (earthAnimationRef s)) as [ | b lb ];
    [ contradiction | | | ];
    cbn [app]; do 4 eexists; repeat split; reflexivity.
Qed.

(** The first entry of a non-empty, non-decreasing list is its minimum and
    the last one its maximum; [H] is the list being non-decreasing. *)
Ltac ends_of_sorted H :=
  first [ apply nonDecreasing_first_is_minimum
        | apply nonDecreasing_last_is_maximum ];
  [ discriminate | exact H ].

Lemma computeGlobalSpan_ordered (s : SceneRefs) :
  presentTimestamps s <> [] ->
  nonDecreasing (timestampsOf (asteroidAnimationRef s)) = true ->
  nonDecreasing (timestampsOf (earthAnimationRef s)) = true ->
  exists gStart gEnd,
    globalStartTsRef (computeGlobalSpan s) = Some gStart /\
    globalEndTsRef (computeGlobalSpan s) = Some gEnd /\
    isMinimumOf gStart (presentTimestamps s) /\
    isMaximumOf gEnd (presentTimestamps s).
Proof.
  intros Hne Ha He. unfold computeGlobalSpan, presentTimestamps in *.
  rewrite !timelineStart_spec, !timelineEnd_spec.
  destruct (timestampsOf (asteroidAnimationRef s)) as [ | a la ] eqn:Ea;
    destruct (timestampsOf (earthAnimationRef s)) as [ | b lb ] eqn:Eb;
    [ contradiction | | | ]; cbn [app].
  - do 2 eexists.
    split; [ reflexivity | ]. split; [ reflexivity | ].
    cbn [minOf maxOf fold_left].
    split; [ ends_of_sorted He | ].
    change (isMaximumOf (nth (length (b :: lb) - 1) (b :: lb) 0) (b :: lb)).
    ends_of_sorted He.
  - do 2 eexists. rewrite app_nil_r.
    split; [ reflexivity | ]. split; [ reflexivity | ].
    cbn [minOf maxOf fold_left].
    split; [ ends_of_sorted Ha | ].
    change (isMaximumOf (nth (length (a :: la) - 1) (a :: la) 0) (a :: la)).
    ends_of_sorted Ha.
  - do 2 eexists.
    split; [ reflexivity | ]. split; [ reflexivity | ].
    cbn [minOf maxOf fold_left]. split.
    + apply (isMinimumOf_app _ _ (a :: la) (b :: lb)).
      * ends_of_sorted Ha.
      * ends_of_sorted He.
    + apply (isMaximumOf_app _ _ (a :: la) (b :: lb)).
      * change (isMaximumOf (nth (length (a :: la) - 1) (a :: la) 0) (a :: la)).
        ends_of_sorted Ha.
      * change (isMaximumOf (nth (length (b :: lb) - 1) (b :: lb) 0) (b :: lb)).
        ends_of_sorted He.
Qed.

Lemma timestampsOf_animationOf (points : list TrajectoryPoint) (d : Q) :
  timestampsOf (animationOf (buildTimeline points) d)
  = effectiveTimestamps points.
Proof.
  rewrite <- buildTimeline_timestamps.
  destruct (buildTimeline points); reflexivity.
Qed.

(** The refs the full-simulation path leaves behind. *)
Lemma onSimulationData_full_refs (data : SimulationData)
  (mode : option SimulationMode) (s : SceneRefs) :
  mode <> Some preview ->
  let s1 :=
    writeAnimations
      (animationOf (buildTimeline (asteroid_trajectory data))
         ASTEROID_ANIMATION_DURATION_MS)
      (animationOf (buildTimeline (earth_trajectory data))
         EARTH_ANIMATION_DURATION_MS) s in
  let s' := onSimulationData true (Some data) mode s in
  asteroidAnimationRef s' = asteroidAnimationRef s1 /\
  earthAnimationRef s' = earthAnimationRef s1 /\
  globalStartTsRef s' = globalStartTsRef (computeGlobalSpan s1) /\
  globalEndTsRef s' = globalEndTsRef (computeGlobalSpan s1) /\
  globalSpanRef s' = globalSpanRef (computeGlobalSpan s1).
Proof.
  intros Hmode s1 s'.
  assert (Hfull :
    s' = let s3 := writeDuration ASTEROID_ANIMATION_DURATION_MS
                     (computeGlobalSpan s1) in
         if Qgtb (playbackProgressRef s3) 1 then writeProgress 1 s3 else s3).
  { unfold s', onSimulationData. cbn [negb].
    destruct mode as [ [ | ] | ]; [ contradiction | | ]; reflexivity. }
  assert (Hanim : asteroidAnimationRef (computeGlobalSpan s1)
                  = asteroidAnimationRef s1
                  /\ earthAnimationRef (computeGlobalSpan s1)
                     = earthAnimationRef s1).
  { unfold computeGlobalSpan.
    destruct (timelineStart (asteroidAnimationRef s1)
                ++ timelineStart (earthAnimationRef s1));
      destruct (timelineEnd (asteroidAnimationRef s1)
                  ++ timelineEnd (earthAnimationRef s1));
      split; reflexivity. }
  destruct Hanim as [H1 H2].
  rewrite Hfull. cbv zeta.
  destruct (Qgtb _ 1); cbn; rewrite H1, H2; repeat split; reflexivity.
Qed.

(** The span reads the first and the last entry of each timeline, so it
    depends on the order of the samples: with the asteroid timestamps 100,
    0, 200, which no ordered trajectory has, and no Earth samples, it
    starts at 100, the timestamp of the first entry. *)
Lemma globalTimeSpan_start_not_minimum :
  let s' := onSimulationData true
              (Some (mkSimulationData unorderedSamples [])) (Some full)
              initialRefs in
  presentTimestamps s' = [100; 0; 200] /\
  globalStartTsRef s' = Some 100 /\
  ~ spanIsMinMax s'.
Proof.
  cbv zeta.
  split; [ reflexivity | ].
  split; [ reflexivity | ].
  intros (gStart & gEnd & Hs & _ & [_ Hmin] & _).
  vm_compute in Hs. injection Hs as Hs. subst gStart.
  assert (H0 : In 0 [100; 0; 200]) by (right; left; reflexivity).
  specialize (Hmin 0 H0).
  apply (Qle_not_lt _ _ Hmin). reflexivity.
Qed.

(** C7.  After full-simulation data with at least one non-empty
    trajectory is loaded, whose samples are ordered in time (the
    timestamps of each trajectory are non-decreasing), the start of the
    global span is the minimum and its end the maximum timestamp across
    all present timelines.  For the asteroid timestamps 0, 100, 200 and the
    Earth timestamps 50, 150, 250 the span is from 0 to 250. *)
Theorem globalTimeSpan_of_ordered_timelines :
  forall (data : SimulationData) (mode : option SimulationMode)
         (s : SceneRefs),
    mode <> Some preview ->
    asteroid_trajectory data ++ earth_trajectory data <> [] ->
    nonDecreasing (effectiveTimestamps (asteroid_trajectory data)) = true ->
    nonDecreasing (effectiveTimestamps (earth_trajectory data)) = true ->
    spanIsMinMax (onSimulationData true (Some data) mode s).
Proof.
  intros data mode s Hmode Hne Ha He.
  destruct (onSimulationData_full_refs data mode s Hmode)
    as (HA & HE & HS & HN & _).
  set (s1 := writeAnimations _ _ s) in *.
  set (s' := onSimulationData true (Some data) mode s) in *.
  assert (Hta : timestampsOf (asteroidAnimationRef s1)
                = effectiveTimestamps (asteroid_trajectory data))
    by apply timestampsOf_animationOf.
  assert (Hte : timestampsOf (earthAnimationRef s1)
                = effectiveTimestamps (earth_trajectory data))
    by apply timestampsOf_animationOf.
  assert (Hpres : presentTimestamps s' = presentTimestamps s1)
    by (unfold presentTimestamps; rewrite HA, HE; reflexivity).
  destruct (computeGlobalSpan_ordered s1) as (gStart & gEnd & H1 & H2 & H3 & H4).
  - unfold presentTimestamps. rewrite Hta, Hte.
    intro E. apply app_eq_nil in E. destruct E as [E1 E2].
    apply Hne.
    apply (f_equal (@length Q)) in E1, E2.
    rewrite effectiveTimestamps_length in E1, E2. simpl in E1, E2.
    apply length_zero_iff_nil in E1, E2. rewrite E1, E2. reflexivity.
  - rewrite Hta. exact Ha.
  - rewrite Hte. exact He.
  - exists gStart, gEnd. rewrite HS, HN, Hpres.
    split; [ exact H1 | split; [ exact H2 | split; [ exact H3 | exact H4 ] ] ].
Qed.

Lemma globalTimeSpan_of_ordered_timelines_witness :
  let s' := onSimulationData true (Some fullSimulation) (Some full)
              initialRefs in
  globalStartTsRef s' = Some 0 /\
  globalEndTsRef s' = Some 250 /\
  spanIsMinMax s'.
Proof.
  cbv zeta.
  split; [ reflexivity | ].
  split; [ reflexivity | ].
  apply (globalTimeSpan_of_ordered_timelines fullSimulation (Some full)
           initialRefs);
    [ discriminate | discriminate | reflexivity | reflexivity ].
Defined.

(** ** Orbit diagnostics *)

Lemma jsDiv_finite (x y : Q) :
  Qeq_bool y 0 = false -> jsDiv (Fin x) (Fin y) = Fin (x / y).
Proof. intro H. unfold jsDiv. rewrite H. reflexivity. Qed.

Lemma jsDiv_by_zero (x y : Q) :
  Qeq_bool y 0 = true -> isFinite (jsDiv (Fin x) (Fin y)) = false.
Proof.
  intro H. unfold jsDiv. rewrite H.
  destruct (Qeq_bool x 0); [ reflexivity | ].
  destruct (Qgtb x 0); reflexivity.
Qed.

Lemma jsMul_100_finite (n : jsnum) :
  isFinite (jsMul n (Fin 100)) = isFinite n.
Proof. destruct n; reflexivity. Qed.

(** A percentage [(d / ref) * 100] of finite numbers is finite exactly when
    the reference is not zero. *)
Lemma percentage_finite (d ref : Q) :
  isFinite (jsMul (jsDiv (Fin d) (Fin ref)) (Fin 100))
  = negb (Qeq_bool ref 0).
Proof.
  rewrite jsMul_100_finite.
  destruct (Qeq_bool ref 0) eqn:E.
  - apply jsDiv_by_zero. exact E.
  - rewrite jsDiv_finite by exact E. reflexivity.
Qed.

(** With four points or more and metadata, the diagnostics return a
    result whose derived [a], [q], [Q] and whose deltas on them are
    finite. *)
Lemma analyzeOrbit_with_meta (vectorLength : Vector3 -> Q)
  (points : list Vector3) (m : OrbitMetaLike) :
  (4 <= length points)%nat ->
  exists (r : OrbitDiagnosticsResult) (d_a d_q d_Q : Q),
    analyzeOrbit vectorLength points (Some m) = Some r /\
    sampleCount r = length points /\
    a_pct (percent r)
    = jsMul (jsDiv (Fin d_a) (Fin (meta_a_au m))) (Fin 100) /\
    e_pct (percent r)
    = (if negb (Qeq_bool (meta_e m) 0)
       then jsMul (jsDiv (de (deltas r)) (Fin (meta_e m))) (Fin 100)
       else Fin 0) /\
    q_pct (percent r)
    = jsMul (jsDiv (Fin d_q) (Fin (meta_q_au m))) (Fin 100) /\
    Q_pct (percent r)
    = jsMul (jsDiv (Fin d_Q) (Fin (meta_Q_au m))) (Fin 100).
Proof.
  intro Hn. unfold analyzeOrbit.
  destruct (Nat.ltb_spec (length points) 4) as [Hlt | _]; [ lia | ].
  destruct points as [ | p0 points' ]; [ simpl in Hn; lia | ].
  cbn [map mathMin mathMax].
  rewrite !(jsDiv_finite _ SCALE_FACTOR) by reflexivity.
  rewrite !(jsDiv_finite _ AU_KM) by reflexivity.
  cbn [jsAdd]. rewrite (jsDiv_finite _ 2) by reflexivity.
  cbv zeta. cbn [a_au q_au Q_au e jsSub jsNeg jsAdd da dq dQ de].
  eexists. do 3 eexists.
  split; [ reflexivity | ].
  cbn [sampleCount percent a_pct e_pct q_pct Q_pct deltas de].
  repeat split; reflexivity.
Qed.

(** What the diagnostics do with a zero reference.  Given four points or
    more and metadata, the percentage for [e] is zero whenever the
    reference [e] is zero; the percentages for [a], [q] and [Q] are plain
    quotients, finite exactly when their reference value is not zero. *)
Lemma analyzeOrbit_percentages (vectorLength : Vector3 -> Q)
  (points : list Vector3) (m : OrbitMetaLike) :
  (4 <= length points)%nat ->
  exists r,
    analyzeOrbit vectorLength points (Some m) = Some r /\
    (meta_e m == 0 -> e_pct (percent r) = Fin 0) /\
    isFinite (a_pct (percent r)) = negb (Qeq_bool (meta_a_au m) 0) /\
    isFinite (q_pct (percent r)) = negb (Qeq_bool (meta_q_au m) 0) /\
    isFinite (Q_pct (percent r)) = negb (Qeq_bool (meta_Q_au m) 0).
Proof.
  intro Hn.
  destruct (analyzeOrbit_with_meta vectorLength points m Hn)
    as (r & d_a & d_q & d_Q & Hr & _ & Ha & He & Hq & HQ).
  exists r. split; [ exact Hr | ].
  split.
  - intro Hz. rewrite He.
    apply Qeq_bool_iff in Hz. rewrite Hz. reflexivity.
  - rewrite Ha, Hq, HQ. repeat split; apply percentage_finite.
Qed.

(** C3, counterexample.  The claim is that every percentage whose
    reference value is zero is reported as zero.  For four points at
    distances 1, 1, 1 and 2 and metadata whose reference values are all
    zero, [analyzeOrbit] reports zero for [e] only: the percentages for
    [a], [q] and [Q] are positive deltas divided by zero, that is
    [Infinity]. *)
Lemma analyzeOrbit_zero_reference_divides :
  exists r,
    analyzeOrbit axisLength axisPoints (Some zeroMeta) = Some r /\
    e_pct (percent r) = Fin 0 /\
    a_pct (percent r) = PosInf /\
    q_pct (percent r) = PosInf /\
    Q_pct (percent r) = PosInf /\
    ~ zeroReferenceGivesZero zeroMeta r.
Proof.
  eexists. split; [ reflexivity | ].
  split; [ vm_compute; reflexivity | ].
  split; [ vm_compute; reflexivity | ].
  split; [ vm_compute; reflexivity | ].
  split; [ vm_compute; reflexivity | ].
  intros (H & _). vm_compute in H. apply H. reflexivity.
Qed.

(** C3, amended.  With four points or more and metadata, [analyzeOrbit]
    guards the percentage of [e] only: it is reported as 0 when the
    reference [e] is 0.  The percentages of [a], [q] and [Q] are
    [(delta / reference) * 100] with no guard, so a reference of 0 gives a
    value that is not finite ([Infinity], or [NaN] when the delta is 0
    too), never 0. *)
Theorem analyzeOrbit_guards_only_eccentricity :
  forall (vectorLength : Vector3 -> Q) (points : list Vector3)
         (m : OrbitMetaLike),
    (4 <= length points)%nat ->
    exists r,
      analyzeOrbit vectorLength points (Some m) = Some r /\
      (meta_e m == 0 -> e_pct (percent r) = Fin 0) /\
      a_pct (percent r)
      = jsMul (jsDiv (da (deltas r)) (Fin (meta_a_au m))) (Fin 100) /\
      q_pct (percent r)
      = jsMul (jsDiv (dq (deltas r)) (Fin (meta_q_au m))) (Fin 100) /\
      Q_pct (percent r)
      = jsMul (jsDiv (dQ (deltas r)) (Fin (meta_Q_au m))) (Fin 100) /\
      (meta_a_au m == 0 -> isFinite (a_pct (percent r)) = false) /\
      (meta_q_au m == 0 -> isFinite (q_pct (percent r)) = false) /\
      (meta_Q_au m == 0 -> isFinite (Q_pct (percent r)) = false).
Proof.
  intros vectorLength points m Hn.
  destruct (analyzeOrbit_percentages vectorLength points m Hn)
    as (r & Hr & He & Ha & Hq & HQ).
  exists r. split; [ exact Hr | ]. split; [ exact He | ].
  assert (Hform :
            a_pct (percent r)
            = jsMul (jsDiv (da (deltas r)) (Fin (meta_a_au m))) (Fin 100) /\
            q_pct (percent r)
            = jsMul (jsDiv (dq (deltas r)) (Fin (meta_q_au m))) (Fin 100) /\
            Q_pct (percent r)
            = jsMul (jsDiv (dQ (deltas r)) (Fin (meta_Q_au m))) (Fin 100)).
  { unfold analyzeOrbit in Hr.
    destruct (length points <? 4)%nat; [ discriminate | ].
    cbv zeta in Hr. injection Hr as Hr. subst r.
    cbn [percent deltas a_pct q_pct Q_pct da dq dQ].
    repeat split; reflexivity. }
  destruct Hform as (Fa & Fq & FQ).
  split; [ exact Fa | ]. split; [ exact Fq | ]. split; [ exact FQ | ].
  split; [ | split ]; intro Hz; apply Qeq_bool_iff in Hz.
  - rewrite Ha, Hz. reflexivity.
  - rewrite Hq, Hz. reflexivity.
  - rewrite HQ, Hz. reflexivity.
Qed.

Lemma analyzeOrbit_guards_only_eccentricity_witness :
  exists r,
    analyzeOrbit axisLength axisPoints (Some zeroMeta) = Some r /\
    (meta_e zeroMeta == 0 -> e_pct (percent r) = Fin 0) /\
    a_pct (percent r)
    = jsMul (jsDiv (da (deltas r)) (Fin (meta_a_au zeroMeta))) (Fin 100) /\
    q_pct (percent r)
    = jsMul (jsDiv (dq (deltas r)) (Fin (meta_q_au zeroMeta))) (Fin 100) /\
    Q_pct (percent r)
    = jsMul (jsDiv (dQ (deltas r)) (Fin (meta_Q_au zeroMeta))) (Fin 100) /\
    (meta_a_au zeroMeta == 0 -> isFinite (a_pct (percent r)) = false) /\
    (meta_q_au zeroMeta == 0 -> isFinite (q_pct (percent r)) = false) /\
    (meta_Q_au zeroMeta == 0 -> isFinite (Q_pct (percent r)) = false).
Proof.
  apply (analyzeOrbit_guards_only_eccentricity axisLength axisPoints zeroMeta).
  simpl. lia.
Defined.

(** ** Analytic Earth propagator *)

Module KeplerFacts.

Import Reals Lra.
Import Kepler.
Local Open Scope R_scope.

Lemma period_nonzero : EARTH_ORBITAL_PERIOD <> 0.
Proof. unfold EARTH_ORBITAL_PERIOD. lra. Qed.

(** The remainder differs from the dividend by a whole number of
    divisors. *)
Lemma jsRem_whole_multiple (a b : R) :
  exists z : Z, jsRem a b = a - b * IZR z.
Proof. exists (truncate (a / b)). reflexivity. Qed.

(** The remainder is smaller than the divisor and has the sign of the
    dividend. *)
Lemma jsRem_bounds (a b : R) :
  0 < b -> (0 <= a -> 0 <= jsRem a b < b) /\ (a <= 0 -> - b < jsRem a b <= 0).
Proof.
  intro Hb. unfold jsRem, truncate. split; intro Ha.
  - assert (Hq : 0 <= a / b)
      by (apply Rmult_le_pos; [ exact Ha | left; apply Rinv_0_lt_compat; exact Hb ]).
    destruct (Rle_dec 0 (a / b)) as [_ | Hn]; [ | contradiction ].
    destruct (base_Int_part (a / b)) as [H1 H2].
    assert (E : a = a / b * b) by (field; lra).
    split; nra.
  - destruct (Rle_dec 0 (a / b)) as [Hq | Hq].
    + assert (Hz : a / b <= 0).
      { unfold Rdiv. assert (0 < / b) by (apply Rinv_0_lt_compat; exact Hb).
        nra. }
      assert (E0 : a / b = 0) by lra.
      assert (Ea : a = 0).
      { assert (E : a = a / b * b) by (field; lra). rewrite E0 in E. lra. }
      rewrite E0. destruct (base_Int_part 0) as [H1 H2].
      assert (Hi : Int_part 0 = 0%Z).
      { assert (Hlt : (-1 < Int_part 0 < 1)%Z).
        { split; apply lt_IZR; lra. }
        lia. }
      rewrite Hi, Ea. split; lra.
    + rewrite opp_IZR.
      destruct (base_Int_part (- (a / b))) as [H1 H2].
      assert (E : a = a / b * b) by (field; lra).
      split; nra.
Qed.

Lemma sin_shift (x : R) (m : Z) : sin (x + 2 * PI * IZR m) = sin x.
Proof.
  destruct (Z_le_gt_dec 0 m) as [Hm | Hm].
  - rewrite <- (Z2Nat.id m Hm), <- INR_IZR_INZ.
    replace (x + 2 * PI * INR (Z.to_nat m))
      with (x + 2 * INR (Z.to_nat m) * PI) by ring.
    apply sin_period.
  - assert (Hn : (0 <= - m)%Z) by lia.
    rewrite <- (sin_period (x + 2 * PI * IZR m) (Z.to_nat (- m))).
    rewrite INR_IZR_INZ, (Z2Nat.id _ Hn), opp_IZR.
    f_equal. ring.
Qed.

Lemma cos_shift (x : R) (m : Z) : cos (x + 2 * PI * IZR m) = cos x.
Proof.
  destruct (Z_le_gt_dec 0 m) as [Hm | Hm].
  - rewrite <- (Z2Nat.id m Hm), <- INR_IZR_INZ.
    replace (x + 2 * PI * INR (Z.to_nat m))
      with (x + 2 * INR (Z.to_nat m) * PI) by ring.
    apply cos_period.
  - assert (Hn : (0 <= - m)%Z) by lia.
    rewrite <- (cos_period (x + 2 * PI * IZR m) (Z.to_nat (- m))).
    rewrite INR_IZR_INZ, (Z2Nat.id _ Hn), opp_IZR.
    f_equal. ring.
Qed.

(** A Newton step commutes with a shift of both the anomaly and its target
    by whole turns. *)
Lemma newtonStep_shift (ecc M E : R) (m : Z) :
  newtonStep ecc (M + 2 * PI * IZR m) (E + 2 * PI * IZR m)
  = newtonStep ecc M E + 2 * PI * IZR m.
Proof.
  unfold newtonStep. rewrite sin_shift, cos_shift.
  replace (E + 2 * PI * IZR m - ecc * sin E - (M + 2 * PI * IZR m))
    with (E - ecc * sin E - M) by ring.
  unfold Rdiv. ring.
Qed.

Lemma newton_shift (n : nat) (ecc : R) (m : Z) :
  forall M E,
    newton n ecc (M + 2 * PI * IZR m) (E + 2 * PI * IZR m)
    = newton n ecc M E + 2 * PI * IZR m.
Proof.
  induction n as [ | n IH ]; intros M E; simpl.
  - reflexivity.
  - rewrite newtonStep_shift. apply IH.
Qed.

Lemma positionAt_shift (E : R) (m : Z) :
  positionAt (E + 2 * PI * IZR m) = positionAt E.
Proof. unfold positionAt. rewrite sin_shift, cos_shift. reflexivity. Qed.

(** Whole periods added to the time shift the mean anomaly by whole
    turns. *)
Lemma meanAnomaly_shift (time : R) (k : Z) :
  exists m : Z,
    meanAnomaly (time + IZR k * EARTH_ORBITAL_PERIOD)
    = meanAnomaly time + 2 * PI * IZR m.
Proof.
  unfold meanAnomaly.
  destruct (jsRem_whole_multiple time EARTH_ORBITAL_PERIOD) as [z1 H1].
  destruct (jsRem_whole_multiple (time + IZR k * EARTH_ORBITAL_PERIOD)
              EARTH_ORBITAL_PERIOD) as [z2 H2].
  exists (k + z1 - z2)%Z.
  rewrite H1, H2, minus_IZR, plus_IZR.
  field. apply period_nonzero.
Qed.

(** C9.  For every time [t] and every integer [k],
    [getEarthPosition(t + k * period)] equals [getEarthPosition(t)] over
    the real numbers: the remainder modulo the period changes the mean
    anomaly by whole turns only, the seven Newton steps carry that shift
    to the eccentric anomaly, and the position depends on it through
    [sin] and [cos] alone. *)
Theorem getEarthPosition_periodic :
  forall (t : R) (k : Z),
    getEarthPosition (t + IZR k * EARTH_ORBITAL_PERIOD) = getEarthPosition t.
Proof.
  intros t k. unfold getEarthPosition.
  destruct (meanAnomaly_shift t k) as [m Hm].
  rewrite Hm, newton_shift. apply positionAt_shift.
Qed.

End KeplerFacts.

(** * Further properties *)

(** ** Timeline sampler: clamping and brackets *)

Lemma clamp01_cases (p : Q) :
  clamp01 p = p \/ clamp01 p = 0 \/ clamp01 p = 1.
Proof.
  unfold clamp01.
  destruct (Qmin_cases (Qmax p 0) 1) as [E | E]; rewrite E; [ | auto ].
  destruct (Qmax_cases p 0) as [F | F]; rewrite F; auto.
Qed.

Lemma clamp01_idempotent (p : Q) : clamp01 (clamp01 p) = clamp01 p.
Proof.
  destruct (clamp01_cases p) as [H | [H | H]]; rewrite H;
    [ exact H | reflexivity | reflexivity ].
Qed.

Lemma clamp01_below (p : Q) : p < 0 -> clamp01 p = 0.
Proof.
  intro H.
  assert (Hc : (p ?= 0) = Lt) by (apply Qlt_alt; exact H).
  unfold clamp01, Qmax, GenericMinMax.gmax. rewrite Hc. reflexivity.
Qed.

Lemma clamp01_above (p : Q) : 1 < p -> clamp01 p = 1.
Proof.
  intro H.
  assert (Hc0 : (p ?= 0) = Gt) by (apply Qgt_alt; lra).
  assert (Hc1 : (p ?= 1) = Gt) by (apply Qgt_alt; exact H).
  unfold clamp01, Qmax, GenericMinMax.gmax. rewrite Hc0.
  unfold Qmin, GenericMinMax.gmin. rewrite Hc1. reflexivity.
Qed.

Lemma sampleTimeline_clamped (tl : list TimelinePoint) (p : Q) :
  sampleTimeline tl p = sampleTimeline tl (clamp01 p).
Proof.
  unfold sampleTimeline. rewrite clamp01_idempotent. reflexivity.
Qed.

Lemma lowerIndex_le_length (l : list Q) (c : Q) :
  (lowerIndex l c <= length l)%nat.
Proof.
  induction l as [ | a l IH ]; simpl; [ lia | ].
  destruct (Qltb a c); simpl; lia.
Qed.

Lemma lowerIndex_below (l : list Q) (c : Q) :
  forall i, (i < lowerIndex l c)%nat -> nth i l 0 < c.
Proof.
  induction l as [ | a l IH ]; simpl; intros i Hi; [ lia | ].
  destruct (Qltb a c) eqn:E; [ | lia ].
  destruct i as [ | i ]; [ apply Qltb_lt; exact E | apply IH; lia ].
Qed.

Lemma lowerIndex_reaches (l : list Q) (c : Q) :
  (lowerIndex l c < length l)%nat -> c <= nth (lowerIndex l c) l 0.
Proof.
  induction l as [ | a l IH ]; simpl; intro H; [ lia | ].
  destruct (Qltb a c) eqn:E.
  - apply IH. lia.
  - apply Qltb_false_le. exact E.
Qed.

Lemma lowerIndex_above (l : list Q) (c : Q) :
  nonDecreasing l = true ->
  forall i, (lowerIndex l c <= i)%nat -> (i < length l)%nat ->
            c <= nth i l 0.
Proof.
  intros Hs i Hi Hn.
  apply Qle_trans with (nth (lowerIndex l c) l 0).
  - apply lowerIndex_reaches. lia.
  - apply nonDecreasing_nth_le; assumption.
Qed.

Lemma lowerIndex_within (l : list Q) (c : Q) :
  l <> [] -> c <= nth (length l - 1) l 0 ->
  (lowerIndex l c <= length l - 1)%nat.
Proof.
  intros Hne Hlast.
  assert (Hpos : (0 < length l)%nat)
    by (destruct l; [ contradiction | simpl; lia ]).
  destruct (Nat.le_gt_cases (lowerIndex l c) (length l - 1)) as [H | H];
    [ exact H | ].
  exfalso. apply (Qle_not_lt _ _ Hlast).
  apply lowerIndex_below. exact H.
Qed.

Lemma lowerIndex_monotone (l : list Q) (c c' : Q) :
  c <= c' -> (lowerIndex l c <= lowerIndex l c')%nat.
Proof.
  intro Hc. induction l as [ | a l IH ]; simpl; [ lia | ].
  destruct (Qltb a c) eqn:E; [ | lia ].
  apply Qltb_lt in E.
  assert (E' : Qltb a c' = true) by (apply Qltb_lt; lra).
  rewrite E'. lia.
Qed.

(** On a non-decreasing timeline whose last entry reaches the query, the
    sample interpolates between the entry at the lower-bound index and the
    one before it. *)
Lemma sampleTimeline_bracket (tl : list TimelinePoint) (p : Q) :
  tl <> [] ->
  nonDecreasing (map tl_t tl) = true ->
  clamp01 p <= lastT tl ->
  let k := lowerIndex (map tl_t tl) (clamp01 p) in
  exists a b,
    nth_error tl (k - 1) = Some a /\
    nth_error tl k = Some b /\
    sampleTimeline tl p = Done (Some (interpolate a b (clamp01 p))) /\
    (k = 0%nat \/ (tl_t a < clamp01 p /\ clamp01 p <= tl_t b)).
Proof.
  intros Hne Hs Hlast k.
  assert (Hpos : (0 < length tl)%nat)
    by (destruct tl; [ contradiction | simpl; lia ]).
  assert (Hk : (k <= length tl - 1)%nat).
  { unfold k. rewrite <- (length_map tl_t tl).
    apply lowerIndex_within.
    - intro E. apply (f_equal (@length Q)) in E.
      rewrite length_map in E. simpl in E. lia.
    - rewrite length_map. exact Hlast. }
  assert (Hsearch : searchLoop (length tl) tl (clamp01 p) 0 (length tl - 1)
                    = Done k).
  { apply searchLoop_boundary.
    - intros i Hi. apply lowerIndex_below. exact Hi.
    - lia.
    - lia.
    - exact Hk.
    - intros i Hi1 Hi2. apply lowerIndex_above;
        [ exact Hs | exact Hi1 | rewrite length_map; lia ].
    - lia. }
  destruct (nth_error_t tl (k - 1)) as (a & Ha & Hta); [ lia | ].
  destruct (nth_error_t tl k) as (b & Hb & Htb); [ lia | ].
  exists a, b. split; [ exact Ha | ]. split; [ exact Hb | ].
  split.
  - unfold sampleTimeline.
    destruct tl as [ | p0 tl' ]; [ contradiction | ].
    rewrite Hsearch. replace (Nat.max 0 (k - 1)) with (k - 1)%nat by lia.
    rewrite Ha, Hb. reflexivity.
  - destruct (Nat.eq_dec k 0) as [E | E]; [ left; exact E | right ].
    split.
    + rewrite Hta. apply lowerIndex_below. fold k. lia.
    + rewrite Htb. apply lowerIndex_reaches. fold k.
      rewrite length_map. lia.
Qed.

Lemma localT_range (a b : TimelinePoint) (c : Q) :
  tl_t a < c -> c <= tl_t b ->
  0 < localT a b c /\ localT a b c <= 1 /\
  localT a b c == (c - tl_t a) / (tl_t b - tl_t a).
Proof.
  intros Ha Hb. unfold localT, segmentSpan.
  assert (Hpos : 0 < tl_t b - tl_t a) by lra.
  destruct (Qeq_bool (tl_t b - tl_t a) 0) eqn:E.
  - apply Qeq_bool_iff in E. lra.
  - rewrite (proj2 (Qgtb_lt _ _) Hpos).
    split; [ apply Qdiv_pos; lra | ].
    split; [ | reflexivity ].
    apply Qle_shift_div_r; [ exact Hpos | lra ].
Qed.

Lemma interpolate_same (a : TimelinePoint) (c : Q) :
  sample_position (interpolate a a c) =v= tl_position a /\
  sample_timestamp (interpolate a a c) == tl_timestamp a.
Proof.
  unfold interpolate. cbn [sample_position sample_timestamp].
  split; [ apply lerpVectors_same | ring ].
Qed.

(** Within a segment the sampled timestamp lies between the timestamps of
    its two ends. *)
Lemma interpolate_timestamp_between (a b : TimelinePoint) (c : Q) :
  tl_t a < c -> c <= tl_t b -> tl_timestamp a <= tl_timestamp b ->
  tl_timestamp a <= sample_timestamp (interpolate a b c) /\
  sample_timestamp (interpolate a b c) <= tl_timestamp b.
Proof.
  intros Ha Hb Hts.
  destruct (localT_range a b c Ha Hb) as (H0 & H1 & _).
  unfold interpolate. cbn [sample_timestamp].
  set (lt := localT a b c) in *. split; nra.
Qed.

(** X1.  Sampling never fails: on the empty timeline [sampleTimeline]
    returns [null]; on every other timeline and for every progress it
    returns a sample, the binary search reading only entries that exist
    and ending within as many rounds as the timeline has entries. *)
Theorem sampleTimeline_never_fails :
  forall (tl : list TimelinePoint) (progress : Q),
    match tl with
    | [] => sampleTimeline tl progress = Done None
    | _ :: _ => exists s, sampleTimeline tl progress = Done (Some s)
    end.
Proof.
  intros tl progress. destruct tl as [ | p0 tl' ].
  - reflexivity.
  - apply sampleTimeline_returns. discriminate.
Qed.

(** X2.  Progress is clamped to [0, 1] before the search: a progress below
    0 is sampled like 0, a progress above 1 like 1, and in general
    [sampleTimeline(tl, p)] is [sampleTimeline(tl, clamp(p))]. *)
Theorem sampleTimeline_clamps_progress :
  forall (tl : list TimelinePoint) (p : Q),
    sampleTimeline tl p = sampleTimeline tl (clamp01 p) /\
    (p < 0 -> sampleTimeline tl p = sampleTimeline tl 0) /\
    (1 < p -> sampleTimeline tl p = sampleTimeline tl 1).
Proof.
  intros tl p. split; [ apply sampleTimeline_clamped | ].
  split; intro H; rewrite sampleTimeline_clamped.
  - rewrite (clamp01_below p H). reflexivity.
  - rewrite (clamp01_above p H). reflexivity.
Qed.

(** X3.  Sampling at the [t] of an entry selects the segment that ends at
    that entry, with the fraction 1: on a timeline with non-decreasing
    [t] values, if entry [b] follows entry [a], [a.t < b.t] and [b.t] is
    in [0, 1], then the sample at progress [b.t] is
    [a + (b - a) * lambda] with [lambda = 1], on the positions and on
    the timestamps.  This is entry [b] up to the rounding of the
    subtraction and the addition. *)
Theorem sampleTimeline_at_entry :
  forall (tl : list TimelinePoint) (k : nat) (a b : TimelinePoint),
    nth_error tl k = Some a ->
    nth_error tl (S k) = Some b ->
    nonDecreasing (map tl_t tl) = true ->
    tl_t a < tl_t b ->
    0 <= tl_t b -> tl_t b <= 1 ->
    exists s lambda,
      sampleTimeline tl (tl_t b) = Done (Some s) /\
      lambda == 1 /\
      sample_position s
      = lerpVectors (tl_position a) (tl_position b) lambda /\
      sample_timestamp s
      = tl_timestamp a + (tl_timestamp b - tl_timestamp a) * lambda.
Proof.
  intros tl k a b Ha Hb Hs Hlt H0 H1.
  assert (Hc : clamp01 (tl_t b) == tl_t b)
    by (apply clamp01_inside; assumption).
  destruct (sampleTimeline_at_knot tl k a b (tl_t b) Ha Hb Hs) as [Hr Hl].
  - rewrite Hc. exact Hlt.
  - symmetry. exact Hc.
  - exists (interpolate a b (clamp01 (tl_t b))),
           (localT a b (clamp01 (tl_t b))).
    split; [ exact Hr | ]. split; [ exact Hl | ]. split; reflexivity.
Qed.

Lemma sampleTimeline_at_entry_witness :
  exists a b s lambda,
    nth_error (buildTimeline asteroidSamples) 0 = Some a /\
    nth_error (buildTimeline asteroidSamples) 1 = Some b /\
    sampleTimeline (buildTimeline asteroidSamples) (tl_t b)
    = Done (Some s) /\
    lambda == 1 /\
    sample_position s
    = lerpVectors (tl_position a) (tl_position b) lambda /\
    sample_timestamp s
    = tl_timestamp a + (tl_timestamp b - tl_timestamp a) * lambda.
Proof.
  do 2 eexists.
  edestruct (sampleTimeline_at_entry (buildTimeline asteroidSamples) 0)
    as (s & lambda & Hs & Hl & Hp & Ht);
    [ reflexivity | reflexivity | reflexivity | reflexivity
    | vm_compute; discriminate | vm_compute; discriminate | ].
  exists s, lambda.
  split; [ reflexivity | ]. split; [ reflexivity | ].
  split; [ exact Hs | ]. split; [ exact Hl | ].
  split; [ exact Hp | exact Ht ].
Defined.

(** ** Sampling a built timeline *)

Lemma built_entry_timestamp (points : list TrajectoryPoint) (i : nat)
  (entry : TimelinePoint) :
  nth_error (buildTimeline points) i = Some entry ->
  tl_timestamp entry = nth i (effectiveTimestamps points) 0.
Proof.
  intro H. rewrite <- buildTimeline_timestamps.
  symmetry. apply (nth_error_map_nth tl_timestamp). exact H.
Qed.

Lemma built_lastT (points : list TrajectoryPoint) :
  points <> [] -> lastT (buildTimeline points) = 1.
Proof.
  intro Hne.
  assert (Hpos : (0 < length points)%nat)
    by (destruct points; [ contradiction | simpl; lia ]).
  unfold lastT. rewrite buildTimeline_length.
  rewrite buildTimeline_nth_t by lia. apply builtT_last.
Qed.

(** The sample of a timeline built from ordered input, with the index of
    its bracket and the bounds of its timestamp. *)
Lemma built_sample (points : list TrajectoryPoint) (p : Q) :
  points <> [] ->
  nonDecreasing (effectiveTimestamps points) = true ->
  let tl := buildTimeline points in
  let ts := effectiveTimestamps points in
  let k := lowerIndex (map tl_t tl) (clamp01 p) in
  exists a b,
    (k < length points)%nat /\
    nth_error tl (k - 1) = Some a /\
    nth_error tl k = Some b /\
    sampleTimeline tl p = Done (Some (interpolate a b (clamp01 p))) /\
    (k = 0%nat \/ (tl_t a < clamp01 p /\ clamp01 p <= tl_t b)) /\
    nth (k - 1) ts 0 <= sample_timestamp (interpolate a b (clamp01 p)) /\
    sample_timestamp (interpolate a b (clamp01 p)) <= nth k ts 0.
Proof.
  intros Hne Hord tl ts k.
  assert (Hpos : (0 < length points)%nat)
    by (destruct points; [ contradiction | simpl; lia ]).
  assert (Htl : tl <> []).
  { intro E. apply (f_equal (@length TimelinePoint)) in E.
    unfold tl in E. rewrite buildTimeline_length in E. simpl in E. lia. }
  destruct (sampleTimeline_bracket tl p Htl) as (a & b & Ha & Hb & Hs & Hk).
  - apply ordered_buildTimeline_nonDecreasing. exact Hord.
  - unfold tl. rewrite built_lastT by exact Hne. apply clamp01_le_1.
  - fold k in Ha, Hb, Hk.
    assert (Hlt : (k < length points)%nat).
    { rewrite <- (buildTimeline_length points).
      apply nth_error_Some. fold tl. rewrite Hb. discriminate. }
    exists a, b. split; [ exact Hlt | ].
    split; [ exact Ha | ]. split; [ exact Hb | ].
    split; [ exact Hs | ]. split; [ exact Hk | ].
    unfold ts.
    rewrite <- (built_entry_timestamp points _ _ Ha).
    rewrite <- (built_entry_timestamp points _ _ Hb).
    destruct Hk as [E | [H1 H2]].
    + rewrite E in Ha, Hb. change (0 - 1)%nat with 0%nat in Ha.
      rewrite Ha in Hb.
      injection Hb as Hb. subst b.
      destruct (interpolate_same a (clamp01 p)) as [_ Ht].
      rewrite Ht. split; apply Qle_refl.
    + apply interpolate_timestamp_between; try assumption.
      rewrite (built_entry_timestamp points _ _ Ha).
      rewrite (built_entry_timestamp points _ _ Hb).
      apply nonDecreasing_nth_le;
        [ exact Hord | lia | rewrite effectiveTimestamps_length; exact Hlt ].
Qed.

(** X4.  A timeline built from ordered samples is sampled between two
    consecutive timestamps of its trajectory: for every progress the
    sampled timestamp is [ts_a + (ts_b - ts_a) * lambda] for the
    timestamps [ts_a <= ts_b] at two consecutive indices (or at the one
    index 0) and a fraction [lambda] in [0, 1], and both lie between the
    first and the last timestamp.  Over exact numbers the sampled
    timestamp is therefore inside the time range of the trajectory; the
    rounding of the three operations can move it by the last bit. *)
Theorem sampled_timestamp_between_samples :
  forall (points : list TrajectoryPoint) (progress : Q),
    points <> [] ->
    nonDecreasing (effectiveTimestamps points) = true ->
    let ts := effectiveTimestamps points in
    exists s k lambda,
      sampleTimeline (buildTimeline points) progress = Done (Some s) /\
      (k < length points)%nat /\
      0 <= lambda /\ lambda <= 1 /\
      sample_timestamp s
      == nth (k - 1) ts 0 + (nth k ts 0 - nth (k - 1) ts 0) * lambda /\
      nth 0 ts 0 <= nth (k - 1) ts 0 /\
      nth (k - 1) ts 0 <= nth k ts 0 /\
      nth k ts 0 <= nth (length ts - 1) ts 0.
Proof.
  intros points progress Hne Hord ts.
  destruct (built_sample points progress Hne Hord)
    as (a & b & Hk & Ha & Hb & Hs & Hbr & _ & _).
  set (k := lowerIndex (map tl_t (buildTimeline points)) (clamp01 progress))
    in *.
  assert (Hlen : length ts = length points)
    by apply effectiveTimestamps_length.
  assert (Eta : tl_timestamp a = nth (k - 1) ts 0)
    by (apply (built_entry_timestamp points _ _ Ha)).
  assert (Etb : tl_timestamp b = nth k ts 0)
    by (apply (built_entry_timestamp points _ _ Hb)).
  assert (Hfirst : nth 0 ts 0 <= nth (k - 1) ts 0)
    by (apply nonDecreasing_nth_le; [ exact Hord | lia | fold ts; lia ]).
  assert (Hmid : nth (k - 1) ts 0 <= nth k ts 0)
    by (apply nonDecreasing_nth_le; [ exact Hord | lia | fold ts; lia ]).
  assert (Hlast : nth k ts 0 <= nth (length ts - 1) ts 0)
    by (apply nonDecreasing_nth_le; [ exact Hord | lia | fold ts; lia ]).
  exists (interpolate a b (clamp01 progress)), k.
  destruct Hbr as [E | [H1 H2]].
  - exists 0. split; [ exact Hs | ]. split; [ exact Hk | ].
    split; [ apply Qle_refl | ]. split; [ discriminate | ].
    split; [ | split; [ exact Hfirst | split; [ exact Hmid | exact Hlast ] ] ].
    rewrite E in Ha, Hb. change (0 - 1)%nat with 0%nat in Ha.
    rewrite Ha in Hb. injection Hb as Hb. subst b.
    destruct (interpolate_same a (clamp01 progress)) as [_ Ht].
    rewrite Ht, <- Eta, <- Etb. ring.
  - destruct (localT_range a b (clamp01 progress) H1 H2) as (L0 & L1 & _).
    exists (localT a b (clamp01 progress)).
    split; [ exact Hs | ]. split; [ exact Hk | ].
    split; [ apply Qlt_le_weak; exact L0 | ]. split; [ exact L1 | ].
    split; [ | split; [ exact Hfirst | split; [ exact Hmid | exact Hlast ] ] ].
    unfold interpolate. cbn [sample_timestamp].
    rewrite Eta, Etb. reflexivity.
Qed.

Lemma sampled_timestamp_between_samples_witness :
  exists s k lambda,
    sampleTimeline (buildTimeline earthSamples) (1 / 3) = Done (Some s) /\
    (k < length earthSamples)%nat /\
    0 <= lambda /\ lambda <= 1 /\
    sample_timestamp s
    == nth (k - 1) (effectiveTimestamps earthSamples) 0
       + (nth k (effectiveTimestamps earthSamples) 0
          - nth (k - 1) (effectiveTimestamps earthSamples) 0) * lambda /\
    nth 0 (effectiveTimestamps earthSamples) 0
    <= nth (k - 1) (effectiveTimestamps earthSamples) 0 /\
    nth (k - 1) (effectiveTimestamps earthSamples) 0
    <= nth k (effectiveTimestamps earthSamples) 0 /\
    nth k (effectiveTimestamps earthSamples) 0
    <= nth (length (effectiveTimestamps earthSamples) - 1)
         (effectiveTimestamps earthSamples) 0.
Proof.
  assert (Hne : earthSamples <> []) by discriminate.
  exact (sampled_timestamp_between_samples earthSamples (1 / 3) Hne eq_refl).
Defined.

(** Of two samples of a timeline built from ordered samples, the one at
    the larger progress does not have the smaller timestamp. *)
Lemma sampled_timestamp_le :
  forall (points : list TrajectoryPoint) (p q : Q) (sp sq : TimelineSample),
    nonDecreasing (effectiveTimestamps points) = true ->
    p <= q ->
    sampleTimeline (buildTimeline points) p = Done (Some sp) ->
    sampleTimeline (buildTimeline points) q = Done (Some sq) ->
    sample_timestamp sp <= sample_timestamp sq.
Proof.
  intros points p q sp sq Hord Hpq Hsp Hsq.
  assert (Hne : points <> []).
  { intro E. rewrite E in Hsp. discriminate. }
  destruct (built_sample points p Hne Hord)
    as (a & b & Hk & Ha & Hb & Hs & Hbr & Hlo & Hhi).
  destruct (built_sample points q Hne Hord)
    as (a' & b' & Hk' & Ha' & Hb' & Hs' & Hbr' & Hlo' & Hhi').
  rewrite Hs in Hsp. injection Hsp as Hsp. subst sp.
  rewrite Hs' in Hsq. injection Hsq as Hsq. subst sq.
  set (tl := buildTimeline points) in *.
  set (k := lowerIndex (map tl_t tl) (clamp01 p)) in *.
  set (k' := lowerIndex (map tl_t tl) (clamp01 q)) in *.
  assert (Hc : clamp01 p <= clamp01 q) by (apply clamp01_monotone; exact Hpq).
  assert (Hkk : (k <= k')%nat) by (apply lowerIndex_monotone; exact Hc).
  destruct (Nat.eq_dec k k') as [E | E].
  - rewrite <- E in Ha', Hb', Hbr'.
    rewrite Ha in Ha'. injection Ha' as Ha'. subst a'.
    rewrite Hb in Hb'. injection Hb' as Hb'. subst b'.
    destruct Hbr as [E0 | [H1 H2]].
    + rewrite E0 in Ha, Hb. change (0 - 1)%nat with 0%nat in Ha.
      rewrite Ha in Hb.
      injection Hb as Hb. subst b.
      destruct (interpolate_same a (clamp01 p)) as [_ Ht1].
      destruct (interpolate_same a (clamp01 q)) as [_ Ht2].
      rewrite Ht1, Ht2. apply Qle_refl.
    + destruct Hbr' as [E0 | [H1' H2']].
      { exfalso. rewrite E0 in Ha, Hb. change (0 - 1)%nat with 0%nat in Ha.
        rewrite Ha in Hb. injection Hb as Hb. subst b. lra. }
      assert (Hts : tl_timestamp a <= tl_timestamp b).
      { rewrite (built_entry_timestamp points _ _ Ha).
        rewrite (built_entry_timestamp points _ _ Hb).
        apply nonDecreasing_nth_le;
          [ exact Hord | lia | rewrite effectiveTimestamps_length; exact Hk ]. }
      destruct (localT_range a b (clamp01 p) H1 H2) as (_ & _ & L1).
      destruct (localT_range a b (clamp01 q) H1' H2') as (_ & _ & L2).
      unfold interpolate. cbn [sample_timestamp].
      assert (Hl : localT a b (clamp01 p) <= localT a b (clamp01 q)).
      { rewrite L1, L2. apply Qdiv_le_compat_r; lra. }
      set (l1 := localT a b (clamp01 p)) in *.
      set (l2 := localT a b (clamp01 q)) in *.
      nra.
  - apply Qle_trans with (1 := Hhi).
    apply Qle_trans with (2 := Hlo').
    apply nonDecreasing_nth_le;
      [ exact Hord | lia | rewrite effectiveTimestamps_length; lia ].
Qed.

(** X5.  Playback time never runs backwards: on a timeline built from
    ordered samples, a larger progress never gives a smaller sampled
    timestamp (and both samples exist). *)
Theorem sampled_timestamp_monotone :
  forall (points : list TrajectoryPoint) (p q : Q),
    points <> [] ->
    nonDecreasing (effectiveTimestamps points) = true ->
    p <= q ->
    exists sp sq,
      sampleTimeline (buildTimeline points) p = Done (Some sp) /\
      sampleTimeline (buildTimeline points) q = Done (Some sq) /\
      sample_timestamp sp <= sample_timestamp sq.
Proof.
  intros points p q Hne Hord Hpq.
  assert (Hb : buildTimeline points <> []).
  { intro E. apply Hne. apply length_zero_iff_nil.
    rewrite <- (buildTimeline_length points), E. reflexivity. }
  destruct (sampleTimeline_returns (buildTimeline points) p Hb) as [sp Hsp].
  destruct (sampleTimeline_returns (buildTimeline points) q Hb) as [sq Hsq].
  exists sp, sq. split; [ exact Hsp | ]. split; [ exact Hsq | ].
  exact (sampled_timestamp_le points p q sp sq Hord Hpq Hsp Hsq).
Qed.

Lemma sampled_timestamp_monotone_witness :
  exists sp sq,
    sampleTimeline (buildTimeline earthSamples) (1 / 4) = Done (Some sp) /\
    sampleTimeline (buildTimeline earthSamples) (3 / 4) = Done (Some sq) /\
    sample_timestamp sp <= sample_timestamp sq.
Proof.
  apply (sampled_timestamp_monotone earthSamples (1 / 4) (3 / 4));
    [ discriminate | reflexivity | discriminate ].
Defined.

(** X6.  A timeline built from ordered samples is never extrapolated: for
    every progress the sampled position is [lerp(a, b, lambda)] for two
    entries [a], [b] of the timeline and a fraction [lambda] in [0, 1]. *)
Theorem sampled_position_within_segment :
  forall (points : list TrajectoryPoint) (progress : Q),
    points <> [] ->
    nonDecreasing (effectiveTimestamps points) = true ->
    exists s a b lambda,
      sampleTimeline (buildTimeline points) progress = Done (Some s) /\
      In a (buildTimeline points) /\
      In b (buildTimeline points) /\
      0 <= lambda /\ lambda <= 1 /\
      sample_position s
      =v= lerpVectors (tl_position a) (tl_position b) lambda.
Proof.
  intros points progress Hne Hord.
  destruct (built_sample points progress Hne Hord)
    as (a & b & Hk & Ha & Hb & Hs & Hbr & _).
  apply nth_error_In in Ha as Hia. apply nth_error_In in Hb as Hib.
  destruct Hbr as [E | [H1 H2]].
  - rewrite E in Ha, Hb. change (0 - 1)%nat with 0%nat in Ha.
      rewrite Ha in Hb.
    injection Hb as Hb. subst b.
    exists (interpolate a a (clamp01 progress)), a, a, 0.
    split; [ exact Hs | ]. split; [ exact Hia | ]. split; [ exact Hia | ].
    split; [ apply Qle_refl | ]. split; [ discriminate | ].
    apply veq_trans with (tl_position a).
    + apply interpolate_same.
    + apply veq_sym. apply lerpVectors_same.
  - destruct (localT_range a b (clamp01 progress) H1 H2) as (L0 & L1 & _).
    exists (interpolate a b (clamp01 progress)), a, b,
           (localT a b (clamp01 progress)).
    split; [ exact Hs | ]. split; [ exact Hia | ]. split; [ exact Hib | ].
    split; [ apply Qlt_le_weak; exact L0 | ]. split; [ exact L1 | ].
    apply veq_refl.
Qed.

Lemma sampled_position_within_segment_witness :
  exists s a b lambda,
    sampleTimeline (buildTimeline earthSamples) (1 / 3) = Done (Some s) /\
    In a (buildTimeline earthSamples) /\
    In b (buildTimeline earthSamples) /\
    0 <= lambda /\ lambda <= 1 /\
    sample_position s =v= lerpVectors (tl_position a) (tl_position b) lambda.
Proof.
  assert (Hne : earthSamples <> []) by discriminate.
  exact (sampled_position_within_segment earthSamples (1 / 3) Hne eq_refl).
Defined.

(** ** Timeline builder: further properties *)

Lemma map_mapi_from_value {A B C : Type} (f : nat -> A -> B) (g : B -> C)
  (h : A -> C) (l : list A) :
  (forall i a, g (f i a) = h a) ->
  forall k, map g (mapi_from f k l) = map h l.
Proof.
  intro Hgf. induction l as [ | a l IH ]; intro k; simpl.
  - reflexivity.
  - rewrite Hgf, IH. reflexivity.
Qed.

Lemma effectiveTimestamps_from_nth (l : list TrajectoryPoint) :
  forall k i p,
    nth_error l i = Some p ->
    nth i (mapi_from
             (fun index point =>
                match timestamp point with
                | Some ts => ts
                | None => ofNat index
                end) k l) 0
    = match timestamp p with
      | Some ts => ts
      | None => ofNat (k + i)
      end.
Proof.
  induction l as [ | a l IH ]; intros k [ | i ] p Hp; simpl in Hp;
    try discriminate.
  - injection Hp as Hp. subst a. simpl. rewrite Nat.add_0_r. reflexivity.
  - simpl. rewrite (IH (S k) i p Hp).
    replace (S k + i)%nat with (k + S i)%nat by lia. reflexivity.
Qed.

Lemma effectiveTimestamps_nth (points : list TrajectoryPoint) (i : nat)
  (p : TrajectoryPoint) :
  nth_error points i = Some p ->
  nth i (effectiveTimestamps points) 0
  = match timestamp p with
    | Some ts => ts
    | None => ofNat i
    end.
Proof. apply (effectiveTimestamps_from_nth points 0%nat). Qed.

(** X7.  The builder neither drops, reorders nor resamples: the timeline
    has one entry per sample, in order, whose position is the normalised
    position of the sample and whose timestamp is its effective timestamp
    (its own, or its index when it has none). *)
Theorem buildTimeline_passes_samples_through :
  forall points : list TrajectoryPoint,
    length (buildTimeline points) = length points /\
    map tl_position (buildTimeline points)
    = map (fun p => toScaledVector (position p)) points /\
    map tl_timestamp (buildTimeline points) = effectiveTimestamps points /\
    (forall i p, nth_error points i = Some p ->
                 nth i (effectiveTimestamps points) 0
                 = match timestamp p with
                   | Some ts => ts
                   | None => ofNat i
                   end).
Proof.
  intro points.
  split; [ apply buildTimeline_length | ].
  split.
  { destruct points as [ | p0 points' ]; [ reflexivity | ].
    unfold buildTimeline, mapi.
    apply map_mapi_from_value. intros i a. reflexivity. }
  split; [ apply buildTimeline_timestamps | ].
  intros i p Hp. apply effectiveTimestamps_nth. exact Hp.
Qed.

(** X8.  Whatever the timestamps are (out of order, repeated, missing),
    every [t] of a built timeline lies in [0, 1], the last [t] is exactly
    1, and with two samples or more the first [t] is 0. *)
Theorem buildTimeline_t_always_normalised :
  forall points : list TrajectoryPoint,
    let tl := buildTimeline points in
    (forall i, (i < length points)%nat ->
               0 <= nth i (map tl_t tl) 0 /\ nth i (map tl_t tl) 0 <= 1) /\
    (points <> [] -> lastT tl = 1) /\
    ((2 <= length points)%nat -> firstT tl == 0).
Proof.
  intros points tl. split.
  { intros i Hi. unfold tl. rewrite buildTimeline_nth_t by exact Hi.
    apply builtT_range. }
  split.
  - apply built_lastT.
  - intro Hn. unfold firstT, tl. rewrite buildTimeline_nth_t by lia.
    apply builtT_first. exact Hn.
Qed.

Lemma untimed_effectiveTimestamps (points : list TrajectoryPoint) :
  untimed points = true ->
  forall i, (i < length points)%nat ->
            nth i (effectiveTimestamps points) 0 = ofNat i.
Proof.
  intros Hu i Hi.
  destruct (nth_error points i) as [ p | ] eqn:Hp.
  - assert (Hin : In p points) by (apply nth_error_In with i; exact Hp).
    unfold untimed in Hu. rewrite forallb_forall in Hu.
    specialize (Hu p Hin).
    rewrite (effectiveTimestamps_nth points i p Hp).
    destruct (timestamp p); [ discriminate | reflexivity ].
  - apply nth_error_None in Hp. lia.
Qed.

Lemma ofNat_pred (n : nat) : (1 <= n)%nat -> ofNat (n - 1) == ofNat n - 1.
Proof.
  intro Hn. unfold ofNat.
  replace (Z.of_nat (n - 1)) with (Z.of_nat n - 1)%Z by lia.
  unfold Zminus. rewrite inject_Z_plus. reflexivity.
Qed.

Lemma ofNat_le (i j : nat) : (i <= j)%nat -> ofNat i <= ofNat j.
Proof. intro H. unfold ofNat. rewrite <- Zle_Qle. lia. Qed.

(** X9.  Samples without timestamps are spread evenly: with two samples
    or more, none of which has a timestamp, the entry at index [i] gets
    [t = i / (n - 1)]. *)
Theorem buildTimeline_untimed_evenly_spaced :
  forall points : list TrajectoryPoint,
    (2 <= length points)%nat ->
    untimed points = true ->
    forall i, (i < length points)%nat ->
              nth i (map tl_t (buildTimeline points)) 0
              == ofNat i / (ofNat (length points) - 1).
Proof.
  intros points Hn Hu i Hi.
  rewrite buildTimeline_nth_t by exact Hi.
  unfold builtT. rewrite effectiveTimestamps_length.
  rewrite !(untimed_effectiveTimestamps points Hu) by lia.
  assert (Hd := ofNat_gt_1 (length points) ltac:(lia)).
  assert (Hp := ofNat_pred (length points) ltac:(lia)).
  assert (H0 : ofNat 0 = 0) by reflexivity.
  rewrite H0.
  assert (Hspan : timelineSpan 0 (ofNat (length points - 1)) (length points)
                  = ofNat (length points - 1) - 0).
  { apply timelineSpan_distinct. rewrite Hp. intro E. lra. }
  rewrite Hspan.
  rewrite normalizedTime_positive_span by (rewrite Hp; lra).
  rewrite (untimed_effectiveTimestamps points Hu) by exact Hi.
  destruct (Nat.eqb_spec i (length points - 1)) as [E | E].
  - subst i. rewrite Hp. field. lra.
  - assert (Hle : ofNat i <= ofNat (length points - 1))
      by (apply ofNat_le; lia).
    assert (Hge : 0 <= ofNat i) by (apply (ofNat_le 0 i); lia).
    rewrite clamp01_inside.
    + rewrite Hp. field. lra.
    + apply Qle_shift_div_l; [ rewrite Hp; lra | lra ].
    + apply Qle_shift_div_r; [ rewrite Hp; lra | lra ].
Qed.

Lemma buildTimeline_untimed_evenly_spaced_witness :
  nth 1 (map tl_t (buildTimeline untimedSamples)) 0 == 1 / 1.
Proof.
  assert (Hn : (2 <= length untimedSamples)%nat) by (simpl; lia).
  assert (Hi : (1 < length untimedSamples)%nat) by (simpl; lia).
  exact (buildTimeline_untimed_evenly_spaced untimedSamples Hn eq_refl 1%nat Hi).
Defined.

Lemma Qeq_bool_compat (x x' y y' : Q) :
  x == x' -> y == y' -> Qeq_bool x y = Qeq_bool x' y'.
Proof.
  intros Hx Hy.
  destruct (Qeq_bool x y) eqn:E; destruct (Qeq_bool x' y') eqn:E';
    try reflexivity; exfalso.
  - apply Qeq_bool_iff in E. apply Qeq_bool_neq in E'. apply E'.
    rewrite <- Hx, <- Hy. exact E.
  - apply Qeq_bool_neq in E. apply Qeq_bool_iff in E'. apply E.
    rewrite Hx, Hy. exact E'.
Qed.

Lemma clamp01_compat (x y : Q) : x == y -> clamp01 x == clamp01 y.
Proof.
  intro H. apply Qle_antisym; apply clamp01_monotone; rewrite H;
    apply Qle_refl.
Qed.

Lemma timelineSpan_compat (first first' last last' : Q) (count : nat) :
  first == first' -> last == last' ->
  timelineSpan first last count == timelineSpan first' last' count.
Proof.
  intros Hf Hl. unfold timelineSpan.
  rewrite (Qeq_bool_compat last last' first first' Hl Hf).
  destruct (Qeq_bool last' first'); simpl.
  - reflexivity.
  - rewrite Hf, Hl. reflexivity.
Qed.

Lemma shiftTimestamps_length (c : Q) (points : list TrajectoryPoint) :
  length (shiftTimestamps c points) = length points.
Proof. apply length_map. Qed.

Lemma shiftTimestamps_nth (c : Q) (points : list TrajectoryPoint) :
  timed points = true ->
  forall i, (i < length points)%nat ->
            nth i (effectiveTimestamps (shiftTimestamps c points)) 0
            = nth i (effectiveTimestamps points) 0 + c.
Proof.
  intros Ht i Hi.
  destruct (nth_error points i) as [ p | ] eqn:Hp;
    [ | apply nth_error_None in Hp; lia ].
  assert (Hin : In p points) by (apply nth_error_In with i; exact Hp).
  unfold timed in Ht. rewrite forallb_forall in Ht. specialize (Ht p Hin).
  rewrite (effectiveTimestamps_nth points i p Hp).
  assert (Hp' : nth_error (shiftTimestamps c points) i
                = Some (mkTrajectoryPoint (position p)
                          (match timestamp p with
                           | Some ts => Some (ts + c)
                           | None => None
                           end) (velocity p))).
  { unfold shiftTimestamps. rewrite nth_error_map, Hp. reflexivity. }
  rewrite (effectiveTimestamps_nth _ i _ Hp'). cbn [timestamp].
  destruct (timestamp p); [ reflexivity | discriminate ].
Qed.

(** X10.  The normalisation does not depend on the origin of time: moving
    every timestamp of fully timestamped samples by the same amount leaves
    every [t] of the timeline unchanged. *)
Theorem buildTimeline_time_origin_invariant :
  forall (c : Q) (points : list TrajectoryPoint),
    timed points = true ->
    forall i, (i < length points)%nat ->
              nth i (map tl_t (buildTimeline (shiftTimestamps c points))) 0
              == nth i (map tl_t (buildTimeline points)) 0.
Proof.
  intros c points Ht i Hi.
  assert (Hpos : (0 < length points)%nat) by lia.
  rewrite !buildTimeline_nth_t
    by (rewrite ?shiftTimestamps_length; exact Hi).
  unfold builtT.
  rewrite !effectiveTimestamps_length, !shiftTimestamps_length.
  destruct (i =? length points - 1)%nat; [ reflexivity | ].
  apply clamp01_compat.
  set (ts := effectiveTimestamps points).
  set (ts' := effectiveTimestamps (shiftTimestamps c points)).
  assert (H0 : nth 0 ts' 0 = nth 0 ts 0 + c)
    by (apply shiftTimestamps_nth; [ exact Ht | lia ]).
  assert (Hl : nth (length points - 1) ts' 0
               = nth (length points - 1) ts 0 + c)
    by (apply shiftTimestamps_nth; [ exact Ht | lia ]).
  assert (Hn : nth i ts' 0 = nth i ts 0 + c)
    by (apply shiftTimestamps_nth; [ exact Ht | exact Hi ]).
  rewrite H0, Hl.
  set (first := nth 0 ts 0). set (last := nth (length points - 1) ts 0).
  assert (Hspan : timelineSpan (first + c) (last + c) (length points)
                  == timelineSpan first last (length points)).
  { unfold timelineSpan.
    assert (Hb : Qeq_bool (last + c) (first + c) = Qeq_bool last first).
    { destruct (Qeq_bool (last + c) (first + c)) eqn:E;
        destruct (Qeq_bool last first) eqn:E'; try reflexivity; exfalso.
      - apply Qeq_bool_iff in E. apply Qeq_bool_neq in E'. apply E'. lra.
      - apply Qeq_bool_neq in E. apply Qeq_bool_iff in E'. apply E. lra. }
    rewrite Hb. destruct (Qeq_bool last first); simpl; [ reflexivity | ring ]. }
  unfold normalizedTime. rewrite Hn.
  rewrite (Qeq_bool_compat _ (timelineSpan first last (length points)) 0 0
             Hspan (Qeq_refl 0)).
  destruct (Qeq_bool (timelineSpan first last (length points)) 0) eqn:E;
    simpl; [ reflexivity | ].
  apply Qeq_bool_neq in E.
  rewrite Hspan. field. exact E.
Qed.

Lemma buildTimeline_time_origin_invariant_witness :
  nth 1 (map tl_t (buildTimeline (shiftTimestamps 1000 earthSamples))) 0
  == nth 1 (map tl_t (buildTimeline earthSamples)) 0.
Proof.
  assert (Hi : (1 < length earthSamples)%nat) by (simpl; lia).
  exact (buildTimeline_time_origin_invariant 1000 earthSamples eq_refl
           1%nat Hi).
Defined.

(** ** Playback clock: further properties *)

Lemma Qdiv_nonpos (x y : Q) : x <= 0 -> 0 < y -> x / y <= 0.
Proof.
  intros Hx Hy.
  assert (H : x / y <= 0 / y) by (apply Qdiv_le_compat_r; assumption).
  setoid_replace (0 / y) with 0 in H by (field; lra). exact H.
Qed.

(** X11.  The tick contract: in a playing state with a positive duration,
    a frame of [deltaMs > 0] that stays below the end advances progress by
    exactly [deltaMs / duration], in the ref and in the store alike, and
    changes nothing else of the playback state. *)
Theorem animate_advances_by_increment :
  forall (s : SceneRefs) (deltaMs : Q),
    isPlaybackPlayingRef s = true ->
    0 < effectiveDuration s ->
    0 < deltaMs ->
    playbackProgressRef s + deltaMs / effectiveDuration s < 1 ->
    let s' := animate deltaMs s in
    playbackProgressRef s'
    == playbackProgressRef s + deltaMs / effectiveDuration s /\
    playbackProgress s' = playbackProgressRef s' /\
    isPlaybackPlayingRef s' = true /\
    playbackDurationRef s' = playbackDurationRef s.
Proof.
  intros s deltaMs Hplay Hdur Hdelta Hbelow s'.
  assert (Hinc := Qdiv_pos _ _ Hdelta Hdur).
  split; [ apply animate_advances; assumption | ].
  split.
  - unfold s', animate. rewrite Hplay.
    rewrite (proj2 (Qgtb_lt _ _) Hdur). rewrite (proj2 (Qgtb_lt _ _) Hinc).
    set (next := Qmin (playbackProgressRef s + deltaMs / effectiveDuration s) 1).
    assert (Hnext : next == playbackProgressRef s
                            + deltaMs / effectiveDuration s)
      by (apply Q.min_l; apply Qlt_le_weak; exact Hbelow).
    assert (Hne : Qeq_bool next (playbackProgressRef s) = false).
    { destruct (Qeq_bool next (playbackProgressRef s)) eqn:E;
        [ | reflexivity ].
      apply Qeq_bool_iff in E. rewrite Hnext in E. lra. }
    assert (Hlt : Qle_bool 1 next = false).
    { destruct (Qle_bool 1 next) eqn:E; [ | reflexivity ].
      apply Qle_bool_iff in E. rewrite Hnext in E. lra. }
    rewrite Hne, Hlt. reflexivity.
  - split.
    + unfold s'. rewrite animate_keeps_playing. exact Hplay.
    + apply animate_keeps_duration.
Qed.

Lemma animate_advances_by_increment_witness :
  playbackProgressRef (animate 1500 quarterPlaying) == 0.35.
Proof.
  assert (Hdur : 0 < effectiveDuration quarterPlaying) by reflexivity.
  assert (Hdelta : 0 < 1500) by reflexivity.
  assert (Hbelow : playbackProgressRef quarterPlaying
                   + 1500 / effectiveDuration quarterPlaying < 1)
    by reflexivity.
  pose proof (animate_advances_by_increment quarterPlaying 1500
                eq_refl Hdur Hdelta Hbelow) as K.
  cbv zeta in K. destruct K as [H _].
  rewrite H. reflexivity.
Defined.

(** The playback block changes nothing when the clock is paused or the
    frame has no positive length. *)
Lemma animate_idle (s : SceneRefs) (deltaMs : Q) :
  isPlaybackPlayingRef s = false \/ deltaMs <= 0 -> animate deltaMs s = s.
Proof.
  intros [H | Hd]; unfold animate.
  - rewrite H. reflexivity.
  - destruct (isPlaybackPlayingRef s); [ | reflexivity ].
    destruct (Qgtb (effectiveDuration s) 0) eqn:D; [ | reflexivity ].
    apply Qgtb_lt in D.
    assert (Hinc : Qgtb (deltaMs / effectiveDuration s) 0 = false).
    { apply Qgtb_false_le. apply Qdiv_nonpos; assumption. }
    rewrite Hinc. reflexivity.
Qed.

Lemma idleBlock_fields (earthMesh : bool) (deltaMs : Q) (s : SceneRefs) :
  let s' := idleBlock earthMesh deltaMs s in
  asteroidAnimationRef s' = asteroidAnimationRef s /\
  earthAnimationRef s' = earthAnimationRef s /\
  playbackDurationRef s' = playbackDurationRef s /\
  playbackProgressRef s' = playbackProgressRef s /\
  isPlaybackPlayingRef s' = isPlaybackPlayingRef s /\
  globalStartTsRef s' = globalStartTsRef s /\
  globalEndTsRef s' = globalEndTsRef s /\
  globalSpanRef s' = globalSpanRef s /\
  playbackProgress s' = playbackProgress s /\
  isPlaybackPlaying s' = isPlaybackPlaying s.
Proof.
  cbv zeta. destruct s as [a0 e0 d p b gs ge gsp idle sp sb].
  unfold idleBlock.
  cbn [earthAnimationRef asteroidAnimationRef idleSimulationTimeRef].
  destruct e0, a0; try (repeat split; reflexivity).
  destruct (earthMesh && Qle_bool 0 idle); repeat split; reflexivity.
Qed.

(** X12.  A frame does not move the playback when the clock is paused,
    and also when no time has passed since the previous frame (the first
    frame) or the wall clock stepped back: the progress, the playing flag
    (in the refs and in the store), the duration, the timelines and the
    span are left as they were.  The same frame still advances the idle
    time of the Earth, by [deltaMs / 1000 * IDLE_TIME_ACCELERATION], when
    no timeline is
    loaded, the Earth mesh exists and the idle time is not negative, and
    only then. *)
Theorem animate_without_effect :
  forall (earthMesh : bool) (s : SceneRefs) (deltaMs : Q),
    let s' := animateFrame earthMesh deltaMs s in
    (isPlaybackPlayingRef s = false \/ deltaMs <= 0 ->
     playbackProgressRef s' = playbackProgressRef s /\
     playbackProgress s' = playbackProgress s /\
     isPlaybackPlayingRef s' = isPlaybackPlayingRef s /\
     isPlaybackPlaying s' = isPlaybackPlaying s /\
     playbackDurationRef s' = playbackDurationRef s /\
     asteroidAnimationRef s' = asteroidAnimationRef s /\
     earthAnimationRef s' = earthAnimationRef s /\
     globalStartTsRef s' = globalStartTsRef s /\
     globalEndTsRef s' = globalEndTsRef s /\
     globalSpanRef s' = globalSpanRef s) /\
    idleSimulationTimeRef s'
    = match earthAnimationRef s, asteroidAnimationRef s with
      | None, None =>
        if earthMesh && Qle_bool 0 (idleSimulationTimeRef s)
        then idleSimulationTimeRef s
             + deltaMs / 1000 * IDLE_TIME_ACCELERATION
        else idleSimulationTimeRef s
      | _, _ => idleSimulationTimeRef s
      end.
Proof.
  intros earthMesh s deltaMs s'. unfold s', animateFrame. split.
  - intro H. rewrite (animate_idle s deltaMs H).
    destruct (idleBlock_fields earthMesh deltaMs s)
      as (A & E & D & P & B & GS & GE & GP & SP & SB).
    repeat split; assumption.
  - assert (Hrefs : asteroidAnimationRef (animate deltaMs s)
                    = asteroidAnimationRef s /\
                    earthAnimationRef (animate deltaMs s)
                    = earthAnimationRef s /\
                    idleSimulationTimeRef (animate deltaMs s)
                    = idleSimulationTimeRef s).
    { unfold animate. cbv zeta.
      repeat match goal with
             | |- context [if ?c then _ else _] => destruct c
             end;
        repeat split; reflexivity. }
    destruct Hrefs as (HA & HE & HI).
    unfold idleBlock. rewrite HA, HE, HI.
    destruct (earthAnimationRef s), (asteroidAnimationRef s);
      try exact HI.
    destruct (earthMesh && Qle_bool 0 (idleSimulationTimeRef s));
      [ reflexivity | exact HI ].
Qed.

Lemma animate_progress_range (deltaMs : Q) (s : SceneRefs) :
  0 <= playbackProgressRef s -> playbackProgressRef s <= 1 ->
  0 <= playbackProgressRef (animate deltaMs s) /\
  playbackProgressRef (animate deltaMs s) <= 1.
Proof.
  intros H0 H1. unfold animate.
  destruct (isPlaybackPlayingRef s); [ | split; assumption ].
  destruct (Qgtb (effectiveDuration s) 0); [ | split; assumption ].
  destruct (Qgtb (deltaMs / effectiveDuration s) 0) eqn:I;
    [ | split; assumption ].
  apply Qgtb_lt in I.
  set (next := Qmin (playbackProgressRef s + deltaMs / effectiveDuration s) 1).
  assert (Hn0 : 0 <= next) by (apply Q.min_glb; lra).
  assert (Hn1 : next <= 1) by apply Q.le_min_r.
  destruct (Qle_bool 1 next).
  - cbn. split; discriminate.
  - destruct (negb (Qeq_bool next (playbackProgressRef s))); cbn;
      split; assumption.
Qed.

(** X13.  Progress never leaves [0, 1]: from a state whose progress is in
    [0, 1], every run of frames, of any lengths, ends with progress in
    [0, 1]. *)
Theorem animate_keeps_progress_in_range :
  forall (deltas : list Q) (s : SceneRefs),
    0 <= playbackProgressRef s -> playbackProgressRef s <= 1 ->
    0 <= playbackProgressRef (animateAll deltas s) /\
    playbackProgressRef (animateAll deltas s) <= 1.
Proof.
  unfold animateAll. intro ds.
  induction ds as [ | d ds IH ]; intros s H0 H1; simpl.
  - split; assumption.
  - destruct (animate_progress_range d s H0 H1) as [K0 K1].
    apply IH; assumption.
Qed.

Lemma animate_keeps_progress_in_range_witness :
  0 <= playbackProgressRef (animateAll [16; 7000; 9000; 16] quarterPlaying) /\
  playbackProgressRef (animateAll [16; 7000; 9000; 16] quarterPlaying) <= 1.
Proof.
  assert (H0 : 0 <= playbackProgressRef quarterPlaying) by discriminate.
  assert (H1 : playbackProgressRef quarterPlaying <= 1) by discriminate.
  exact (animate_keeps_progress_in_range [16; 7000; 9000; 16]
           quarterPlaying H0 H1).
Defined.

Lemma mirrored_writeProgress (p : Q) (s : SceneRefs) :
  mirrored s -> mirrored (writeProgress p s).
Proof. intros [_ H]. split; [ reflexivity | exact H ]. Qed.

Lemma mirrored_writePlaying (b : bool) (s : SceneRefs) :
  mirrored s -> mirrored (writePlaying b s).
Proof. intros [H _]. split; [ exact H | reflexivity ]. Qed.

Lemma mirrored_animate (deltaMs : Q) (s : SceneRefs) :
  mirrored s -> mirrored (animate deltaMs s).
Proof.
  intro H. unfold animate.
  destruct (isPlaybackPlayingRef s); [ | exact H ].
  destruct (Qgtb (effectiveDuration s) 0); [ | exact H ].
  destruct (Qgtb (deltaMs / effectiveDuration s) 0); [ | exact H ].
  set (next := Qmin (playbackProgressRef s + deltaMs / effectiveDuration s) 1).
  assert (H1 : mirrored (if negb (Qeq_bool next (playbackProgressRef s))
                         then writeProgress next s else s)).
  { destruct (negb _); [ apply mirrored_writeProgress | ]; exact H. }
  destruct (Qle_bool 1 next); [ apply mirrored_writeProgress | ]; exact H1.
Qed.

Lemma mirrored_resetPlayback (s : SceneRefs) :
  mirrored s -> mirrored (resetPlayback s).
Proof.
  intro H. unfold resetPlayback.
  set (s1 := if negb (Qeq_bool (playbackProgressRef s) 0)
             then writeProgress 0 s else s).
  assert (H1 : mirrored s1).
  { unfold s1. destruct (negb _); [ apply mirrored_writeProgress | ];
      exact H. }
  destruct (isPlaybackPlayingRef s1); [ apply mirrored_writePlaying | ];
    exact H1.
Qed.

Lemma mirrored_ext (s s' : SceneRefs) :
  playbackProgress s' = playbackProgress s ->
  playbackProgressRef s' = playbackProgressRef s ->
  isPlaybackPlaying s' = isPlaybackPlaying s ->
  isPlaybackPlayingRef s' = isPlaybackPlayingRef s ->
  mirrored s -> mirrored s'.
Proof.
  intros H1 H2 H3 H4 [K1 K2]. split; congruence.
Qed.

Lemma mirrored_computeGlobalSpan (s : SceneRefs) :
  mirrored s -> mirrored (computeGlobalSpan s).
Proof.
  apply mirrored_ext; unfold computeGlobalSpan;
    destruct (timelineStart (asteroidAnimationRef s)
                ++ timelineStart (earthAnimationRef s));
    destruct (timelineEnd (asteroidAnimationRef s)
                ++ timelineEnd (earthAnimationRef s));
    reflexivity.
Qed.

Lemma mirrored_onSimulationData (sceneReady : bool)
  (data : option SimulationData) (mode : option SimulationMode)
  (s : SceneRefs) :
  mirrored s -> mirrored (onSimulationData sceneReady data mode s).
Proof.
  intro H. unfold onSimulationData.
  destruct sceneReady; cbn [negb]; [ | exact H ].
  assert (Hw : forall a e d, mirrored (writeDuration d (writeAnimations a e s)))
    by (intros a e d; exact H).
  destruct data as [ data | ].
  - destruct mode as [ [ | ] | ].
    + cbv zeta.
      apply (mirrored_ext (resetPlayback
               (writeDuration ASTEROID_ANIMATION_DURATION_MS
                  (writeAnimations None None s)))); try reflexivity.
      apply mirrored_resetPlayback. apply Hw.
    + cbv zeta.
      set (s1 := writeAnimations _ _ s).
      assert (H2 : mirrored (writeDuration ASTEROID_ANIMATION_DURATION_MS
                               (computeGlobalSpan s1))).
      { apply (mirrored_ext (computeGlobalSpan s1)); try reflexivity.
        apply mirrored_computeGlobalSpan. exact H. }
      destruct (Qgtb _ 1); [ apply mirrored_writeProgress | ]; exact H2.
    + cbv zeta.
      set (s1 := writeAnimations _ _ s).
      assert (H2 : mirrored (writeDuration ASTEROID_ANIMATION_DURATION_MS
                               (computeGlobalSpan s1))).
      { apply (mirrored_ext (computeGlobalSpan s1)); try reflexivity.
        apply mirrored_computeGlobalSpan. exact H. }
      destruct (Qgtb _ 1); [ apply mirrored_writeProgress | ]; exact H2.
  - cbv zeta. apply mirrored_resetPlayback.
    destruct (Qltb _ 0); [ | apply Hw ].
    apply (mirrored_ext (writeDuration ASTEROID_ANIMATION_DURATION_MS
                           (writeAnimations None None s)));
      try reflexivity.
    apply Hw.
Qed.

(** X14.  The refs and the store never drift apart: when the playback refs
    mirror the store, they still do after every run of frames and after
    every change of the simulation data; and the two sync effects
    establish the mirror from any state. *)
Theorem playback_refs_mirror_store :
  forall s : SceneRefs,
    mirrored (syncPlaybackRefs s) /\
    (mirrored s ->
     (forall deltas, mirrored (animateAll deltas s)) /\
     (forall sceneReady data mode,
        mirrored (onSimulationData sceneReady data mode s))).
Proof.
  intro s. split; [ split; reflexivity | ].
  intro H. split.
  - intro ds. revert s H. unfold animateAll.
    induction ds as [ | d ds IH ]; intros s H; simpl.
    + exact H.
    + apply IH. apply mirrored_animate. exact H.
  - intros sceneReady data mode. apply mirrored_onSimulationData. exact H.
Qed.

(** ** Loading simulation data: further properties *)

Lemma animationOf_none (tl : list TimelinePoint) (d : Q) :
  animationOf tl d = None <-> tl = [].
Proof.
  destruct tl; simpl; split; intro H; try reflexivity; discriminate.
Qed.

Lemma buildTimeline_nil (points : list TrajectoryPoint) :
  buildTimeline points = [] <-> points = [].
Proof.
  split; intro H.
  - apply (f_equal (@length TimelinePoint)) in H.
    rewrite buildTimeline_length in H. apply length_zero_iff_nil. exact H.
  - rewrite H. reflexivity.
Qed.

(** X15.  What a load leaves in the two animation refs.  Clearing the data
    and loading preview data leave no timeline.  Loading full-simulation
    data leaves, for each body, the timeline built from its trajectory
    with the duration 15000 ms, and no timeline exactly when the
    trajectory is empty. *)
Theorem onSimulationData_animations :
  forall (simulationData : option SimulationData)
         (simulationMode : option SimulationMode) (s : SceneRefs),
    let s' := onSimulationData true simulationData simulationMode s in
    match simulationData, simulationMode with
    | None, _ | Some _, Some preview =>
      asteroidAnimationRef s' = None /\ earthAnimationRef s' = None
    | Some data, _ =>
      asteroidAnimationRef s'
      = animationOf (buildTimeline (asteroid_trajectory data))
          ASTEROID_ANIMATION_DURATION_MS /\
      earthAnimationRef s'
      = animationOf (buildTimeline (earth_trajectory data))
          EARTH_ANIMATION_DURATION_MS /\
      (asteroidAnimationRef s' = None <-> asteroid_trajectory data = []) /\
      (earthAnimationRef s' = None <-> earth_trajectory data = [])
    end.
Proof.
  intros simulationData simulationMode s s'.
  assert (Hfull : forall data mode,
             mode <> Some preview ->
             let r := onSimulationData true (Some data) mode s in
             asteroidAnimationRef r
             = animationOf (buildTimeline (asteroid_trajectory data))
                 ASTEROID_ANIMATION_DURATION_MS /\
             earthAnimationRef r
             = animationOf (buildTimeline (earth_trajectory data))
                 EARTH_ANIMATION_DURATION_MS /\
             (asteroidAnimationRef r = None <-> asteroid_trajectory data = []) /\
             (earthAnimationRef r = None <-> earth_trajectory data = [])).
  { intros data mode Hmode r.
    pose proof (onSimulationData_full_refs data mode s Hmode) as K.
    cbv zeta in K. destruct K as (HA & HE & _).
    fold r in HA, HE.
    cbn [writeAnimations asteroidAnimationRef earthAnimationRef] in HA, HE.
    split; [ exact HA | ]. split; [ exact HE | ].
    rewrite HA, HE, !animationOf_none, !buildTimeline_nil.
    split; reflexivity. }
  destruct simulationData as [ data | ].
  - destruct simulationMode as [ [ | ] | ].
    + unfold s', onSimulationData. cbn [negb]. cbv zeta.
      unfold resetPlayback.
      destruct (negb _); cbn; destruct (isPlaybackPlayingRef s);
        split; reflexivity.
    + apply Hfull. discriminate.
    + apply Hfull. discriminate.
  - unfold s', onSimulationData. cbn [negb]. cbv zeta.
    unfold resetPlayback.
    destruct (Qltb _ 0); destruct (negb _); cbn;
      destruct (isPlaybackPlayingRef s); split; reflexivity.
Qed.

Lemma resetPlayback_span (s : SceneRefs) :
  globalStartTsRef (resetPlayback s) = globalStartTsRef s /\
  globalEndTsRef (resetPlayback s) = globalEndTsRef s /\
  globalSpanRef (resetPlayback s) = globalSpanRef s.
Proof.
  unfold resetPlayback.
  destruct (negb _); cbn; destruct (isPlaybackPlayingRef s);
    repeat split; reflexivity.
Qed.

Lemma computeGlobalSpan_span_at_least_1 (s : SceneRefs) :
  1 <= globalSpanRef s -> 1 <= globalSpanRef (computeGlobalSpan s).
Proof.
  intro H. unfold computeGlobalSpan.
  destruct (timelineStart (asteroidAnimationRef s)
              ++ timelineStart (earthAnimationRef s));
    destruct (timelineEnd (asteroidAnimationRef s)
                ++ timelineEnd (earthAnimationRef s));
    try exact H.
  cbn. apply Q.le_max_r.
Qed.

(** X16.  The global span is never below 1, so it is safe as a divisor:
    if it is at least 1 (as it is when [Scene] mounts), it still is after
    every load, whatever the data, the mode and the timestamps. *)
Theorem globalSpan_at_least_one :
  forall (sceneReady : bool) (data : option SimulationData)
         (mode : option SimulationMode) (s : SceneRefs),
    1 <= globalSpanRef s ->
    1 <= globalSpanRef (onSimulationData sceneReady data mode s).
Proof.
  intros sceneReady data mode s H. unfold onSimulationData.
  destruct sceneReady; cbn [negb]; [ | exact H ].
  destruct data as [ data | ].
  - destruct mode as [ [ | ] | ]; cbv zeta.
    + cbn. destruct (resetPlayback_span
                       (writeDuration ASTEROID_ANIMATION_DURATION_MS
                          (writeAnimations None None s))) as (_ & _ & E).
      rewrite E. exact H.
    + set (s1 := writeAnimations _ _ s).
      assert (H1 := computeGlobalSpan_span_at_least_1 s1 H).
      destruct (Qgtb _ 1); exact H1.
    + set (s1 := writeAnimations _ _ s).
      assert (H1 := computeGlobalSpan_span_at_least_1 s1 H).
      destruct (Qgtb _ 1); exact H1.
  - cbv zeta.
    match goal with
    | |- 1 <= globalSpanRef (resetPlayback ?x) =>
      destruct (resetPlayback_span x) as (_ & _ & E)
    end.
    rewrite E. destruct (Qltb _ 0); exact H.
Qed.

Lemma globalSpan_at_least_one_witness :
  1 <= globalSpanRef
         (onSimulationData true (Some fullSimulation) (Some full) initialRefs).
Proof.
  assert (H : 1 <= globalSpanRef initialRefs) by discriminate.
  exact (globalSpan_at_least_one true (Some fullSimulation) (Some full)
           initialRefs H).
Defined.

(** X17.  The span refs are recomputed only by a full-simulation load with
    a non-empty trajectory.  Clearing the data, loading preview data, or
    loading full-simulation data whose two trajectories are empty leaves
    the start, the end and the span of the previous load in place. *)
Theorem globalSpan_kept_without_timelines :
  forall (simulationData : option SimulationData)
         (simulationMode : option SimulationMode) (s : SceneRefs),
    let s' := onSimulationData true simulationData simulationMode s in
    let kept :=
      globalStartTsRef s' = globalStartTsRef s /\
      globalEndTsRef s' = globalEndTsRef s /\
      globalSpanRef s' = globalSpanRef s in
    match simulationData, simulationMode with
    | None, _ | Some _, Some preview => kept
    | Some data, _ =>
      asteroid_trajectory data = [] -> earth_trajectory data = [] -> kept
    end.
Proof.
  intros simulationData simulationMode s s' kept.
  assert (Hempty : forall data mode,
             mode <> Some preview ->
             asteroid_trajectory data = [] -> earth_trajectory data = [] ->
             let r := onSimulationData true (Some data) mode s in
             globalStartTsRef r = globalStartTsRef s /\
             globalEndTsRef r = globalEndTsRef s /\
             globalSpanRef r = globalSpanRef s).
  { intros data mode Hmode Ha He r.
    pose proof (onSimulationData_full_refs data mode s Hmode) as K.
    cbv zeta in K. destruct K as (_ & _ & HS & HN & HP).
    fold r in HS, HN, HP. rewrite HS, HN, HP, Ha, He.
    repeat split; reflexivity. }
  destruct simulationData as [ data | ].
  - destruct simulationMode as [ [ | ] | ].
    + unfold kept, s', onSimulationData. cbn [negb]. cbv zeta.
      cbn [writeIdleTime globalStartTsRef globalEndTsRef globalSpanRef].
      match goal with
      | |- globalStartTsRef (resetPlayback ?x) = _ /\ _ =>
        destruct (resetPlayback_span x) as (E1 & E2 & E3)
      end.
      rewrite E1, E2, E3. repeat split; reflexivity.
    + intros Ha He. apply Hempty; [ discriminate | exact Ha | exact He ].
    + intros Ha He. apply Hempty; [ discriminate | exact Ha | exact He ].
  - unfold kept, s', onSimulationData. cbn [negb]. cbv zeta.
    match goal with
    | |- globalStartTsRef (resetPlayback ?x) = _ /\ _ =>
      destruct (resetPlayback_span x) as (E1 & E2 & E3)
    end.
    rewrite E1, E2, E3. destruct (Qltb _ 0); repeat split; reflexivity.
Qed.

Lemma sceneRefs_ext (s s' : SceneRefs) :
  asteroidAnimationRef s = asteroidAnimationRef s' ->
  earthAnimationRef s = earthAnimationRef s' ->
  playbackDurationRef s = playbackDurationRef s' ->
  playbackProgressRef s = playbackProgressRef s' ->
  isPlaybackPlayingRef s = isPlaybackPlayingRef s' ->
  globalStartTsRef s = globalStartTsRef s' ->
  globalEndTsRef s = globalEndTsRef s' ->
  globalSpanRef s = globalSpanRef s' ->
  idleSimulationTimeRef s = idleSimulationTimeRef s' ->
  playbackProgress s = playbackProgress s' ->
  isPlaybackPlaying s = isPlaybackPlaying s' ->
  s = s'.
Proof.
  destruct s, s'. cbn. intros. subst. reflexivity.
Qed.

Lemma resetPlayback_idempotent (s : SceneRefs) :
  resetPlayback (resetPlayback s) = resetPlayback s.
Proof.
  unfold resetPlayback at 1.
  destruct (resetPlayback_resets s) as [Hp Hb].
  apply Qeq_bool_iff in Hp. rewrite Hp. cbn [negb]. rewrite Hb.
  reflexivity.
Qed.

Lemma fullLoad_unfold (data : SimulationData) (mode : option SimulationMode)
  (s : SceneRefs) :
  mode <> Some preview ->
  onSimulationData true (Some data) mode s
  = (let s3 :=
       writeDuration ASTEROID_ANIMATION_DURATION_MS
         (computeGlobalSpan
            (writeAnimations
               (animationOf (buildTimeline (asteroid_trajectory data))
                  ASTEROID_ANIMATION_DURATION_MS)
               (animationOf (buildTimeline (earth_trajectory data))
                  EARTH_ANIMATION_DURATION_MS) s)) in
     if Qgtb (playbackProgressRef s3) 1 then writeProgress 1 s3 else s3).
Proof.
  intro Hmode. unfold onSimulationData. cbn [negb].
  destruct mode as [ [ | ] | ]; [ contradiction | | ]; reflexivity.
Qed.

Lemma computeGlobalSpan_written (A E : option TimelineAnimation)
  (s : SceneRefs) :
  computeGlobalSpan (writeAnimations A E s)
  = match timelineStart A ++ timelineStart E,
          timelineEnd A ++ timelineEnd E with
    | s0 :: ss, e0 :: es =>
      writeGlobalSpan (minOf s0 ss) (maxOf e0 es)
        (Qmax (maxOf e0 es - minOf s0 ss) 1) (writeAnimations A E s)
    | _, _ => writeAnimations A E s
    end.
Proof. reflexivity. Qed.

Lemma fullLoad_idempotent (A E : option TimelineAnimation) (s : SceneRefs) :
  let load := fun st =>
    let s3 := writeDuration ASTEROID_ANIMATION_DURATION_MS
                (computeGlobalSpan (writeAnimations A E st)) in
    if Qgtb (playbackProgressRef s3) 1 then writeProgress 1 s3 else s3 in
  load (load s) = load s.
Proof.
  cbv beta zeta. rewrite !computeGlobalSpan_written.
  generalize (timelineStart A ++ timelineStart E) as starts.
  generalize (timelineEnd A ++ timelineEnd E) as ends.
  intros ends starts.
  destruct s as [a0 e0 d p b gs ge gsp idle sp sb].
  destruct starts as [ | f fs ]; destruct ends as [ | l ls ];
    cbn [writeAnimations writeDuration writeGlobalSpan writeProgress
         asteroidAnimationRef earthAnimationRef playbackDurationRef
         playbackProgressRef isPlaybackPlayingRef globalStartTsRef
         globalEndTsRef globalSpanRef idleSimulationTimeRef playbackProgress
         isPlaybackPlaying];
    destruct (Qgtb p 1) eqn:P;
    cbn [writeAnimations writeDuration writeGlobalSpan writeProgress
         asteroidAnimationRef earthAnimationRef playbackDurationRef
         playbackProgressRef isPlaybackPlayingRef globalStartTsRef
         globalEndTsRef globalSpanRef idleSimulationTimeRef playbackProgress
         isPlaybackPlaying];
    rewrite ?P; try change (Qgtb 1 1) with false; reflexivity.
Qed.

Lemma clearLoad_value (a0 e0 : option TimelineAnimation) (d p : Q) (b : bool)
  (gs ge : option Q) (gsp idle sp : Q) (sb : bool) :
  onSimulationData true None None
    (mkSceneRefs a0 e0 d p b gs ge gsp idle sp sb)
  = mkSceneRefs None None ASTEROID_ANIMATION_DURATION_MS
      (if Qeq_bool p 0 then p else 0) false gs ge gsp
      (if Qltb idle 0 then 0 else idle)
      (if Qeq_bool p 0 then sp else 0)
      (if b then false else sb).
Proof.
  unfold onSimulationData. cbn [negb]. cbv zeta.
  unfold writeAnimations, writeDuration.
  cbn [playbackDurationRef playbackProgressRef isPlaybackPlayingRef
       globalStartTsRef globalEndTsRef globalSpanRef idleSimulationTimeRef
       playbackProgress isPlaybackPlaying asteroidAnimationRef
       earthAnimationRef].
  destruct (Qltb idle 0); unfold resetPlayback, writeIdleTime;
    cbn [playbackDurationRef playbackProgressRef isPlaybackPlayingRef
         globalStartTsRef globalEndTsRef globalSpanRef idleSimulationTimeRef
         playbackProgress isPlaybackPlaying asteroidAnimationRef
         earthAnimationRef];
    destruct (Qeq_bool p 0); destruct b; reflexivity.
Qed.

Lemma clearLoad_idempotent (s : SceneRefs) :
  onSimulationData true None None (onSimulationData true None None s)
  = onSimulationData true None None s.
Proof.
  destruct s as [a0 e0 d p b gs ge gsp idle sp sb].
  rewrite !clearLoad_value.
  assert (Hp : Qeq_bool (if Qeq_bool p 0 then p else 0) 0 = true)
    by (destruct (Qeq_bool p 0) eqn:P; [ exact P | reflexivity ]).
  assert (Hi : Qltb (if Qltb idle 0 then 0 else idle) 0 = false)
    by (destruct (Qltb idle 0) eqn:I; [ reflexivity | exact I ]).
  rewrite Hp, Hi. reflexivity.
Qed.

Lemma previewLoad_value (data : SimulationData)
  (a0 e0 : option TimelineAnimation) (d p : Q) (b : bool)
  (gs ge : option Q) (gsp idle sp : Q) (sb : bool) :
  onSimulationData true (Some data) (Some preview)
    (mkSceneRefs a0 e0 d p b gs ge gsp idle sp sb)
  = mkSceneRefs None None ASTEROID_ANIMATION_DURATION_MS
      (if Qeq_bool p 0 then p else 0) false gs ge gsp (-1)
      (if Qeq_bool p 0 then sp else 0)
      (if b then false else sb).
Proof.
  unfold onSimulationData. cbn [negb]. cbv zeta.
  unfold writeAnimations, writeDuration, resetPlayback, writeIdleTime.
  cbn [playbackDurationRef playbackProgressRef isPlaybackPlayingRef
       globalStartTsRef globalEndTsRef globalSpanRef idleSimulationTimeRef
       playbackProgress isPlaybackPlaying asteroidAnimationRef
       earthAnimationRef].
  destruct (Qeq_bool p 0); destruct b; reflexivity.
Qed.

Lemma previewLoad_idempotent (data : SimulationData) (s : SceneRefs) :
  onSimulationData true (Some data) (Some preview)
    (onSimulationData true (Some data) (Some preview) s)
  = onSimulationData true (Some data) (Some preview) s.
Proof.
  destruct s as [a0 e0 d p b gs ge gsp idle sp sb].
  rewrite !previewLoad_value.
  assert (Hp : Qeq_bool (if Qeq_bool p 0 then p else 0) 0 = true)
    by (destruct (Qeq_bool p 0) eqn:P; [ exact P | reflexivity ]).
  rewrite Hp. reflexivity.
Qed.

(** X18.  Running the load effect a second time with the same simulation
    data and mode changes nothing: the handler is idempotent on every
    path and for every state of the refs. *)
Theorem onSimulationData_idempotent :
  forall (sceneReady : bool) (data : option SimulationData)
         (mode : option SimulationMode) (s : SceneRefs),
    onSimulationData sceneReady data mode
      (onSimulationData sceneReady data mode s)
    = onSimulationData sceneReady data mode s.
Proof.
  intros sceneReady data mode s.
  destruct sceneReady; [ | reflexivity ].
  destruct data as [ data | ].
  - destruct mode as [ [ | ] | ].
    + apply previewLoad_idempotent.
    + rewrite !(fullLoad_unfold data (Some full)) by discriminate.
      apply (fullLoad_idempotent _ _ s).
    + rewrite !(fullLoad_unfold data None) by discriminate.
      apply (fullLoad_idempotent _ _ s).
  - destruct mode as [ m | ]; [ | apply clearLoad_idempotent ].
    exact (clearLoad_idempotent s).
Qed.

(** ** Playback controls *)

Lemma Qfloor_unique (x : Q) (n : Z) :
  inject_Z n <= x -> x < inject_Z n + 1 -> Qfloor x = n.
Proof.
  intros H1 H2.
  assert (Ha := Qfloor_le x). assert (Hb := Qlt_floor x).
  rewrite inject_Z_plus in Hb. change (inject_Z 1) with 1 in Hb.
  assert (L1 : (Qfloor x < n + 1)%Z).
  { rewrite Zlt_Qlt. rewrite inject_Z_plus. change (inject_Z 1) with 1. lra. }
  assert (L2 : (n < Qfloor x + 1)%Z).
  { rewrite Zlt_Qlt. rewrite inject_Z_plus. change (inject_Z 1) with 1. lra. }
  lia.
Qed.

Lemma Qfloor_div_bounds (x k : Q) :
  0 < k ->
  k * inject_Z (Qfloor (x / k)) <= x /\ x < k * inject_Z (Qfloor (x / k)) + k.
Proof.
  intro Hk.
  assert (Ha := Qfloor_le (x / k)). assert (Hb := Qlt_floor (x / k)).
  rewrite inject_Z_plus in Hb. change (inject_Z 1) with 1 in Hb.
  assert (E : x == x / k * k) by (field; lra).
  set (q := x / k) in *. set (n := inject_Z (Qfloor q)) in *.
  split; nra.
Qed.

Lemma jsRemQ_nonneg (a b : Q) :
  0 <= a -> 0 < b ->
  jsRemQ a b == a - b * inject_Z (Qfloor (a / b)) /\
  0 <= jsRemQ a b /\ jsRemQ a b < b.
Proof.
  intros Ha Hb. unfold jsRemQ, Qtrunc.
  assert (Hq : 0 <= a / b).
  { apply Qle_shift_div_l; [ exact Hb | lra ]. }
  apply Qle_bool_iff in Hq. rewrite Hq.
  destruct (Qfloor_div_bounds a b Hb) as [H1 H2].
  split; [ reflexivity | ]. split; lra.
Qed.

(** The fields of the clock display, over exact numbers. *)
Lemma clockFields_fields (seconds : Q) :
  let f := clockFields seconds in
  (0 <= days f)%Z /\
  (0 <= hours f < 24)%Z /\
  (0 <= minutes f < 60)%Z /\
  (0 <= secs f < 60)%Z /\
  (days f * 86400 + hours f * 3600 + minutes f * 60 + secs f
   = Qfloor (Qabs seconds))%Z.
Proof.
  intro f.
  set (v := Qabs seconds).
  assert (Hv : 0 <= v) by apply Qabs_nonneg.
  destruct (jsRemQ_nonneg v 86400 Hv) as (Er & Hr0 & Hr1); [ reflexivity | ].
  set (r := jsRemQ v 86400) in *.
  destruct (Qfloor_div_bounds v 86400) as [HD1 HD2]; [ reflexivity | ].
  destruct (Qfloor_div_bounds r 3600) as [HH1 HH2]; [ reflexivity | ].
  destruct (jsRemQ_nonneg r 3600 Hr0) as (Er2 & Hr20 & Hr21);
    [ reflexivity | ].
  set (r2 := jsRemQ r 3600) in *.
  destruct (Qfloor_div_bounds r2 60) as [HM1 HM2]; [ reflexivity | ].
  destruct (jsRemQ_nonneg r 60 Hr0) as (Er3 & Hr30 & Hr31); [ reflexivity | ].
  set (r3 := jsRemQ r 60) in *.
  destruct (Qfloor_div_bounds r 60) as [HK1 HK2]; [ reflexivity | ].
  assert (HS1 := Qfloor_le r3). assert (HS2 := Qlt_floor r3).
  rewrite inject_Z_plus in HS2. change (inject_Z 1) with 1 in HS2.
  change (days f) with (Qfloor (v / 86400)).
  change (hours f) with (Qfloor (r / 3600)).
  change (minutes f) with (Qfloor (r2 / 60)).
  change (secs f) with (Qfloor r3).
  set (D := Qfloor (v / 86400)) in *.
  set (H := Qfloor (r / 3600)) in *.
  set (M := Qfloor (r2 / 60)) in *.
  set (K := Qfloor (r / 60)) in *.
  set (S := Qfloor r3) in *.
  assert (ZD : (0 <= D)%Z).
  { assert (L : (-1 < D)%Z)
      by (rewrite Zlt_Qlt; change (inject_Z (-1)) with (-1); lra).
    lia. }
  assert (ZH : (0 <= H < 24)%Z).
  { assert (L1 : (-1 < H)%Z)
      by (rewrite Zlt_Qlt; change (inject_Z (-1)) with (-1); lra).
    assert (L2 : (H < 24)%Z)
      by (rewrite Zlt_Qlt; change (inject_Z 24) with 24; lra).
    lia. }
  assert (ZM : (0 <= M < 60)%Z).
  { assert (L1 : (-1 < M)%Z)
      by (rewrite Zlt_Qlt; change (inject_Z (-1)) with (-1); lra).
    assert (L2 : (M < 60)%Z)
      by (rewrite Zlt_Qlt; change (inject_Z 60) with 60; lra).
    lia. }
  assert (ZS : (0 <= S < 60)%Z).
  { assert (L1 : (-1 < S)%Z)
      by (rewrite Zlt_Qlt; change (inject_Z (-1)) with (-1); lra).
    assert (L2 : (S < 60)%Z)
      by (rewrite Zlt_Qlt; change (inject_Z 60) with 60; lra).
    lia. }
  assert (ZK : (K = 60 * H + M)%Z).
  { assert (L1 : (K < 60 * H + M + 1)%Z).
    { rewrite Zlt_Qlt. rewrite !inject_Z_plus, inject_Z_mult.
      change (inject_Z 60) with 60. change (inject_Z 1) with 1. lra. }
    assert (L2 : (60 * H + M < K + 1)%Z).
    { rewrite Zlt_Qlt. rewrite !inject_Z_plus, inject_Z_mult.
      change (inject_Z 60) with 60. change (inject_Z 1) with 1. lra. }
    lia. }
  split; [ exact ZD | ]. split; [ exact ZH | ].
  split; [ exact ZM | ]. split; [ exact ZS | ].
  symmetry. apply Qfloor_unique.
  - rewrite !inject_Z_plus, !inject_Z_mult.
    change (inject_Z 86400) with 86400. change (inject_Z 3600) with 3600.
    change (inject_Z 60) with 60.
    assert (EK : inject_Z K == 60 * inject_Z H + inject_Z M).
    { rewrite ZK, inject_Z_plus, inject_Z_mult. reflexivity. }
    lra.
  - rewrite !inject_Z_plus, !inject_Z_mult.
    change (inject_Z 86400) with 86400. change (inject_Z 3600) with 3600.
    change (inject_Z 60) with 60.
    assert (EK : inject_Z K == 60 * inject_Z H + inject_Z M).
    { rewrite ZK, inject_Z_plus, inject_Z_mult. reflexivity. }
    lra.
Qed.

(** X19.  No time is lost in the clock display: for every number of
    seconds below [2^53] in absolute value, the hours, minutes and seconds
    that [formatSeconds] prints are within 0..23, 0..59 and 0..59, the days
    are not negative, and together the four fields are exactly the whole
    seconds of [|seconds|], a whole number below [2^53].  (Below [2^53]
    binary64 holds every whole number, so [Math.floor] and [%] give these
    fields; above it the display loses seconds.) *)
Theorem clockFields_decompose :
  forall seconds : Q,
    Qabs seconds < 9007199254740992 ->
    let f := clockFields seconds in
    (0 <= days f)%Z /\
    (0 <= hours f < 24)%Z /\
    (0 <= minutes f < 60)%Z /\
    (0 <= secs f < 60)%Z /\
    (days f * 86400 + hours f * 3600 + minutes f * 60 + secs f
     = Qfloor (Qabs seconds))%Z /\
    (days f * 86400 + hours f * 3600 + minutes f * 60 + secs f
     < 9007199254740992)%Z.
Proof.
  intros seconds Hbound f.
  destruct (clockFields_fields seconds) as (HD & HH & HM & HS & Hsum).
  fold f in HD, HH, HM, HS, Hsum.
  split; [ exact HD | ]. split; [ exact HH | ]. split; [ exact HM | ].
  split; [ exact HS | ]. split; [ exact Hsum | ].
  rewrite Hsum. rewrite Zlt_Qlt.
  apply Qle_lt_trans with (Qabs seconds); [ apply Qfloor_le | exact Hbound ].
Qed.

Lemma clockFields_decompose_witness :
  let f := clockFields 93784.5 in
  (0 <= days f)%Z /\
  (0 <= hours f < 24)%Z /\
  (0 <= minutes f < 60)%Z /\
  (0 <= secs f < 60)%Z /\
  (days f * 86400 + hours f * 3600 + minutes f * 60 + secs f
   = Qfloor (Qabs 93784.5))%Z /\
  (days f * 86400 + hours f * 3600 + minutes f * 60 + secs f
   < 9007199254740992)%Z.
Proof.
  apply (clockFields_decompose 93784.5). reflexivity.
Defined.

(** X20.  Every slider position survives the trip through the store: a
    whole slider value [v] in 0..1000 passed to [handleChange] is stored as
    progress [v / 1000], which the slider shows as [v] again; and whatever
    value the slider reports, the stored progress lies in [0, 1]. *)
Theorem slider_round_trip :
  forall (s : SceneRefs) (value : Q),
    0 <= playbackProgress (handleChange value s) /\
    playbackProgress (handleChange value s) <= 1 /\
    forall v : Z, (0 <= v <= 1000)%Z -> value = inject_Z v ->
                  sliderValue (handleChange value s) = v.
Proof.
  intros s value.
  unfold handleChange, sliderValue, setPlaybackProgress, mathRound.
  cbn [playbackProgress].
  set (c := Qmin (Qmax value 0) 1000).
  assert (Hc0 : 0 <= c) by (apply Q.min_glb; [ apply Q.le_max_r | discriminate ]).
  assert (Hc1 : c <= 1000) by apply Q.le_min_r.
  split; [ apply Qle_shift_div_l; [ reflexivity | lra ] | ].
  split; [ apply Qle_shift_div_r; [ reflexivity | lra ] | ].
  intros v [Hv0 Hv1] Hvalue.
  assert (Q0 : 0 <= inject_Z v)
    by (change 0 with (inject_Z 0); rewrite <- Zle_Qle; exact Hv0).
  assert (Q1 : inject_Z v <= 1000)
    by (change 1000 with (inject_Z 1000); rewrite <- Zle_Qle; exact Hv1).
  assert (Ec : c == inject_Z v).
  { unfold c. rewrite Hvalue.
    rewrite (Q.max_l _ 0 Q0). apply Q.min_l. exact Q1. }
  apply Qfloor_unique.
  - setoid_replace (c / 1000 * 1000) with c by field.
    rewrite Ec. change (1 / 2) with (1 # 2).
    generalize (inject_Z v). intro q. lra.
  - setoid_replace (c / 1000 * 1000) with c by field.
    rewrite Ec. change (1 / 2) with (1 # 2).
    generalize (inject_Z v). intro q. lra.
Qed.

(** X21.  Play never starts at the end of the timeline: after
    [handlePlayPause] the playing flag of the store is toggled, the refs
    are untouched, and if the clock is now playing its stored progress is
    below 0.999 (a paused clock at the end is rewound to 0 first). *)
Theorem handlePlayPause_rewinds_at_end :
  forall s : SceneRefs,
    let s' := handlePlayPause s in
    isPlaybackPlaying s' = negb (isPlaybackPlaying s) /\
    playbackProgressRef s' = playbackProgressRef s /\
    isPlaybackPlayingRef s' = isPlaybackPlayingRef s /\
    (isPlaybackPlaying s' = true -> playbackProgress s' < 0.999) /\
    (isPlaybackPlaying s = false -> 0.999 <= playbackProgress s ->
     playbackProgress s' = 0).
Proof.
  intros s s'. unfold s', handlePlayPause.
  destruct (isPlaybackPlaying s) eqn:P; cbn [negb andb].
  - cbn. repeat split; try discriminate.
  - destruct (Qle_bool 0.999 (playbackProgress s)) eqn:E; cbn.
    + repeat split; reflexivity.
    + repeat split.
      * intros _. apply Qnot_le_lt. intro H. apply Qle_bool_iff in H.
        congruence.
      * intros _ H. apply Qle_bool_iff in H. congruence.
Qed.

Lemma sorted_nonDecreasing (l : list Q) :
  Sorted.Sorted (fun x y => is_true (NumberOrder.leb x y)) l ->
  nonDecreasing l = true.
Proof.
  induction l as [ | a l IH ]; intro H; [ reflexivity | ].
  inversion H as [ | a' l' Hl Hhd ]; subst.
  destruct l as [ | b l ]; [ reflexivity | ].
  apply nonDecreasing_cons. split.
  - inversion Hhd as [ | b' l'' Hab ]; subst.
    apply Qle_bool_iff. exact Hab.
  - apply IH. exact Hl.
Qed.

Lemma sort_nonDecreasing (l : list Q) :
  nonDecreasing (NumberSort.sort l) = true.
Proof. apply sorted_nonDecreasing. apply NumberSort.Sorted_sort. Qed.

Lemma sort_length (l : list Q) : length (NumberSort.sort l) = length l.
Proof.
  symmetry. apply Permutation_length. apply NumberSort.Permuted_sort.
Qed.

Lemma sort_In (l : list Q) (x : Q) : In x (NumberSort.sort l) <-> In x l.
Proof.
  split; apply Permutation_in;
    [ apply Permutation_sym | ]; apply NumberSort.Permuted_sort.
Qed.

(** The first entry of the sorted list is the least and the last one the
    greatest number of the list that was sorted. *)
Lemma sort_ends (l : list Q) :
  l <> [] ->
  isMinimumOf (nth 0 (NumberSort.sort l) 0) l /\
  isMaximumOf (nth (length (NumberSort.sort l) - 1) (NumberSort.sort l) 0) l.
Proof.
  intro Hne.
  assert (Hs : NumberSort.sort l <> []).
  { intro E. apply (f_equal (@length Q)) in E. rewrite sort_length in E.
    apply length_zero_iff_nil in E. contradiction. }
  destruct (nonDecreasing_first_is_minimum _ Hs (sort_nonDecreasing l))
    as [M1 M2].
  destruct (nonDecreasing_last_is_maximum _ Hs (sort_nonDecreasing l))
    as [N1 N2].
  split; split.
  - apply sort_In. exact M1.
  - intros x Hx. apply M2. apply sort_In. exact Hx.
  - apply sort_In. exact N1.
  - intros x Hx. apply N2. apply sort_In. exact Hx.
Qed.

Lemma minimum_le_maximum (m n : Q) (l : list Q) :
  isMinimumOf m l -> isMaximumOf n l -> m <= n.
Proof. intros [H1 H2] [_ K2]. apply K2. exact H1. Qed.

(** With a full simulation and two timestamps or more, the start and the
    end of the controls' timeline are the least and the greatest
    timestamp. *)
Lemma controlsTimeline_shape (d : SimulationData) :
  hasFullSimulation (Some full) (Some d) = true ->
  (2 <= length (collect (asteroid_trajectory d)
                  ++ collect (earth_trajectory d)))%nat ->
  hasTimestamps (controlsTimeline (Some full) (Some d)) = true /\
  isMinimumOf (ct_start (controlsTimeline (Some full) (Some d)))
    (collect (asteroid_trajectory d) ++ collect (earth_trajectory d)) /\
  isMaximumOf (ct_end (controlsTimeline (Some full) (Some d)))
    (collect (asteroid_trajectory d) ++ collect (earth_trajectory d)).
Proof.
  intros F Hn. unfold controlsTimeline. rewrite F. unfold allTimestamps.
  set (raw := collect (asteroid_trajectory d) ++ collect (earth_trajectory d))
    in *.
  rewrite sort_length.
  destruct (Nat.leb_spec 2 (length raw)) as [_ | Hlt]; [ | lia ].
  cbn [ct_start ct_end hasTimestamps].
  assert (Hne : raw <> [])
    by (intro E; rewrite E in Hn; simpl in Hn; lia).
  destruct (sort_ends raw Hne) as [Hmin Hmax].
  rewrite sort_length in Hmax.
  split; [ reflexivity | ]. split; assumption.
Qed.

(** X22.  The timeline of the controls is well formed for every mode and
    data: its start is not after its end, and its duration is
    [max(end - start, 1)], at least 1.  With a full simulation and two
    timestamps or more, start and end are the least and the greatest
    timestamp of the two trajectories, in whatever order the samples
    carry them; with fewer, the timeline counts frames from 0 to
    [length - 1]. *)
Theorem controlsTimeline_well_formed :
  forall (mode : option SimulationMode) (data : option SimulationData),
    let tl := controlsTimeline mode data in
    ct_start tl <= ct_end tl /\
    ct_duration tl == Qmax (ct_end tl - ct_start tl) 1 /\
    1 <= ct_duration tl /\
    match data with
    | Some d =>
      hasFullSimulation mode data = true ->
      let raw := collect (asteroid_trajectory d)
                   ++ collect (earth_trajectory d) in
      if (2 <=? length raw)%nat then
        hasTimestamps tl = true /\
        isMinimumOf (ct_start tl) raw /\ isMaximumOf (ct_end tl) raw
      else
        hasTimestamps tl = false /\
        ct_start tl = 0 /\
        ct_end tl == ofNat (length (asteroid_trajectory d)) - 1
    | None => hasTimestamps tl = false
    end.
Proof.
  intros mode data tl. unfold tl, controlsTimeline.
  destruct data as [ d | ];
    [ | repeat split; try discriminate; reflexivity ].
  destruct (hasFullSimulation mode (Some d)) eqn:F;
    [ | repeat split; try discriminate; reflexivity ].
  unfold allTimestamps.
  set (raw := collect (asteroid_trajectory d) ++ collect (earth_trajectory d)).
  rewrite sort_length.
  destruct (Nat.leb_spec 2 (length raw)) as [Hn | Hn];
    cbn [ct_start ct_end ct_duration hasTimestamps].
  - assert (Hne : raw <> [])
      by (intro E; rewrite E in Hn; simpl in Hn; lia).
    destruct (sort_ends raw Hne) as [Hmin Hmax].
    rewrite sort_length in Hmax.
    split; [ apply (minimum_le_maximum _ _ raw Hmin Hmax) | ].
    split; [ reflexivity | ]. split; [ apply Q.le_max_r | ].
    intros _. split; [ reflexivity | ]. split; assumption.
  - assert (Hlen : (1 <= length (asteroid_trajectory d))%nat).
    { unfold hasFullSimulation in F. destruct mode as [ [ | ] | ];
        try discriminate. apply Nat.ltb_lt in F. lia. }
    assert (H0 : 0 <= ofNat (length (asteroid_trajectory d)) - 1).
    { assert (H := ofNat_le 1 _ Hlen). change (ofNat 1) with 1 in H. lra. }
    split; [ exact H0 | ].
    split.
    { apply Qle_antisym.
      - apply Q.max_le_compat_r. lra.
      - apply Q.max_le_compat_r. lra. }
    split; [ apply Q.le_max_r | ].
    intros _. repeat split; reflexivity.
Qed.

Lemma timed_collect_from (l : list TrajectoryPoint) :
  timed l = true ->
  forall k,
    mapi_from (fun index point =>
                 match timestamp point with
                 | Some ts => ts
                 | None => ofNat index
                 end) k l
    = collect l.
Proof.
  induction l as [ | a l IH ]; intros Ht k; [ reflexivity | ].
  simpl in Ht. apply andb_true_iff in Ht. destruct Ht as [Ha Hl].
  simpl. rewrite (IH Hl). destruct (timestamp a); [ reflexivity | discriminate ].
Qed.

Lemma timed_collect (points : list TrajectoryPoint) :
  timed points = true -> effectiveTimestamps points = collect points.
Proof. intro H. apply timed_collect_from. exact H. Qed.

(** The span a full load leaves when the trajectories are ordered. *)
Lemma fullLoad_span_of_ordered (data : SimulationData)
  (mode : option SimulationMode) (s : SceneRefs) :
  mode <> Some preview ->
  asteroid_trajectory data ++ earth_trajectory data <> [] ->
  nonDecreasing (effectiveTimestamps (asteroid_trajectory data)) = true ->
  nonDecreasing (effectiveTimestamps (earth_trajectory data)) = true ->
  let all := effectiveTimestamps (asteroid_trajectory data)
               ++ effectiveTimestamps (earth_trajectory data) in
  exists gStart gEnd,
    globalStartTsRef (onSimulationData true (Some data) mode s) = Some gStart /\
    globalEndTsRef (onSimulationData true (Some data) mode s) = Some gEnd /\
    isMinimumOf gStart all /\ isMaximumOf gEnd all.
Proof.
  intros Hmode Hne Ha He all.
  pose proof (onSimulationData_full_refs data mode s Hmode) as K.
  cbv zeta in K. destruct K as (_ & _ & HS & HN & _).
  set (s1 := writeAnimations
               (animationOf (buildTimeline (asteroid_trajectory data))
                  ASTEROID_ANIMATION_DURATION_MS)
               (animationOf (buildTimeline (earth_trajectory data))
                  EARTH_ANIMATION_DURATION_MS) s) in *.
  assert (Hta : timestampsOf (asteroidAnimationRef s1)
                = effectiveTimestamps (asteroid_trajectory data))
    by apply timestampsOf_animationOf.
  assert (Hte : timestampsOf (earthAnimationRef s1)
                = effectiveTimestamps (earth_trajectory data))
    by apply timestampsOf_animationOf.
  assert (Hall : presentTimestamps s1 = all)
    by (unfold presentTimestamps; rewrite Hta, Hte; reflexivity).
  destruct (computeGlobalSpan_ordered s1) as (gStart & gEnd & H1 & H2 & H3 & H4).
  - rewrite Hall. unfold all. intro E. apply app_eq_nil in E.
    destruct E as [E1 E2]. apply Hne.
    apply (f_equal (@length Q)) in E1, E2.
    rewrite effectiveTimestamps_length in E1, E2. simpl in E1, E2.
    apply length_zero_iff_nil in E1, E2. rewrite E1, E2. reflexivity.
  - rewrite Hta. exact Ha.
  - rewrite Hte. exact He.
  - exists gStart, gEnd. rewrite HS, HN, <- Hall.
    split; [ exact H1 | split; [ exact H2 | split; [ exact H3 | exact H4 ] ] ].
Qed.

(** X23.  The controls and the scene agree on the time span: for a full
    simulation whose samples all carry timestamps, in non-decreasing order
    within each trajectory, with a non-empty asteroid trajectory and two
    timestamps or more, the start and end shown by the controls equal the
    global start and end that the load leaves in the scene. *)
Theorem controls_and_scene_agree_on_span :
  forall (data : SimulationData) (s : SceneRefs),
    asteroid_trajectory data <> [] ->
    (2 <= length (asteroid_trajectory data)
          + length (earth_trajectory data))%nat ->
    timed (asteroid_trajectory data) = true ->
    timed (earth_trajectory data) = true ->
    nonDecreasing (effectiveTimestamps (asteroid_trajectory data)) = true ->
    nonDecreasing (effectiveTimestamps (earth_trajectory data)) = true ->
    let tl := controlsTimeline (Some full) (Some data) in
    let s' := onSimulationData true (Some data) (Some full) s in
    exists gStart gEnd,
      globalStartTsRef s' = Some gStart /\
      globalEndTsRef s' = Some gEnd /\
      hasTimestamps tl = true /\
      ct_start tl == gStart /\ ct_end tl == gEnd.
Proof.
  intros data s Hne Hn Hta Hte Hoa Hoe tl s'.
  destruct (fullLoad_span_of_ordered data (Some full) s)
    as (gStart & gEnd & HS & HE & Hmin & Hmax); try assumption.
  - discriminate.
  - intro E. apply app_eq_nil in E. destruct E as [E _]. contradiction.
  - rewrite (timed_collect _ Hta), (timed_collect _ Hte) in Hmin, Hmax.
    pose proof (controlsTimeline_shape data) as K.
    exists gStart, gEnd. split; [ exact HS | ]. split; [ exact HE | ].
    assert (Hfull : hasFullSimulation (Some full) (Some data) = true).
    { unfold hasFullSimulation. apply Nat.ltb_lt.
      destruct (asteroid_trajectory data); [ contradiction | simpl; lia ]. }
    assert (Hlen : (2 <= length (collect (asteroid_trajectory data)
                                   ++ collect (earth_trajectory data)))%nat).
    { rewrite <- (timed_collect _ Hta), <- (timed_collect _ Hte).
      rewrite length_app, !effectiveTimestamps_length. exact Hn. }
    specialize (K Hfull Hlen). destruct K as (Kt & Kmin & Kmax).
    fold tl in Kt, Kmin, Kmax.
    split; [ exact Kt | ].
    destruct Hmin as [Hm1 Hm2], Hmax as [Hx1 Hx2].
    destruct Kmin as [Km1 Km2], Kmax as [Kx1 Kx2].
    split; apply Qle_antisym; auto.
Qed.

Lemma controls_and_scene_agree_on_span_witness :
  exists gStart gEnd,
    globalStartTsRef
      (onSimulationData true (Some fullSimulation) (Some full) initialRefs)
    = Some gStart /\
    globalEndTsRef
      (onSimulationData true (Some fullSimulation) (Some full) initialRefs)
    = Some gEnd /\
    hasTimestamps (controlsTimeline (Some full) (Some fullSimulation)) = true /\
    ct_start (controlsTimeline (Some full) (Some fullSimulation)) == gStart /\
    ct_end (controlsTimeline (Some full) (Some fullSimulation)) == gEnd.
Proof.
  apply (controls_and_scene_agree_on_span fullSimulation initialRefs).
  - discriminate.
  - simpl. lia.
  - reflexivity.
  - reflexivity.
  - reflexivity.
  - reflexivity.
Defined.

(** ** Analytic Earth propagator: further properties *)

Module KeplerMore.

Import Reals Lra RNsatz.
Import Kepler.
Local Open Scope R_scope.

Lemma sin_cos_square (x : R) : sin x * sin x + cos x * cos x = 1.
Proof. exact (sin2_cos2 x). Qed.

(** X24.  The frame rotation is orthonormal: the columns of the matrix
    from the orbital plane to the ecliptic frame have unit length and are
    perpendicular to one another, so rotating a vector keeps its
    length. *)
Theorem perifocal_to_ecliptic_orthonormal :
  let m := PERIFOCAL_TO_ECLIPTIC in
  dot (column1 m) (column1 m) = 1 /\
  dot (column2 m) (column2 m) = 1 /\
  dot (column3 m) (column3 m) = 1 /\
  dot (column1 m) (column2 m) = 0 /\
  dot (column1 m) (column3 m) = 0 /\
  dot (column2 m) (column3 m) = 0 /\
  forall v : Vector3R, lengthSq (applyMatrix3 m v) = lengthSq v.
Proof.
  cbv zeta.
  unfold PERIFOCAL_TO_ECLIPTIC, getPerifocalToEclipticMatrix, dot, column1,
    column2, column3, lengthSq, applyMatrix3.
  cbn [n11 n12 n13 n21 n22 n23 n31 n32 n33 rx ry rz].
  assert (HO := sin_cos_square EARTH_LONG_ASC_NODE).
  assert (Hi := sin_cos_square EARTH_INCLINATION).
  assert (Hw := sin_cos_square EARTH_ARG_PERIHELION).
  set (cO := cos EARTH_LONG_ASC_NODE) in *.
  set (sO := sin EARTH_LONG_ASC_NODE) in *.
  set (ci := cos EARTH_INCLINATION) in *.
  set (si := sin EARTH_INCLINATION) in *.
  set (cw := cos EARTH_ARG_PERIHELION) in *.
  set (sw := sin EARTH_ARG_PERIHELION) in *.
  repeat split; nsatz.
Qed.

Lemma rotation_keeps_length (v : Vector3R) :
  lengthSq (applyMatrix3 PERIFOCAL_TO_ECLIPTIC v) = lengthSq v.
Proof.
  unfold PERIFOCAL_TO_ECLIPTIC, getPerifocalToEclipticMatrix, lengthSq,
    applyMatrix3.
  cbn [n11 n12 n13 n21 n22 n23 n31 n32 n33 rx ry rz].
  assert (HO := sin_cos_square EARTH_LONG_ASC_NODE).
  assert (Hi := sin_cos_square EARTH_INCLINATION).
  assert (Hw := sin_cos_square EARTH_ARG_PERIHELION).
  set (cO := cos EARTH_LONG_ASC_NODE) in *.
  set (sO := sin EARTH_LONG_ASC_NODE) in *.
  set (ci := cos EARTH_INCLINATION) in *.
  set (si := sin EARTH_INCLINATION) in *.
  set (cw := cos EARTH_ARG_PERIHELION) in *.
  set (sw := sin EARTH_ARG_PERIHELION) in *.
  destruct v as [x y z]. cbn [rx ry rz]. nsatz.
Qed.

Lemma eccentricity_range : 0 < EARTH_ECCENTRICITY < 1.
Proof. unfold EARTH_ECCENTRICITY. lra. Qed.

Lemma positionAt_lengthSq (E : R) :
  lengthSq (positionAt E)
  = Rsqr (SCALE_FACTOR_R * EARTH_ORBITAL_RADIUS
          * (1 - EARTH_ECCENTRICITY * cos E)).
Proof.
  unfold positionAt. cbv zeta.
  assert (Hscale : forall w s,
             lengthSq (multiplyScalarR w s) = s * s * lengthSq w)
    by (intros [wx wy wz] s; unfold lengthSq, multiplyScalarR;
        cbn [rx ry rz]; ring).
  rewrite Hscale, rotation_keeps_length.
  unfold lengthSq. cbn [rx ry rz].
  assert (Hs : sqrt (1 - EARTH_ECCENTRICITY * EARTH_ECCENTRICITY)
               * sqrt (1 - EARTH_ECCENTRICITY * EARTH_ECCENTRICITY)
               = 1 - EARTH_ECCENTRICITY * EARTH_ECCENTRICITY).
  { apply sqrt_sqrt. destruct eccentricity_range. nra. }
  assert (Hsc := sin_cos_square E).
  set (q := sqrt (1 - EARTH_ECCENTRICITY * EARTH_ECCENTRICITY)) in *.
  set (e := EARTH_ECCENTRICITY) in *.
  set (c := cos E) in *. set (sn := sin E) in *.
  unfold Rsqr. nsatz.
Qed.

(** X25.  The Earth stays on its ellipse whatever the Newton iteration
    reaches: for every time the squared distance of [getEarthPosition]
    from the Sun is [(scale * a * (1 - e cos E))^2] for the eccentric
    anomaly [E] the seven steps arrive at, and so lies between the
    squares of the perihelion distance [scale * a * (1 - e)] and the
    aphelion distance [scale * a * (1 + e)]. *)
Theorem getEarthPosition_between_perihelion_and_aphelion :
  forall time : R,
    let r2 := lengthSq (getEarthPosition time) in
    let k := SCALE_FACTOR_R * EARTH_ORBITAL_RADIUS in
    r2 = Rsqr (k * (1 - EARTH_ECCENTRICITY * cos (eccentricAnomaly time))) /\
    Rsqr (k * (1 - EARTH_ECCENTRICITY)) <= r2 /\
    r2 <= Rsqr (k * (1 + EARTH_ECCENTRICITY)).
Proof.
  intros time r2 k.
  assert (Hr : r2 = Rsqr (k * (1 - EARTH_ECCENTRICITY
                                   * cos (eccentricAnomaly time)))).
  { unfold r2, getEarthPosition. cbv zeta. apply positionAt_lengthSq. }
  split; [ exact Hr | ].
  rewrite Hr.
  destruct eccentricity_range as [He0 He1].
  destruct (COS_bound (eccentricAnomaly time)) as [Hc1 Hc2].
  assert (Hk : 0 < k).
  { unfold k, SCALE_FACTOR_R, EARTH_ORBITAL_RADIUS, AU. lra. }
  set (e := EARTH_ECCENTRICITY) in *.
  set (c := cos (eccentricAnomaly time)) in *.
  assert (Hec1 : e * c <= e) by nra.
  assert (Hec2 : - e <= e * c) by nra.
  split; apply Rsqr_incr_1;
    try (apply Rmult_le_compat_l; lra);
    apply Rmult_le_pos; lra.
Qed.

Lemma period_positive : 0 < EARTH_ORBITAL_PERIOD.
Proof. unfold EARTH_ORBITAL_PERIOD. lra. Qed.

Lemma jsRem_small (a b : R) : 0 <= a -> a < b -> jsRem a b = a.
Proof.
  intros Ha Hb. unfold jsRem, truncate.
  assert (Hbpos : 0 < b) by lra.
  assert (Hq0 : 0 <= a / b)
    by (apply Rmult_le_pos; [ exact Ha | left; apply Rinv_0_lt_compat; exact Hbpos ]).
  assert (Hq1 : a / b < 1).
  { apply (Rmult_lt_reg_r b); [ exact Hbpos | ].
    unfold Rdiv. rewrite Rmult_assoc, Rinv_l by lra. lra. }
  destruct (Rle_dec 0 (a / b)) as [_ | Hn]; [ | contradiction ].
  assert (Hi : Int_part (a / b) = 0%Z).
  { symmetry. apply Int_part_spec. simpl. lra. }
  rewrite Hi. simpl. ring.
Qed.

Lemma nth_map_seq_any {A : Type} (h : nat -> A) (n i : nat) (d : A) :
  (i < n)%nat -> nth i (map h (seq 0 n)) d = h i.
Proof.
  intro Hi.
  rewrite (nth_indep _ d (h 0%nat))
    by (rewrite length_map, length_seq; exact Hi).
  rewrite (map_nth h (seq 0 n) 0%nat i). rewrite seq_nth by exact Hi.
  reflexivity.
Qed.

(** X26.  The drawn orbit is made of positions of the propagator:
    [generateEarthOrbit(N)] has [N] points, and its point [i] is
    [getEarthPosition] at the time [(i / N) * period]. *)
Theorem generateEarthOrbit_points :
  forall (numPoints i : nat) (d : Vector3R),
    length (generateEarthOrbit numPoints) = numPoints /\
    ((i < numPoints)%nat ->
     nth i (generateEarthOrbit numPoints) d
     = getEarthPosition (INR i / INR numPoints * EARTH_ORBITAL_PERIOD)).
Proof.
  intros numPoints i d. unfold generateEarthOrbit.
  split; [ rewrite length_map, length_seq; reflexivity | ].
  intro Hi. rewrite (nth_map_seq_any _ _ _ d Hi).
  unfold getEarthPosition, meanAnomaly. cbv zeta.
  assert (HN : 0 < INR numPoints) by (apply lt_0_INR; lia).
  assert (Hfrac0 : 0 <= INR i / INR numPoints).
  { apply Rmult_le_pos; [ apply pos_INR | left; apply Rinv_0_lt_compat; exact HN ]. }
  assert (Hfrac1 : INR i / INR numPoints < 1).
  { apply (Rmult_lt_reg_r (INR numPoints)); [ exact HN | ].
    unfold Rdiv. rewrite Rmult_assoc, Rinv_l by lra.
    rewrite Rmult_1_r, Rmult_1_l. apply lt_INR. exact Hi. }
  assert (HP := period_positive).
  rewrite jsRem_small; [ reflexivity | nra | nra ].
Qed.

Lemma generateEarthOrbit_points_witness :
  nth 1 (generateEarthOrbit 4) (mkVector3R 0 0 0)
  = getEarthPosition (INR 1 / INR 4 * EARTH_ORBITAL_PERIOD).
Proof.
  apply (generateEarthOrbit_points 4 1 (mkVector3R 0 0 0)). lia.
Defined.

(** X27.  For every time, however large or negative, the mean anomaly
    stays within one turn of the anomaly at epoch. *)
Theorem meanAnomaly_within_one_turn :
  forall time : R,
    EARTH_MEAN_ANOMALY_EPOCH - 2 * PI < meanAnomaly time
    /\ meanAnomaly time < EARTH_MEAN_ANOMALY_EPOCH + 2 * PI.
Proof.
  intro time. unfold meanAnomaly. cbv zeta.
  assert (HP := period_positive).
  destruct (KeplerFacts.jsRem_bounds time EARTH_ORBITAL_PERIOD HP)
    as [Hpos Hneg].
  assert (Hpi := PI_RGT_0).
  assert (Hn : 2 * PI / EARTH_ORBITAL_PERIOD * EARTH_ORBITAL_PERIOD = 2 * PI)
    by (field; lra).
  assert (Hnpos : 0 < 2 * PI / EARTH_ORBITAL_PERIOD).
  { apply Rmult_lt_0_compat; [ lra | apply Rinv_0_lt_compat; exact HP ]. }
  set (n := 2 * PI / EARTH_ORBITAL_PERIOD) in *.
  set (r := jsRem time EARTH_ORBITAL_PERIOD) in *.
  destruct (Rle_dec 0 time) as [H | H].
  - destruct (Hpos H) as [H1 H2]. split; nra.
  - assert (H' : time <= 0) by lra.
    destruct (Hneg H') as [H1 H2]. split; nra.
Qed.

(** The solver does not disturb an exact solution: a seed that already
    satisfies Kepler's equation [E - e sin E = M] is returned unchanged by
    every number of Newton steps. *)
Lemma newton_keeps_exact_solution (n : nat) (ecc M E : R) :
  E - ecc * sin E = M -> newton n ecc M E = E.
Proof.
  revert E.
  induction n as [ | k IH ]; intros E H; simpl; [ reflexivity | ].
  assert (Hs : newtonStep ecc M E = E).
  { unfold newtonStep. cbv zeta. rewrite H.
    unfold Rminus at 2. rewrite Rplus_opp_r.
    unfold Rdiv. rewrite Rmult_0_l. ring. }
  rewrite Hs. apply IH. exact H.
Qed.

End KeplerMore.

(** ** Orbit diagnostics: the derived ellipse *)

Lemma minOf_isMinimum (rest : list Q) :
  forall a, isMinimumOf (minOf a rest) (a :: rest).
Proof.
  unfold minOf. induction rest as [ | b rest IH ]; intro a.
  - split; [ left; reflexivity | ].
    intros x [E | []]. rewrite E. apply Qle_refl.
  - cbn [fold_left]. destruct (IH (Qmin a b)) as [Hin Hle]. split.
    + destruct Hin as [E | Hin].
      * rewrite <- E. destruct (Qmin_cases a b) as [F | F]; rewrite F;
          [ left | right; left ]; reflexivity.
      * right; right; exact Hin.
    + intros x [E | [E | Hx]].
      * rewrite <- E.
        apply Qle_trans with (Qmin a b);
          [ apply Hle; left; reflexivity | apply Q.le_min_l ].
      * rewrite <- E.
        apply Qle_trans with (Qmin a b);
          [ apply Hle; left; reflexivity | apply Q.le_min_r ].
      * apply Hle. right; exact Hx.
Qed.

Lemma maxOf_isMaximum (rest : list Q) :
  forall a, isMaximumOf (maxOf a rest) (a :: rest).
Proof.
  unfold maxOf. induction rest as [ | b rest IH ]; intro a.
  - split; [ left; reflexivity | ].
    intros x [E | []]. rewrite E. apply Qle_refl.
  - cbn [fold_left]. destruct (IH (Qmax a b)) as [Hin Hle]. split.
    + destruct Hin as [E | Hin].
      * rewrite <- E. destruct (Qmax_cases a b) as [F | F]; rewrite F;
          [ left | right; left ]; reflexivity.
      * right; right; exact Hin.
    + intros x [E | [E | Hx]].
      * rewrite <- E.
        apply Qle_trans with (Qmax a b);
          [ apply Q.le_max_l | apply Hle; left; reflexivity ].
      * rewrite <- E.
        apply Qle_trans with (Qmax a b);
          [ apply Q.le_max_r | apply Hle; left; reflexivity ].
      * apply Hle. right; exact Hx.
Qed.

(** The distance in astronomical units of a length in scene units. *)
Lemma sceneToAU (r : Q) :
  r / SCALE_FACTOR / AU_KM == r * (1496000 # 1495978707).
Proof. unfold SCALE_FACTOR, AU_KM. field. Qed.

(** X29.  The derived orbit is a consistent ellipse: for four points or
    more at positive distances, with or without metadata, [analyzeOrbit]
    returns finite elements with [0 < q <= a <= Q] and [0 <= e < 1] that
    satisfy [q = a (1 - e)] and [Q = a (1 + e)]; [rMinAU] and [rMaxAU]
    are [q] and [Q], and it counts every point. *)
Theorem analyzeOrbit_derived_ellipse :
  forall (vectorLength : Vector3 -> Q) (points : list Vector3)
         (meta : option OrbitMetaLike),
    (4 <= length points)%nat ->
    (forall v, In v points -> 0 < vectorLength v) ->
    exists (r : OrbitDiagnosticsResult) (a ecc q Q' : Q),
      analyzeOrbit vectorLength points meta = Some r /\
      derived r = mkDerivedOrbit (Fin a) (Fin ecc) (Fin q) (Fin Q') /\
      rMinAU r = Fin q /\ rMaxAU r = Fin Q' /\
      sampleCount r = length points /\
      0 < q /\ q <= a /\ a <= Q' /\
      0 <= ecc /\ ecc < 1 /\
      q == a * (1 - ecc) /\ Q' == a * (1 + ecc).
Proof.
  intros vectorLength points meta Hn Hpos. unfold analyzeOrbit.
  destruct (Nat.ltb_spec (length points) 4) as [Hlt | _]; [ lia | ].
  destruct points as [ | p0 points' ]; [ simpl in Hn; lia | ].
  cbn [map mathMin mathMax].
  destruct (minOf_isMinimum (map vectorLength points') (vectorLength p0))
    as [Hmin_in Hmin_le].
  destruct (maxOf_isMaximum (map vectorLength points') (vectorLength p0))
    as [Hmax_in Hmax_le].
  set (m := minOf (vectorLength p0) (map vectorLength points')) in *.
  set (M := maxOf (vectorLength p0) (map vectorLength points')) in *.
  assert (Hm0 : 0 < m).
  { change (vectorLength p0 :: map vectorLength points')
      with (map vectorLength (p0 :: points')) in Hmin_in.
    apply in_map_iff in Hmin_in. destruct Hmin_in as (v & Ev & Hv).
    rewrite <- Ev. apply Hpos. exact Hv. }
  assert (HmM : m <= M) by (apply Hmin_le; exact Hmax_in).
  rewrite !(jsDiv_finite _ SCALE_FACTOR) by reflexivity.
  rewrite !(jsDiv_finite _ AU_KM) by reflexivity.
  assert (Eq := sceneToAU m). assert (EQ := sceneToAU M).
  set (q := m / SCALE_FACTOR / AU_KM) in *.
  set (Q' := M / SCALE_FACTOR / AU_KM) in *.
  assert (Hq0 : 0 < q) by (rewrite Eq; lra).
  assert (HqQ : q <= Q') by (rewrite Eq, EQ; lra).
  cbn [jsAdd jsSub jsNeg]. rewrite (jsDiv_finite _ 2) by reflexivity.
  assert (Hsum : Qeq_bool (Q' + q) 0 = false).
  { destruct (Qeq_bool (Q' + q) 0) eqn:E; [ | reflexivity ].
    apply Qeq_bool_iff in E. lra. }
  rewrite (jsDiv_finite _ (Q' + q) Hsum).
  cbv zeta.
  assert (Hecc0 : 0 <= (Q' + - q) / (Q' + q))
    by (apply Qle_shift_div_l; lra).
  assert (Hecc1 : (Q' + - q) / (Q' + q) < 1)
    by (apply Qlt_shift_div_r; lra).
  assert (Hqa : q == (q + Q') / 2 * (1 - (Q' + - q) / (Q' + q)))
    by (field; lra).
  assert (HQa : Q' == (q + Q') / 2 * (1 + (Q' + - q) / (Q' + q)))
    by (field; lra).
  assert (Ha1 : q <= (q + Q') / 2)
    by (apply Qle_shift_div_l; [ reflexivity | lra ]).
  assert (Ha2 : (q + Q') / 2 <= Q')
    by (apply Qle_shift_div_r; [ reflexivity | lra ]).
  destruct meta as [ meta | ];
    (eexists; exists ((q + Q') / 2), ((Q' + - q) / (Q' + q)), q, Q';
     split; [ reflexivity | ];
     cbn [derived rMinAU rMaxAU sampleCount];
     repeat (split; [ first [ reflexivity | assumption ] | ]);
     assumption).
Qed.

Lemma analyzeOrbit_derived_ellipse_witness :
  exists (r : OrbitDiagnosticsResult) (a ecc q Q' : Q),
    analyzeOrbit axisLength axisPoints (Some zeroMeta) = Some r /\
    derived r = mkDerivedOrbit (Fin a) (Fin ecc) (Fin q) (Fin Q') /\
    rMinAU r = Fin q /\ rMaxAU r = Fin Q' /\
    sampleCount r = length axisPoints /\
    0 < q /\ q <= a /\ a <= Q' /\
    0 <= ecc /\ ecc < 1 /\
    q == a * (1 - ecc) /\ Q' == a * (1 + ecc).
Proof.
  apply (analyzeOrbit_derived_ellipse axisLength axisPoints (Some zeroMeta)).
  - simpl. lia.
  - intros v [E | [E | [E | [E | []]]]]; rewrite <- E; reflexivity.
Defined.

(** ** Clock display: sign *)

Lemma clockFields_opp (seconds : Q) :
  clockFields (- seconds) = clockFields seconds.
Proof.
  unfold clockFields.
  assert (E : Qabs (- seconds) = Qabs seconds).
  { destruct seconds as [n d]. unfold Qabs, Qopp. cbn [Qnum Qden].
    rewrite Z.abs_opp. reflexivity. }
  rewrite E. reflexivity.
Qed.

Module FormatFacts.

Import Stdlib.Strings.String.
Local Open Scope string_scope.

(** X30.  The clock prints the same magnitude before and after the
    reference instant: for every [seconds > 0], [formatSeconds(seconds)]
    and [formatSeconds(-seconds)] are the same text behind the signs [+]
    and [-]. *)
Theorem formatSeconds_sign_symmetric :
  forall seconds : Q,
    (0 < seconds)%Q ->
    exists body : string,
      Format.formatSeconds seconds = "+" ++ body /\
      Format.formatSeconds (- seconds)%Q = "-" ++ body.
Proof.
  intros seconds Hpos. unfold Format.formatSeconds.
  rewrite clockFields_opp.
  assert (H1 : Qltb seconds 0 = false)
    by (apply Qltb_false_le; apply Qlt_le_weak; exact Hpos).
  assert (H2 : Qltb (- seconds)%Q 0 = true) by (apply Qltb_lt; lra).
  rewrite H1, H2. cbv zeta.
  destruct (0 <? days (clockFields seconds))%Z;
    [ | destruct (0 <? hours (clockFields seconds))%Z ];
    eexists; split; reflexivity.
Qed.

Lemma formatSeconds_sign_symmetric_witness :
  exists body : string,
    Format.formatSeconds 90 = "+" ++ body /\
    Format.formatSeconds (- (90))%Q = "-" ++ body.
Proof.
  apply (formatSeconds_sign_symmetric 90). reflexivity.
Defined.

End FormatFacts.

(** * Evaluations in binary64 *)

Module DoublesFacts.

Import PrimFloat.
Import Doubles.
Local Open Scope float_scope.
#[local] Set Warnings "-inexact-float".

(** C8, counterexample.  The claim is that on the meters path every
    component is divided by 1000 before the display scale factor is
    applied.  The code multiplies by the factor [1 / 1000], which is the
    binary64 value nearest to 0.001 and not 0.001 itself: for one
    astronomical unit in metres on the [x] axis, a vector on the meters
    path, [toScaledVector] returns [x = 999.98576671123], and dividing by
    1000 before the scale factor gives [999.9857667112298]. *)
Lemma toScaledVector_factor_is_not_division :
  assumeMeters oneAUInMetres = true /\
  149597870700 * (1 / 1000) = 149597870.70000002 /\
  149597870700 / 1000 = 149597870.7 /\
  dx (toScaledVector oneAUInMetres) = 999.98576671123 /\
  149597870700 / 1000 * SCALE_FACTOR = 999.9857667112298 /\
  (dx (toScaledVector oneAUInMetres)
   =? 149597870700 / 1000 * SCALE_FACTOR) = false.
Proof. repeat split; reflexivity. Qed.

(** Sampling at the ends in binary64.  At progress 0 the two-entry
    timeline gives its first entry.  At progress 1 the fraction is exactly
    1 and the code returns [a + (b - a) * 1]: [-3 + (-0.7 + 3)] is
    [-0.7000000000000002] and not the [-0.7] of the last entry, and the
    timestamp [0.3 + (0.9 - 0.3)] is [0.9000000000000001], above the last
    timestamp 0.9. *)
Lemma sampleTimeline_ends_in_binary64 :
  exists s0 s1 first last,
    nth_error twoEntries 0 = Some first /\
    nth_error twoEntries 1 = Some last /\
    sampleTimeline twoEntries 0 = Done (Some s0) /\
    sample_position s0 = tl_position first /\
    sample_timestamp s0 = tl_timestamp first /\
    sampleTimeline twoEntries 1 = Done (Some s1) /\
    localT first last 1 = 1 /\
    dx (tl_position last) = -0.7 /\
    dx (sample_position s1) = -0.7000000000000002 /\
    (dx (sample_position s1) =? dx (tl_position last)) = false /\
    tl_timestamp last = 0.9 /\
    sample_timestamp s1 = 0.9000000000000001 /\
    (tl_timestamp last <? sample_timestamp s1) = true.
Proof.
  do 4 eexists.
  split; [ reflexivity | ]. split; [ reflexivity | ].
  split; [ vm_compute; reflexivity | ].
  repeat split; reflexivity.
Qed.

End DoublesFacts.
